(** * Intent discovery pipeline: clustering, representative samples, injection test

    A shallow embedding of [src/clustering.py], [src/validation.py], the
    row construction of [src/data_loader.py], the driver of [src/main.py]
    and [calculate_metrics] of [src/evaluate.py], with the properties the
    specification states about them; and of the intent map update of
    [src/update_indent_map.py], [flatten_intent_map] of
    [src/data_loader.py], and the response cleaning and report order of
    [src/llm_analyst2.py], with properties read off the code.

    Conventions of the embedding.
    - A Python [dict] is an association list in insertion order, because the
      code iterates over [clusters.items()] and relies on that order.
    - A numpy float is an exact rational or one of the three non-finite
      values.  The arithmetic of numpy on the embeddings happens inside the
      library calls, which are parameters; the ratios of counts of the
      injection test are exact.
    - A Python [float] is the rational it stands for, and the float
      operations of the percentage and the coverage round to the nearest
      double ([float_round]).
    - A raised exception is the right injection of a sum type.
    - Calls into scikit-learn and the embedding model are parameters of the
      definitions that make them: [fit_predict] for
      [AgglomerativeClustering(...).fit_predict], [cosine_distance] for one
      entry of [cosine_distances], [np_mean] for [np.mean] over the rows of
      an array, [generate_embeddings] and [encode] for the sentence encoder,
      [silhouette_score].  Module [Engine] gives [fit_predict] as section
      4.1 of the specification describes it.
    - A Python [str] is a [string] of ASCII characters: [lower] maps A-Z,
      [strip] removes the characters 9-13 and 28-32.
    - A JSON object is a record whose fields are [option]s where the code
      can meet the key missing; in [update_map] the [KeyError] is [None]. *)

From Stdlib Require Import String Ascii.
From Stdlib Require Import List ZArith QArith Qround Qabs Qpower Lia Lqa Bool.
From Stdlib Require Import Permutation Sorted.
Import ListNotations.

(* ================================================================== *)
(** * Part I: definitions *)
(* ================================================================== *)

(** ** Exceptions and the error monad *)

Inductive exception : Type :=
| ValueError
| IndexError
| ZeroDivisionError
| ValidationError.

Definition result (A : Type) : Type := (A + exception)%type.

Definition ret {A : Type} (a : A) : result A := inl a.
Definition raise {A : Type} (e : exception) : result A := inr e.

Definition bind {A B : Type} (m : result A) (k : A -> result B) : result B :=
  match m with
  | inl a => k a
  | inr e => inr e
  end.

Notation "x <- m ;; k" := (bind m (fun x => k))
  (at level 61, m at next level, right associativity).

(** ** Numbers and matrices *)

Inductive npfloat : Type :=
| Fin (q : Q)
| PosInf
| NegInf
| NaN.

Definition vector : Type := list npfloat.
Definition matrix : Type := list vector.

Definition is_finite (x : npfloat) : bool :=
  match x with
  | Fin _ => true
  | _ => false
  end.

(** IEEE addition without rounding. *)
Definition fadd (x y : npfloat) : npfloat :=
  match x, y with
  | NaN, _ | _, NaN => NaN
  | PosInf, NegInf | NegInf, PosInf => NaN
  | PosInf, _ | _, PosInf => PosInf
  | NegInf, _ | _, NegInf => NegInf
  | Fin a, Fin b => Fin (a + b)
  end.

(** Division by a count; a zero count is the mean of an empty slice. *)
Definition fdiv_count (x : npfloat) (n : nat) : npfloat :=
  match n with
  | O => NaN
  | S _ =>
      match x with
      | Fin a => Fin (a / inject_Z (Z.of_nat n))
      | other => other
      end
  end.

(** The order numpy sorts by: NaN after everything else. *)
Definition fleb (x y : npfloat) : bool :=
  match x, y with
  | _, NaN => true
  | NaN, _ => false
  | NegInf, _ => true
  | _, NegInf => false
  | _, PosInf => true
  | PosInf, _ => false
  | Fin a, Fin b => Qle_bool a b
  end.

Fixpoint vadd (u v : vector) : vector :=
  match u, v with
  | x :: u', y :: v' => fadd x y :: vadd u' v'
  | _, _ => []
  end.

(** The arithmetic mean of the rows, entry by entry, without rounding: an
    executable instance of [np.mean(rows, axis=0)] for the examples. *)
Definition exact_mean (rows : matrix) : vector :=
  match rows with
  | [] => []
  | r :: rs => map (fun s => fdiv_count s (length rows)) (fold_left vadd rs r)
  end.

(** ** Indexing, slicing, sorting *)

(** [xs[indices]] with a list of positions, as numpy and [DataFrame.iloc]
    do it: any position out of range raises. *)
Fixpoint take_rows {A : Type} (xs : list A) (indices : list nat)
  : result (list A) :=
  match indices with
  | [] => ret []
  | i :: rest =>
      match nth_error xs i with
      | None => raise IndexError
      | Some x => tl <- take_rows xs rest ;; ret (x :: tl)
      end
  end.

(** [xs[:k]] for a Python integer [k]. *)
Definition slice_to {A : Type} (xs : list A) (k : Z) : list A :=
  if (0 <=? k)%Z then firstn (Z.to_nat k) xs
  else firstn (length xs - Z.to_nat (- k)) xs.

Section StableSort.
Variable A : Type.
Variable leb : A -> A -> bool.

Fixpoint insert_sorted (x : A) (l : list A) : list A :=
  match l with
  | [] => [x]
  | y :: r => if leb x y then x :: y :: r else y :: insert_sorted x r
  end.

(** Stable: an element stays in front of the later ones it ties with. *)
Fixpoint stable_sort (l : list A) : list A :=
  match l with
  | [] => []
  | x :: r => insert_sorted x (stable_sort r)
  end.
End StableSort.

Arguments insert_sorted {A} leb x l.
Arguments stable_sort {A} leb l.

Definition enumerate {A : Type} (xs : list A) : list (nat * A) :=
  combine (seq 0 (length xs)) xs.

(** [distances.argsort()]: the positions in ascending order of their
    value.  Equal values stay in position order here; numpy promises no
    order among them, and no statement below depends on one. *)
Definition argsort (distances : list npfloat) : list nat :=
  map fst
    (stable_sort (fun a b => fleb (snd a) (snd b)) (enumerate distances)).

(** ** [clustering.py] *)

Definition Dict : Type := list (Z * list nat).

(** The loop body of [perform_clustering]:
    [if label not in clusters: clusters[label] = []] followed by
    [clusters[label].append(idx)]. *)
Fixpoint dict_append (clusters : Dict) (label : Z) (idx : nat) : Dict :=
  match clusters with
  | [] => [(label, [idx])]
  | (k, members) :: rest =>
      if (k =? label)%Z then (k, members ++ [idx]) :: rest
      else (k, members) :: dict_append rest label idx
  end.

Definition group_step (clusters : Dict) (il : nat * Z) : Dict :=
  dict_append clusters (snd il) (fst il).

(** [for idx, label in enumerate(cluster_labels)] starting from [{}]. *)
Definition group_labels (cluster_labels : list Z) : Dict :=
  fold_left group_step (enumerate cluster_labels) [].

Record ClusterSummary : Type := {
  cluster_id : Z;
  size : nat;
  percentage : Q;
  representative_samples : list string
}.

Record Row : Type := {
  history : string;
  current_message : string;
  full_text : string;
  is_injected : option bool
}.

(** A frame is the list of its rows; it has the columns of [Row] also
    when it has no rows. *)
Definition DataFrame : Type := list Row.

(** ** Python floats *)

(** The integer nearest to [q], a tie going to the even one. *)
Definition round_half_even (q : Q) : Z :=
  let f := Qfloor q in
  let r := q - inject_Z f in
  match (r ?= (1 # 2))%Q with
  | Lt => f
  | Gt => (f + 1)%Z
  | Eq => if Z.even f then f else (f + 1)%Z
  end.

(** The binary exponent of a positive number: the [e] with
    [2^e <= q < 2^(e+1)]. *)
Definition binary_exponent (q : Q) : Z :=
  if Qle_bool 1 q then Z.log2 (Qfloor q)
  else (- Z.log2_up (Qceiling (/ q)))%Z.

(** The doubles around a positive [q] are the multiples of
    [2^(e-52)], and of [2^-1074] among the subnormal numbers. *)
Definition spacing (q : Q) : Q :=
  2 ^ Z.max (binary_exponent q - 52) (-1074).

(** The double nearest to a positive [q], a tie going to the even
    significand. *)
Definition round_positive (q : Q) : Q :=
  inject_Z (round_half_even (q / spacing q)) * spacing q.

(** A Python [float] is the rational it stands for.  [float_round q] is
    the double nearest to [q]: the result of a float operation whose exact
    result is [q], for [q] within the range of the doubles. *)
Definition float_round (q : Q) : Q :=
  match Qnum q with
  | Z0 => 0
  | Zpos _ => round_positive q
  | Zneg _ => - round_positive (- q)
  end.

(** [a / b] on two [int]s, for [b] other than 0. *)
Definition int_truediv (a b : Z) : Q := float_round (inject_Z a / inject_Z b).

(** [x * y] on two [float]s. *)
Definition float_mul (x y : Q) : Q := float_round (x * y).

(** [round(x, 2)] on a [float]: the decimal with two places nearest to the
    value of [x], a tie going to the even last digit, and then the double
    nearest to that decimal. *)
Definition round2 (x : Q) : Q :=
  float_round (inject_Z (round_half_even (x * 100)) / 100).

(** [round((len(indices) / len(df)) * 100, 2)]; Python's [/] on two
    [int]s raises when the divisor is zero.  The lengths of lists are far
    below the range of the doubles. *)
Definition percentage_of (members total : nat) : result Q :=
  match total with
  | O => raise ZeroDivisionError
  | S _ =>
      ret (round2 (float_mul
                     (int_truediv (Z.of_nat members) (Z.of_nat total)) 100))
  end.

Section Clustering.
(** [AgglomerativeClustering(n_clusters=None, distance_threshold=...,
    metric='euclidean', linkage='ward').fit_predict] *)
Variable fit_predict : matrix -> Q -> result (list Z).

(** One entry of [sklearn.metrics.pairwise.cosine_distances]. *)
Variable cosine_distance : vector -> vector -> npfloat.

(** [np.mean(cluster_vectors, axis=0)]: numpy's mean of the rows of an
    array, in the arithmetic of the array's dtype. *)
Variable np_mean : matrix -> vector.

Definition perform_clustering (embeddings : matrix) (distance_threshold : Q)
  : result Dict :=
  cluster_labels <- fit_predict embeddings distance_threshold ;;
  ret (group_labels cluster_labels).

(** [cosine_distances(cluster_vectors, centroid).flatten()]; the library
    refuses an array without rows and an array with a NaN or an infinite
    entry. *)
Definition cosine_distances (cluster_vectors : matrix) (centroid : vector)
  : result (list npfloat) :=
  match cluster_vectors with
  | [] => raise ValueError
  | _ :: _ =>
      if forallb (forallb is_finite) cluster_vectors
         && forallb is_finite centroid
      then ret (map (fun v => cosine_distance v centroid) cluster_vectors)
      else raise ValueError
  end.

(** The body of the [for label, indices in clusters.items()] loop. *)
Definition summarize_cluster (embeddings : matrix) (df : DataFrame)
    (samples_per_cluster : Z) (label : Z) (indices : list nat)
  : result ClusterSummary :=
  cluster_vectors <- take_rows embeddings indices ;;
  let centroid := np_mean cluster_vectors in
  distances <- cosine_distances cluster_vectors centroid ;;
  let closest_indices_local := slice_to (argsort distances) samples_per_cluster in
  closest_indices_global <- take_rows indices closest_indices_local ;;
  rows <- take_rows df closest_indices_global ;;
  let samples := map full_text rows in
  pct <- percentage_of (length indices) (length df) ;;
  ret {| cluster_id := label;
         size := length indices;
         percentage := pct;
         representative_samples := samples |}.

Fixpoint summarize_all (embeddings : matrix) (df : DataFrame)
    (samples_per_cluster : Z) (clusters : Dict)
  : result (list ClusterSummary) :=
  match clusters with
  | [] => ret []
  | (label, indices) :: rest =>
      s <- summarize_cluster embeddings df samples_per_cluster label indices ;;
      tl <- summarize_all embeddings df samples_per_cluster rest ;;
      ret (s :: tl)
  end.

(** [key=lambda x: x['size'], reverse=True]: [a] may stay in front of [b]
    when its size is not smaller.  Python keeps the sort stable under
    [reverse=True]. *)
Definition size_desc (a b : ClusterSummary) : bool := (size b <=? size a)%nat.

Definition get_representative_samples (clusters : Dict) (embeddings : matrix)
    (df : DataFrame) (samples_per_cluster : Z)
  : result (list ClusterSummary) :=
  cluster_summaries <- summarize_all embeddings df samples_per_cluster clusters ;;
  ret (stable_sort size_desc cluster_summaries).
End Clustering.

(** ** [data_loader.py] *)

Definition newline : string := String (ascii_of_nat 10) EmptyString.

Record RawMessage : Type := {
  raw_history : string;
  current_human_message : string
}.

(** The rows [load_and_preprocess_data] builds from the
    ['customer_messages'] of the input file; they carry no
    ['is_injected'] column. *)
Definition load_and_preprocess_data (raw_messages : list RawMessage)
  : DataFrame :=
  map (fun msg =>
         {| history := raw_history msg;
            current_message := current_human_message msg;
            full_text := ("Context: " ++ raw_history msg ++ " " ++ newline
                          ++ " New Message: " ++ current_human_message msg)%string;
            is_injected := None |})
      raw_messages.

(** ** [validation.py] *)

Definition HIDDEN_INTENT_NAME : string := "Partnership / B2B Inquiry".

Definition HIDDEN_MESSAGES : list string :=
  [ "I want to partner with your brand for a sponsorship";
    "Do you offer franchise options?";
    "I am an influencer looking for a collaboration";
    "Who can I contact for business partnership?";
    "We are a logistics company wanting to work with you";
    "B2B collaboration request";
    "I want to sell your products in my shop";
    "Marketing tie-up proposal";
    "Corporate bulk orders for employees";
    "Affiliate marketing program details please";
    "Do you have a reseller program?";
    "I want to be a distributor";
    "Looking for vendor registration";
    "Partnership opportunity";
    "Can we collaborate on Instagram?";
    "Business query regarding distribution";
    "Sales team contact for bulk purchase";
    "I want to list my products on your site";
    "Sponsorship for college fest";
    "Collab request" ]%string.

Record Report : Type := {
  best_cluster_id : Z;
  best_recall : Q;
  best_precision : Q
}.

Inductive Verdict : Type :=
| PERFECT
| STRONG
| PASSABLE
| FAILURE.

Definition initial_report : Report :=
  {| best_cluster_id := (-1)%Z; best_recall := 0; best_precision := 0 |}.

(** [.fillna(False)] on the ['is_injected'] column. *)
Definition fillna_false (r : Row) : Row :=
  {| history := history r;
     current_message := current_message r;
     full_text := full_text r;
     is_injected := Some (match is_injected r with
                          | Some b => b
                          | None => false
                          end) |}.

Definition injected_flag (r : Row) : bool :=
  match is_injected r with
  | Some b => b
  | None => false
  end.

(** [cluster_rows['is_injected'].sum()] *)
Definition injected_sum (rows : list Row) : nat :=
  length (filter injected_flag rows).

Definition count_ratio (a b : nat) : Q :=
  inject_Z (Z.of_nat a) / inject_Z (Z.of_nat b).

Definition recall_of (injected_count K : nat) : Q := count_ratio injected_count K.

Definition precision_of (injected_count total_in_cluster : nat) : Q :=
  count_ratio injected_count total_in_cluster.

(** [recall > 0.5] *)
Definition above_half (recall : Q) : bool := negb (Qle_bool recall (1 # 2)).

(** The [for c_id, indices in clusters.items()] loop of
    [run_injection_test]; [K] is [len(HIDDEN_MESSAGES)]. *)
Fixpoint analyze_clusters (K : nat) (df_final : DataFrame) (clusters : Dict)
    (best : Report) : result Report :=
  match clusters with
  | [] => ret best
  | (c_id, indices) :: rest =>
      cluster_rows <- take_rows df_final indices ;;
      let injected_count := injected_sum cluster_rows in
      let total_in_cluster := length cluster_rows in
      let recall := recall_of injected_count K in
      let precision := precision_of injected_count total_in_cluster in
      if above_half recall
      then analyze_clusters K df_final rest
             {| best_cluster_id := c_id;
                best_recall := recall;
                best_precision := precision |}
      else analyze_clusters K df_final rest best
  end.

Definition verdict_of (r : Report) : Verdict :=
  if (best_cluster_id r =? -1)%Z then FAILURE
  else if Qeq_bool (best_recall r) 1 && Qeq_bool (best_precision r) 1
       then PERFECT
       else if negb (Qle_bool (best_recall r) (8 # 10)) then STRONG
            else PASSABLE.

Definition injected_rows (messages : list string) : DataFrame :=
  map (fun msg =>
         {| history := "";
            current_message := msg;
            full_text := ("Context: " ++ newline ++ " New Message: " ++ msg)%string;
            is_injected := Some true |})
      messages.

Section Pipeline.
Variable fit_predict : matrix -> Q -> result (list Z).
Variable cosine_distance : vector -> vector -> npfloat.
Variable np_mean : matrix -> vector.

(** [SentenceTransformer(...).encode(..., normalize_embeddings=True)] *)
Variable generate_embeddings : list string -> matrix.

Definition run_injection_test (raw_messages : list RawMessage)
  : result (Report * Verdict) :=
  let df_orig := load_and_preprocess_data raw_messages in
  let df_injected := injected_rows HIDDEN_MESSAGES in
  let df_final := map fillna_false (df_orig ++ df_injected) in
  let vectors := generate_embeddings (map full_text df_final) in
  clusters <- perform_clustering fit_predict vectors (15 # 10) ;;
  r <- analyze_clusters (length HIDDEN_MESSAGES) df_final clusters
         initial_report ;;
  ret (r, verdict_of r).

(** ** [main.py] *)

Record Output : Type := {
  total_messages : nat;
  intent_map_reference : string;
  clusters : list ClusterSummary
}.

Definition main (raw_messages : list RawMessage) (intent_map_str : string)
  : result (option Output) :=
  let df := load_and_preprocess_data raw_messages in
  match df with
  | [] => ret None
  | _ :: _ =>
      let vectors := generate_embeddings (map full_text df) in
      raw_clusters <- perform_clustering fit_predict vectors (15 # 10) ;;
      refined_clusters <-
        get_representative_samples cosine_distance np_mean raw_clusters
          vectors df 5 ;;
      ret (Some {| total_messages := length df;
                   intent_map_reference := intent_map_str;
                   clusters := refined_clusters |})
  end.
End Pipeline.

(** ** [evaluate.py] *)

(** [(sum([c['size'] for c in clusters]) / total_messages) * 100] *)
Definition coverage_ratio (clusters : list ClusterSummary)
    (total_messages : nat) : result Q :=
  let total_clustered_volume := list_sum (map size clusters) in
  match total_messages with
  | O => raise ZeroDivisionError
  | S _ =>
      ret (float_mul
             (int_truediv (Z.of_nat total_clustered_volume)
                (Z.of_nat total_messages)) 100)
  end.

(** The texts and labels of the validation set: every representative
    sample with the id of its cluster. *)
Definition validation_set (clusters : list ClusterSummary)
  : list (string * Z) :=
  flat_map (fun c => map (fun sample => (sample, cluster_id c))
                         (representative_samples c))
           clusters.

Section Metrics.
(** [SentenceTransformer(MODEL_NAME).encode(texts, ...)] *)
Variable encode : list string -> result matrix.

(** [silhouette_score(embeddings, labels, metric='cosine')] *)
Variable silhouette_score : matrix -> list Z -> result npfloat.

(** [calculate_metrics] on the saved output it reads: the silhouette score
    and the coverage that it prints. *)
Definition calculate_metrics (data : Output) : result (npfloat * Q) :=
  let samples := validation_set (clusters data) in
  embeddings <- encode (map fst samples) ;;
  sil_score <- silhouette_score embeddings (map snd samples) ;;
  coverage <- coverage_ratio (clusters data) (total_messages data) ;;
  ret (sil_score, coverage).
End Metrics.

(** ** The clustering engine *)

(** [perform_clustering] obtains its labels from scikit-learn's
    [AgglomerativeClustering], which is not part of the repository.  The
    module below is that engine as section 4.1 of the spec describes it.
    A group is named by the smallest original index it holds, and [labels]
    maps every index to the name of its group. *)

Module Engine.

Definition to_Q (x : npfloat) : Q :=
  match x with
  | Fin q => q
  | _ => 0
  end.

Definition rectangular (X : matrix) : bool :=
  match X with
  | [] => true
  | r :: rs => forallb (fun v => (length v =? length r)%nat) rs
  end.

Definition all_finite (X : matrix) : bool := forallb (forallb is_finite) X.

(** Modelled from the spec: the input check of the engine, absent from
    [src/].  "Failure: rejects (fails with ValidationError) when vectors are
    empty, ragged, or contain non-finite values." *)
Definition validate (X : matrix) : result (list (list Q)) :=
  match X with
  | [] => raise ValidationError
  | _ :: _ =>
      if negb (rectangular X) then raise ValidationError
      else if negb (all_finite X) then raise ValidationError
      else ret (map (map to_Q) X)
  end.

Fixpoint qvadd (u v : list Q) : list Q :=
  match u, v with
  | x :: u', y :: v' => (x + y) :: qvadd u' v'
  | _, _ => []
  end.

Definition centroid_of (rows : list (list Q)) : list Q :=
  match rows with
  | [] => []
  | r :: rs =>
      map (fun s => s / inject_Z (Z.of_nat (length rows)))
          (fold_left qvadd rs r)
  end.

Fixpoint sq_dist (u v : list Q) : Q :=
  match u, v with
  | x :: u', y :: v' => (x - y) * (x - y) + sq_dist u' v'
  | _, _ => 0
  end.

(** Sum of squared Euclidean deviations of a group from its mean. *)
Definition within_ss (rows : list (list Q)) : Q :=
  fold_right (fun r acc => sq_dist r (centroid_of rows) + acc) 0 rows.

Definition members (labels : list nat) (g : nat) : list nat :=
  filter (fun i => (nth i labels i =? g)%nat) (seq 0 (length labels)).

Definition group_rows (X : list (list Q)) (labels : list nat) (g : nat)
  : list (list Q) :=
  map (fun i => nth i X []) (members labels g).

(** Modelled from the spec: the merge cost of the engine, absent from
    [src/].  "the increase in total within-group variance (Ward criterion),
    computed over Euclidean distance". *)
Definition merge_cost (X : list (list Q)) (labels : list nat)
    (p : nat * nat) : Q :=
  let ga := group_rows X labels (fst p) in
  let gb := group_rows X labels (snd p) in
  within_ss (ga ++ gb) - within_ss ga - within_ss gb.

(** The names of the current groups, ascending. *)
Definition reps (labels : list nat) : list nat :=
  filter (fun i => (nth i labels (S i) =? i)%nat) (seq 0 (length labels)).

Fixpoint pairs_of (gs : list nat) : list (nat * nat) :=
  match gs with
  | [] => []
  | a :: rest => map (pair a) rest ++ pairs_of rest
  end.

(** Pairs of distinct groups in lexicographic order of their names. *)
Definition candidates (labels : list nat) : list (nat * nat) :=
  pairs_of (reps labels).

(** The first pair of least cost in [ps]. *)
Fixpoint first_min (cost : nat * nat -> Q) (ps : list (nat * nat))
  : option (nat * nat) :=
  match ps with
  | [] => None
  | p :: rest =>
      match first_min cost rest with
      | None => Some p
      | Some q => if Qle_bool (cost p) (cost q) then Some p else Some q
      end
  end.

(** Modelled from the spec: the choice of the next merge, absent from
    [src/].  "merge the pair of groups whose merge minimizes the increase";
    "ties in merge cost are broken by lowest combined original index pair". *)
Definition cheapest_pair (X : list (list Q)) (labels : list nat)
  : option (nat * nat) :=
  first_min (merge_cost X labels) (candidates labels).

Definition merge (p : nat * nat) (labels : list nat) : list nat :=
  map (fun l => if (l =? snd p)%nat then fst p else l) labels.

(** Modelled from the spec: the merge loop of the engine, absent from
    [src/].  "Stop merging as soon as the next cheapest merge would exceed
    threshold; the groups existing at that point are the final clusters."
    At most [fuel] merges are made; [length X] is enough, see
    [agglomerate_run]. *)
Fixpoint agglomerate (fuel : nat) (X : list (list Q)) (threshold : Q)
    (labels : list nat) : list nat :=
  match fuel with
  | O => labels
  | S fuel' =>
      match cheapest_pair X labels with
      | None => labels
      | Some p =>
          if Qle_bool (merge_cost X labels p) threshold
          then agglomerate fuel' X threshold (merge p labels)
          else labels
      end
  end.

Definition singletons (n : nat) : list nat := seq 0 n.

Definition cluster_labels (X : list (list Q)) (threshold : Q) : list nat :=
  agglomerate (length X) X threshold (singletons (length X)).

(** Modelled from the spec: [AgglomerativeClustering(...).fit_predict],
    absent from [src/].  "Start with each vector as its own singleton
    group", merge as above, "assign each final group an integer label". *)
Definition fit_predict (X : matrix) (threshold : Q) : result (list Z) :=
  Xq <- validate X ;;
  ret (map Z.of_nat (cluster_labels Xq threshold)).

(** The same procedure as a relation, which says what a run is without
    fixing how the pair is searched for. *)

Definition pair_lt (p q : nat * nat) : Prop :=
  (fst p < fst q)%nat \/ (fst p = fst q /\ (snd p < snd q)%nat).

(** [p] is a cheapest merge, and the lowest pair among the cheapest. *)
Definition cheapest (X : list (list Q)) (labels : list nat)
    (p : nat * nat) : Prop :=
  In p (candidates labels) /\
  forall q, In q (candidates labels) -> q <> p ->
    merge_cost X labels p < merge_cost X labels q \/
    (merge_cost X labels p == merge_cost X labels q /\ pair_lt p q).

Inductive ward_run (X : list (list Q)) (threshold : Q)
  : list nat -> list nat -> Prop :=
| run_stop : forall labels,
    (forall p, cheapest X labels p -> threshold < merge_cost X labels p) ->
    ward_run X threshold labels labels
| run_merge : forall labels p final,
    cheapest X labels p ->
    merge_cost X labels p <= threshold ->
    ward_run X threshold (merge p labels) final ->
    ward_run X threshold labels final.

(** Two labelings describe the same partition. *)
Definition same_grouping (d1 d2 : Dict) : Prop :=
  forall i j,
    (exists c, In c d1 /\ In i (snd c) /\ In j (snd c)) <->
    (exists c, In c d2 /\ In i (snd c) /\ In j (snd c)).

End Engine.

(** ** The candidate as the spec words it *)

(** "Among clusters with recall > 0.5, select the one with the highest
    recall": a scan that replaces the candidate only by a strictly higher
    recall.  It is compared with [analyze_clusters] below. *)
Fixpoint select_highest_recall (K : nat) (df_final : DataFrame)
    (clusters : Dict) (best : Report) : result Report :=
  match clusters with
  | [] => ret best
  | (c_id, indices) :: rest =>
      cluster_rows <- take_rows df_final indices ;;
      let injected_count := injected_sum cluster_rows in
      let recall := recall_of injected_count K in
      let precision := precision_of injected_count (length cluster_rows) in
      if above_half recall && negb (Qle_bool recall (best_recall best))
      then select_highest_recall K df_final rest
             {| best_cluster_id := c_id;
                best_recall := recall;
                best_precision := precision |}
      else select_highest_recall K df_final rest best
  end.

(** ** Predicates used in the statements *)

(** The member lists of [d] hold every index below [n] exactly once, and
    no cluster id is repeated. *)
Definition is_partition (d : Dict) (n : nat) : Prop :=
  NoDup (map fst d) /\ Permutation (concat (map snd d)) (seq 0 n).

(** How many of the rows at [indices] are injected. *)
Definition injected_in (df : DataFrame) (indices : list nat) : nat :=
  length (filter (fun i => match nth_error df i with
                           | Some r => injected_flag r
                           | None => false
                           end) indices).

(** The injected rows of all clusters, counted cluster by cluster. *)
Definition injected_total (df : DataFrame) (clusters : Dict) : nat :=
  list_sum (map (fun c => injected_in df (snd c)) clusters).

(** The fraction [numerator / denominator] of two counts, for a
    denominator other than 0. *)
Definition fraction (numerator denominator : nat) : Q :=
  Z.of_nat numerator # Pos.of_nat denominator.

(** How many of the members [indices] of a cluster are injected rows of
    [df]: rows whose [is_injected] is [True]. *)
Definition injected_members (df : DataFrame) (indices : list nat) : nat :=
  length (filter (fun i => match nth_error df i with
                           | Some {| is_injected := Some true |} => true
                           | _ => false
                           end) indices).

(** [(#injected members) / K] and [(#injected members) / cluster_size]. *)
Definition cluster_recall (K : nat) (df : DataFrame) (c : Z * list nat) : Q :=
  recall_of (injected_in df (snd c)) K.

Definition cluster_precision (df : DataFrame) (c : Z * list nat) : Q :=
  precision_of (injected_in df (snd c)) (length (snd c)).

(** What the loop of [run_injection_test] records for cluster [c]. *)
Definition report_of (K : nat) (df : DataFrame) (c : Z * list nat) : Report :=
  {| best_cluster_id := fst c;
     best_recall := cluster_recall K df c;
     best_precision := cluster_precision df c |}.

(** The test [recall > 0.5] of the loop, for cluster [c]. *)
Definition qualifies (K : nat) (df : DataFrame) (c : Z * list nat) : bool :=
  above_half (cluster_recall K df c).

(** Position [i] is not farther from the centroid than position [j]. *)
Definition by_distance (distances : list npfloat) (i j : nat) : Prop :=
  fleb (nth i distances NaN) (nth j distances NaN) = true.

(** [txt] is the text of the member at position [i] of [indices]. *)
Definition text_of (df : DataFrame) (indices : list nat) (i : nat)
    (txt : string) : Prop :=
  exists g r,
    nth_error indices i = Some g /\ nth_error df g = Some r /\
    full_text r = txt.

(** [x] does not come after [y] when floats are put in ascending order;
    every float comes before NaN. *)
Definition ascending (x y : npfloat) : Prop :=
  match y with
  | NaN => True
  | PosInf => x <> NaN
  | Fin b => x = NegInf \/ exists a, x = Fin a /\ a <= b
  | NegInf => x = NegInf
  end.

(** [vectors] are the rows of [embeddings] at the positions [indices], in
    their order. *)
Definition member_vectors (embeddings : matrix) (indices : list nat)
    (vectors : matrix) : Prop :=
  Forall2 (fun g v => nth_error embeddings g = Some v) indices vectors.

(** [order] lists every position of [vectors] once, and a position comes
    before another only if its vector is not farther from [centroid]. *)
Definition nearest_first (cosine_distance : vector -> vector -> npfloat)
    (centroid : vector) (vectors : matrix) (order : list nat) : Prop :=
  Permutation order (seq 0 (length vectors)) /\
  StronglySorted
    (fun i j =>
       exists u v,
         nth_error vectors i = Some u /\ nth_error vectors j = Some v /\
         ascending (cosine_distance u centroid) (cosine_distance v centroid))
    order.

(** The number of items of [xs[:k]] when [xs] has [size] items: [k] of
    them, or all when there are fewer; a negative [k] leaves the last [-k]
    out. *)
Definition sample_count (k : Z) (size : nat) : nat :=
  if (0 <=? k)%Z then Nat.min (Z.to_nat k) size
  else (size - Z.to_nat (- k))%nat.

(** [samples] are the texts of the members of [indices] nearest to the
    centroid, nearest first, [sample_count] of them; the centroid is what
    [np_mean] gives for the vectors of the members. *)
Definition closest_samples (cosine_distance : vector -> vector -> npfloat)
    (np_mean : matrix -> vector)
    (embeddings : matrix) (df : DataFrame) (samples_per_cluster : Z)
    (indices : list nat) (samples : list string) : Prop :=
  exists cluster_vectors order,
    member_vectors embeddings indices cluster_vectors /\
    nearest_first cosine_distance (np_mean cluster_vectors) cluster_vectors
      order /\
    Forall2 (text_of df indices)
      (firstn (sample_count samples_per_cluster (length indices)) order)
      samples.

(** The summary [sm] is the one of cluster [c]. *)
Definition summary_of (cosine_distance : vector -> vector -> npfloat)
    (np_mean : matrix -> vector)
    (embeddings : matrix) (df : DataFrame) (samples_per_cluster : Z)
    (c : Z * list nat) (sm : ClusterSummary) : Prop :=
  cluster_id sm = fst c /\
  size sm = length (snd c) /\
  closest_samples cosine_distance np_mean embeddings df samples_per_cluster
    (snd c) (representative_samples sm) /\
  length (representative_samples sm)
    = sample_count samples_per_cluster (length (snd c)).

(** Rows of unequal length. *)
Definition is_ragged (X : matrix) : Prop :=
  exists u v, In u X /\ In v X /\ length u <> length v.

(** Some entry is NaN or infinite. *)
Definition has_non_finite (X : matrix) : Prop :=
  exists v x, In v X /\ In x v /\ is_finite x = false.

(** One step of the loop of [run_injection_test] as a pure function: a
    qualifying cluster replaces the candidate. *)
Definition keep_last (K : nat) (df : DataFrame) (best : Report)
    (c : Z * list nat) : Report :=
  if qualifies K df c then report_of K df c else best.

(** One step of [select_highest_recall]. *)
Definition keep_higher (K : nat) (df : DataFrame) (best : Report)
    (c : Z * list nat) : Report :=
  if qualifies K df c
     && negb (Qle_bool (cluster_recall K df c) (best_recall best))
  then report_of K df c else best.

(** Every member index names a row of [rows]. *)
Definition members_in_range {A : Type} (rows : list A) (clusters : Dict)
  : Prop :=
  Forall (fun c => Forall (fun i => (i < length rows)%nat) (snd c)) clusters.

(** The values of column [j], and their sum. *)
Definition column (j : nat) (rows : list (list Q)) : list Q :=
  map (fun r => nth j r 0) rows.

Definition qsum (l : list Q) : Q := fold_right Qplus 0 l.

(** ** Inputs for the examples *)

(** An instance of the engine for the examples that, as scikit-learn's
    does, refuses a matrix with fewer than two rows; it puts all rows of a
    matrix it accepts into one cluster. *)
Definition refusing_engine (X : matrix) (distance_threshold : Q)
  : result (list Z) :=
  match X with
  | [] | [_] => raise ValueError
  | _ => ret (map (fun _ => 0%Z) X)
  end.

(** The output of a corpus without messages. *)
Definition empty_output : Output :=
  {| total_messages := 0; intent_map_reference := ""; clusters := [] |}.

Definition three_rows : matrix :=
  [ [Fin 1; Fin 0]; [Fin 1; Fin 0]; [Fin 0; Fin 1] ].

Definition dot (u v : list Q) : Q :=
  fold_right Qplus 0 (map (fun p => fst p * snd p) (combine u v)).

(** Square root to six decimals. *)
Definition qsqrt (q : Q) : Q :=
  inject_Z (Z.sqrt (Qfloor (q * 1000000000000))) / 1000000.

(** An executable instance of the library's cosine distance for the
    examples: 1 - x.c / (|x| |c|), a zero norm counting as 1. *)
Definition cosine_distance_fixed (x c : vector) : npfloat :=
  if forallb is_finite x && forallb is_finite c then
    let xq := map Engine.to_Q x in
    let cq := map Engine.to_Q c in
    let unit_or n := if Qeq_bool n 0 then 1 else n in
    Fin (1 - dot xq cq / (unit_or (qsqrt (dot xq xq))
                          * unit_or (qsqrt (dot cq cq))))
  else NaN.

Definition text_row (txt : string) : Row :=
  {| history := ""; current_message := txt; full_text := txt;
     is_injected := None |}.

Definition demo_embeddings : matrix :=
  [ [Fin 1; Fin 0]; [Fin 0; Fin 1]; [Fin (3 # 5); Fin (4 # 5)] ].

Definition demo_df : DataFrame :=
  [ text_row "refund"; text_row "delivery"; text_row "order status" ].

Definition demo_summaries : list ClusterSummary :=
  Eval vm_compute in
    match get_representative_samples cosine_distance_fixed exact_mean
            [(0%Z, [0; 1; 2]%nat)] demo_embeddings demo_df 2 with
    | inl summaries => summaries
    | inr _ => []
    end.

Definition scenario_labels : list Z :=
  repeat 2%Z 25 ++ repeat 1%Z 25 ++ repeat 0%Z 10.

Definition scenario_embeddings : matrix := repeat [Fin 1; Fin 0] 60.

Definition scenario_df : DataFrame := repeat (text_row "hello") 60.

Definition small_df_final : DataFrame :=
  map fillna_false
    (load_and_preprocess_data
       [{| raw_history := ""; current_human_message := "where is my order" |}]
     ++ injected_rows ["B2B collaboration request"; "Collab request"]%string).

Definition small_labels : list Z := [0; 1; 1]%Z.

(** Two messages of the corpus and three injected ones; two of the
    injected messages share cluster 1 with a message of the corpus. *)
Definition mixed_df_final : DataFrame :=
  map fillna_false
    (load_and_preprocess_data
       [{| raw_history := ""; current_human_message := "where is my order" |};
        {| raw_history := ""; current_human_message := "bulk order" |}]
     ++ injected_rows ["B2B collaboration request"; "Collab request";
                       "Partnership"]%string).

Definition mixed_labels : list Z := [0; 1; 1; 1; 0]%Z.

(** ** Further definitions: strings, the intent map, the reports *)

(** [clusters[label]], or no members when the key is absent. *)
Fixpoint dict_get (clusters : Dict) (label : Z) : list nat :=
  match clusters with
  | [] => []
  | (k, members) :: rest =>
      if (k =? label)%Z then members else dict_get rest label
  end.

(** The smallest member of each cluster, in the order of the mapping. *)
Definition first_members (clusters : Dict) : list nat :=
  map (fun c => hd 0%nat (snd c)) clusters.

(** The share of the corpus a cluster of [members] rows has, in percent,
    before rounding. *)
Definition exact_percentage (members total : nat) : Q :=
  inject_Z (Z.of_nat members) / inject_Z (Z.of_nat total) * 100.

(** How far a percentage can be from the exact share: half a hundredth
    for the rounding to two decimals, and [10^-12] for the rounding of the
    division, the multiplication and the conversion of the decimal. *)
Definition rounding_slack : Q := (1 # 200) + (1 # 1000000000000).

(** Row [i] of [df] carries the injection marker. *)
Definition is_injected_row (df : DataFrame) (i : nat) : Prop :=
  exists row, nth_error df i = Some row /\ injected_flag row = true.

(** ** Python [str] operations *)

(** A Python [str] is a [string] of ASCII characters here; [lower],
    [strip] and the character classes of [re] are the ASCII ones. *)

Definition in_range (lo hi : nat) (c : ascii) : bool :=
  let n := nat_of_ascii c in (lo <=? n)%nat && (n <=? hi)%nat.

Definition is_upper (c : ascii) : bool := in_range 65 90 c.
Definition is_lower (c : ascii) : bool := in_range 97 122 c.
Definition is_digit (c : ascii) : bool := in_range 48 57 c.

(** [str.isspace] on one ASCII character: tab to carriage return, the
    four separators 28 to 31, and the space. *)
Definition is_space (c : ascii) : bool := in_range 9 13 c || in_range 28 32 c.

Definition lower_char (c : ascii) : ascii :=
  if is_upper c then ascii_of_nat (nat_of_ascii c + 32) else c.

Fixpoint str_map (f : ascii -> ascii) (s : string) : string :=
  match s with
  | EmptyString => EmptyString
  | String c r => String (f c) (str_map f r)
  end.

Fixpoint str_filter (f : ascii -> bool) (s : string) : string :=
  match s with
  | EmptyString => EmptyString
  | String c r => if f c then String c (str_filter f r) else str_filter f r
  end.

(** [s.lower()] *)
Definition lower (s : string) : string := str_map lower_char s.

Fixpoint lstrip (s : string) : string :=
  match s with
  | EmptyString => EmptyString
  | String c r => if is_space c then lstrip r else s
  end.

Fixpoint rstrip (s : string) : string :=
  match s with
  | EmptyString => EmptyString
  | String c r =>
      match rstrip r with
      | EmptyString => if is_space c then EmptyString else String c EmptyString
      | r' => String c r'
      end
  end.

(** [s.strip()] *)
Definition strip (s : string) : string := lstrip (rstrip s).

(** [s[n:]] *)
Fixpoint drop (n : nat) (s : string) : string :=
  match n, s with
  | O, _ => s
  | S n', String _ r => drop n' r
  | S _, EmptyString => EmptyString
  end.

(** [s[:-n]] *)
Definition drop_last (n : nat) (s : string) : string :=
  substring 0 (String.length s - n) s.

(** [s.endswith(suffix)] *)
Fixpoint ends_with (suffix s : string) : bool :=
  if String.eqb s suffix then true
  else match s with
       | EmptyString => false
       | String _ r => ends_with suffix r
       end.

(** The text before and after the first occurrence of [sep] in [s]. *)
Fixpoint split_once (sep s : string) : option (string * string) :=
  if prefix sep s then Some (EmptyString, drop (String.length sep) s)
  else match s with
       | EmptyString => None
       | String c r =>
           match split_once sep r with
           | Some (before, after) => Some (String c before, after)
           | None => None
           end
       end.

(** [sep in s] *)
Definition contains (sep s : string) : bool :=
  match split_once sep s with
  | Some _ => true
  | None => false
  end.

(** ** [update_indent_map.py] *)

(** [re.sub(r'[^a-z0-9\s]', '', text)] keeps these characters. *)
Definition slug_char (c : ascii) : bool := is_lower c || is_digit c || is_space c.

Definition space_to_underscore (c : ascii) : ascii :=
  if Ascii.eqb c " " then "_"%char else c.

Definition slugify (text : string) : string :=
  str_map space_to_underscore (str_filter slug_char (lower text)).

(** The objects of the ['intent_mapper'] list.  A key of the JSON object
    that may be absent is an [option]. *)
Record SecondaryIntent : Type := {
  sec_id : option string;
  sec_name : option string;
  sec_description : option string;
  sec_added_by : option string
}.

Record PrimaryIntent : Type := {
  primary_intent_id : option string;
  primary_intent_name : option string;
  secondary_intents : option (list SecondaryIntent)
}.

Record IntentData : Type := {
  intent_mapper : option (list PrimaryIntent)
}.

(** A row of the audit log as [csv.DictReader] yields it. *)
Record Change : Type := {
  Intent_Name : string;
  Proposal : string;
  Reasoning : string
}.

(** Step 1 of the loop of [update_map]: [None] for a name without
    [" > "], which the loop skips. *)
Definition parse_intent_name (full_name : string) : option (string * string) :=
  match split_once " > " full_name with
  | None => None
  | Some (part0, rest) =>
      let part1 := match split_once " > " rest with
                   | Some (before, _) => before
                   | None => rest
                   end in
      Some (strip part0, strip part1)
  end.

(** Step 3: does a secondary of that name exist?  [None] is the
    [KeyError] of [s['name']] on an entry the search reaches. *)
Fixpoint secondary_exists (secondaries : list SecondaryIntent)
    (secondary_name : string) : option bool :=
  match secondaries with
  | [] => Some false
  | s :: rest =>
      match sec_name s with
      | None => None
      | Some n =>
          if String.eqb (lower n) (lower secondary_name) then Some true
          else secondary_exists rest secondary_name
      end
  end.

Definition new_entry (secondary_name proposal_type reasoning : string)
  : SecondaryIntent :=
  {| sec_id := Some (slugify secondary_name);
     sec_name := Some secondary_name;
     sec_description :=
       Some ("(" ++ proposal_type ++ ") " ++ reasoning)%string;
     sec_added_by := Some "auto_discovery_pipeline"%string |}.

(** Steps 3 and 4 on the target primary; [None] is a [KeyError]. *)
Definition add_secondary (secondary_name proposal_type reasoning : string)
    (target_primary : PrimaryIntent) : option PrimaryIntent :=
  match secondary_intents target_primary with
  | None => None
  | Some secondaries =>
      match secondary_exists secondaries secondary_name with
      | None => None
      | Some true => Some target_primary
      | Some false =>
          Some {| primary_intent_id := primary_intent_id target_primary;
                  primary_intent_name := primary_intent_name target_primary;
                  secondary_intents :=
                    Some (secondaries
                          ++ [new_entry secondary_name proposal_type
                                reasoning]) |}
      end
  end.

(** Step 2 and the update in place: the first primary whose name equals
    [primary_name] up to case is replaced by [f] of it.  The outer [None] is
    a [KeyError]; [Some None] says that no primary has the name. *)
Fixpoint update_first (intent_map : list PrimaryIntent) (primary_name : string)
    (f : PrimaryIntent -> option PrimaryIntent)
  : option (option (list PrimaryIntent)) :=
  match intent_map with
  | [] => Some None
  | p :: rest =>
      match primary_intent_name p with
      | None => None
      | Some n =>
          if String.eqb (lower n) (lower primary_name) then
            match f p with
            | None => None
            | Some p' => Some (Some (p' :: rest))
            end
          else
            match update_first rest primary_name f with
            | None => None
            | Some None => Some None
            | Some (Some rest') => Some (Some (p :: rest'))
            end
      end
  end.

(** The body of [for change in changes]. *)
Definition apply_change (intent_map : list PrimaryIntent) (change : Change)
  : option (list PrimaryIntent) :=
  match parse_intent_name (Intent_Name change) with
  | None => Some intent_map
  | Some (primary_name, secondary_name) =>
      let add := add_secondary secondary_name (Proposal change)
                   (Reasoning change) in
      match update_first intent_map primary_name add with
      | None => None
      | Some (Some intent_map') => Some intent_map'
      | Some None =>
          let target_primary :=
            {| primary_intent_id := Some (slugify primary_name);
               primary_intent_name := Some primary_name;
               secondary_intents := Some [] |} in
          match add target_primary with
          | None => None
          | Some target_primary' => Some (intent_map ++ [target_primary'])
          end
      end
  end.

Fixpoint apply_changes (intent_map : list PrimaryIntent)
    (changes : list Change) : option (list PrimaryIntent) :=
  match changes with
  | [] => Some intent_map
  | change :: rest =>
      match apply_change intent_map change with
      | None => None
      | Some intent_map' => apply_changes intent_map' rest
      end
  end.

(** [update_map(data, changes)]; [None] is a [KeyError]. *)
Definition update_map (data : IntentData) (changes : list Change)
  : option IntentData :=
  match intent_mapper data with
  | None => None
  | Some intent_map =>
      match apply_changes intent_map changes with
      | None => None
      | Some intent_map' => Some {| intent_mapper := Some intent_map' |}
      end
  end.

(** ** Predicates on intent maps *)

(** An entry the loop of [update_map] builds. *)
Definition pipeline_entry (s : SecondaryIntent) : Prop :=
  exists secondary_name proposal_type reasoning,
    s = new_entry secondary_name proposal_type reasoning.

(** [p'] is [p] with entries of the pipeline appended to its secondaries. *)
Definition primary_extends (p p' : PrimaryIntent) : Prop :=
  primary_intent_id p' = primary_intent_id p /\
  primary_intent_name p' = primary_intent_name p /\
  match secondary_intents p with
  | None => secondary_intents p' = None
  | Some secondaries =>
      exists added,
        secondary_intents p' = Some (secondaries ++ added) /\
        Forall pipeline_entry added
  end.

(** A primary the loop creates: its id is the slug of its name and all its
    secondaries are entries of the pipeline. *)
Definition pipeline_primary (p : PrimaryIntent) : Prop :=
  exists primary_name added,
    p = {| primary_intent_id := Some (slugify primary_name);
           primary_intent_name := Some primary_name;
           secondary_intents := Some added |} /\
    Forall pipeline_entry added.

(** [m'] keeps the primaries of [m] in place, each extended, and has
    created primaries after them. *)
Definition map_extends (m m' : list PrimaryIntent) : Prop :=
  exists kept created,
    m' = kept ++ created /\
    Forall2 primary_extends m kept /\
    Forall pipeline_primary created.

(** The target primary already has a secondary of that name. *)
Definition check_secondary (secondary_name : string)
    (target_primary : PrimaryIntent) : option PrimaryIntent :=
  match secondary_intents target_primary with
  | None => None
  | Some secondaries =>
      match secondary_exists secondaries secondary_name with
      | Some true => Some target_primary
      | _ => None
      end
  end.

(** The intent is in the map: the first primary of that name has a
    secondary of that name, and the search for both meets no missing key. *)
Definition covered (m : list PrimaryIntent)
    (primary_name secondary_name : string) : Prop :=
  update_first m primary_name (check_secondary secondary_name) = Some (Some m).

(** A change whose intent is in the map, or whose name is malformed,
    leaves the map as it is. *)
Definition settled (m : list PrimaryIntent) (c : Change) : Prop :=
  match parse_intent_name (Intent_Name c) with
  | None => True
  | Some (pname, sname) => covered m pname sname
  end.

(** The name an entry is compared by, [name.lower()]. *)
Definition sec_key (s : SecondaryIntent) : string :=
  match sec_name s with
  | Some n => lower n
  | None => EmptyString
  end.

Definition primary_key (p : PrimaryIntent) : string :=
  match primary_intent_name p with
  | Some n => lower n
  | None => EmptyString
  end.

(** Every key that [update_map] reads is present. *)
Definition wf_secondary (s : SecondaryIntent) : Prop :=
  exists n, sec_name s = Some n.

Definition wf_primary (p : PrimaryIntent) : Prop :=
  (exists n, primary_intent_name p = Some n) /\
  exists ss, secondary_intents p = Some ss /\ Forall wf_secondary ss.

Definition wf_map (m : list PrimaryIntent) : Prop := Forall wf_primary m.

(** No two secondaries of [p] share a name up to case. *)
Definition unique_secondaries (p : PrimaryIntent) : Prop :=
  match secondary_intents p with
  | Some ss => NoDup (map sec_key ss)
  | None => True
  end.

(** No two primaries, and no two secondaries of one primary, share a name
    up to case. *)
Definition unique_names (m : list PrimaryIntent) : Prop :=
  NoDup (map primary_key m) /\ Forall unique_secondaries m.

(** Every character of [s] passes [f]. *)
Fixpoint str_all (f : ascii -> bool) (s : string) : bool :=
  match s with
  | EmptyString => true
  | String c r => f c && str_all f r
  end.

(** The characters a slug can hold: a-z, 0-9, the underscore, and
    whitespace other than the space. *)
Definition slug_alphabet (c : ascii) : bool :=
  is_lower c || is_digit c || Ascii.eqb c "_"
  || (is_space c && negb (Ascii.eqb c " ")).

(** ** [data_loader.py]: the flattened intent map *)

Definition get_default {A : Type} (o : option A) (d : A) : A :=
  match o with
  | Some a => a
  | None => d
  end.

(** [f"- [{p_name} > {s_name}]: {desc}\n"] *)
Definition intent_line (p_name : string) (secondary : SecondaryIntent)
  : string :=
  ("- [" ++ p_name ++ " > " ++ get_default (sec_name secondary) "Unknown"
   ++ "]: " ++ get_default (sec_description secondary) "" ++ newline)%string.

Definition flatten_primary (text_representation : string)
    (primary : PrimaryIntent) : string :=
  let p_name := get_default (primary_intent_name primary) "Unknown"%string in
  fold_left (fun text secondary => (text ++ intent_line p_name secondary)%string)
            (get_default (secondary_intents primary) [])
            text_representation.

Definition flatten_intent_map (full_json_data : IntentData) : string :=
  fold_left flatten_primary
            (get_default (intent_mapper full_json_data) [])
            ("CURRENT INTENT MAP:" ++ newline)%string.

(** ** [llm_analyst2.py] *)

Definition fence : string := "```".
Definition json_fence : string := "```json".

Definition clean_llm_response (text : string) : string :=
  let text := strip text in
  let text := if prefix json_fence text then drop 7 text else text in
  let text := if prefix fence text then drop 3 text else text in
  let text := if ends_with fence text then drop_last 3 text else text in
  strip text.

(** The last character of a string. *)
Fixpoint last_char (s : string) : option ascii :=
  match s with
  | EmptyString => None
  | String c EmptyString => Some c
  | String _ r => last_char r
  end.

(** A JSON object as text: it opens with a brace and closes with one. *)
Definition json_object (body : string) : string :=
  ("{" ++ body ++ "}")%string.

(** An analysis of [results] in [generate_reports], once the CSV stage has
    read its keys. *)
Record Analysis : Type := {
  res_cluster_id : Z;
  res_size : nat;
  res_proposal : string;
  res_intent_name : string;
  res_confidence : string;
  res_reasoning : string;
  res_samples : list string
}.

(** [priority_order.get(x['proposal'], 3)] *)
Definition priority_order_get (proposal : string) : nat :=
  if String.eqb proposal "NEW" then 0%nat
  else if String.eqb proposal "SPLIT" then 1%nat
  else if String.eqb proposal "EXISTING" then 2%nat
  else 3%nat.

Definition priority (x : Analysis) : nat := priority_order_get (res_proposal x).

Definition priority_leb (x y : Analysis) : bool := (priority x <=? priority y)%nat.

(** [results.sort(key=lambda x: priority_order.get(x['proposal'], 3))] *)
Definition sort_results (results : list Analysis) : list Analysis :=
  stable_sort priority_leb results.

Definition has_proposal (proposal : string) (x : Analysis) : bool :=
  String.eqb (res_proposal x) proposal.

Definition other_proposal (x : Analysis) : bool :=
  negb (has_proposal "NEW" x) && negb (has_proposal "SPLIT" x)
  && negb (has_proposal "EXISTING" x).

(** ** [update_indent_map.py]: the audit log *)

(** [row['Proposal'] in ['NEW', 'SPLIT']] *)
Definition new_or_split (row : Change) : bool :=
  String.eqb (Proposal row) "NEW" || String.eqb (Proposal row) "SPLIT".

(** The changes [load_data] keeps of the rows of the audit log. *)
Definition load_changes (rows : list Change) : list Change :=
  filter new_or_split rows.

(** All secondary intents of a map, primary by primary. *)
Definition all_secondaries (m : list PrimaryIntent) : list SecondaryIntent :=
  flat_map (fun p => get_default (secondary_intents p) []) m.

(** The entry is the one the loop builds for [change]. *)
Definition entry_of (change : Change) (s : SecondaryIntent) : Prop :=
  exists primary_name secondary_name,
    parse_intent_name (Intent_Name change)
      = Some (primary_name, secondary_name) /\
    s = new_entry secondary_name (Proposal change) (Reasoning change).

(** ** Inputs for the further examples *)

Definition singleton_clusters : Dict :=
  [(0%Z, [0]%nat); (1%Z, [1]%nat); (2%Z, [2]%nat)].

Definition singleton_summaries : list ClusterSummary :=
  Eval vm_compute in
    match get_representative_samples cosine_distance_fixed exact_mean
            singleton_clusters demo_embeddings demo_df 1 with
    | inl summaries => summaries
    | inr _ => []
    end.

(** An embedding for the examples: four times the parity of the text length
    and a constant. *)
Definition parity_embeddings (text_list : list string) : matrix :=
  map (fun text =>
         [Fin (inject_Z (4 * (Z.of_nat (String.length text) mod 2))); Fin 1])
      text_list.

Definition demo_messages : list RawMessage :=
  [ {| raw_history := ""; current_human_message := "where is my order" |};
    {| raw_history := "hey"; current_human_message := "refund please" |};
    {| raw_history := ""; current_human_message := "is this safe for kids" |} ].

Definition demo_output : Output :=
  Eval vm_compute in
    match main Engine.fit_predict cosine_distance_fixed exact_mean parity_embeddings
            demo_messages "CURRENT INTENT MAP:" with
    | inl (Some out) => out
    | _ => {| total_messages := 0; intent_map_reference := "";
              clusters := [] |}
    end.

Definition demo_intent_map : list PrimaryIntent :=
  [ {| primary_intent_id := Some "about_product"%string;
       primary_intent_name := Some "About Product"%string;
       secondary_intents :=
         Some [ {| sec_id := Some "pricing"%string;
                   sec_name := Some "Pricing"%string;
                   sec_description := Some "Asks for the price"%string;
                   sec_added_by := None |} ] |} ].

Definition demo_intent_data : IntentData :=
  {| intent_mapper := Some demo_intent_map |}.

Definition shipping_change : Change :=
  {| Intent_Name := "Shipping > Delays"; Proposal := "SPLIT";
     Reasoning := "Users ask why the parcel is late." |}.

Definition demo_changes : list Change :=
  [ {| Intent_Name := "about product > Product Safety"; Proposal := "NEW";
       Reasoning := "Users ask whether the product is safe." |};
    shipping_change;
    {| Intent_Name := "New Intent Name"; Proposal := "NEW";
       Reasoning := "No separator." |};
    {| Intent_Name := "About Product > pricing"; Proposal := "SPLIT";
       Reasoning := "Already there." |} ].

Definition demo_updated : IntentData :=
  Eval vm_compute in
    match update_map demo_intent_data demo_changes with
    | Some data => data
    | None => demo_intent_data
    end.

Definition dquote : string := String (ascii_of_nat 34) "".

Definition demo_body : string :=
  (dquote ++ "proposal" ++ dquote ++ ": " ++ dquote ++ "NEW" ++ dquote)%string.

(** The audit log of the example: the changes and a row that proposes
    nothing new. *)
Definition demo_rows : list Change :=
  {| Intent_Name := "Returns > Refund status"; Proposal := "EXISTING";
     Reasoning := "Covered by the map." |} :: demo_changes.

Definition delays_entry : SecondaryIntent :=
  new_entry "Delays" "SPLIT" "Users ask why the parcel is late.".

(* ================================================================== *)
(** * Part II: properties *)
(* ================================================================== *)

(** ** The error monad *)

Lemma bind_inl {A B : Type} (m : result A) (k : A -> result B) (b : B) :
  bind m k = inl b -> exists a, m = inl a /\ k a = inl b.
Proof.
  destruct m as [a | e]; simpl; intro H.
  - exists a. split; [reflexivity | exact H].
  - discriminate H.
Qed.

Ltac inv_bind H :=
  let a := fresh "a" in
  let Ha := fresh "Ha" in
  apply bind_inl in H; destruct H as (a & Ha & H).

(** ** Grouping by label *)

Lemma enumerate_fst {A : Type} (xs : list A) :
  map fst (enumerate xs) = seq 0 (length xs).
Proof.
  unfold enumerate. generalize 0%nat.
  induction xs as [| x xs IH]; intro s; simpl; [reflexivity |].
  f_equal. apply IH.
Qed.

Lemma enumerate_snd {A : Type} (xs : list A) :
  map snd (enumerate xs) = xs.
Proof.
  unfold enumerate. generalize 0%nat.
  induction xs as [| x xs IH]; intro s; simpl; [reflexivity |].
  f_equal. apply IH.
Qed.

Lemma dict_append_members (d : Dict) (l : Z) (i : nat) :
  Permutation (concat (map snd (dict_append d l i)))
              (i :: concat (map snd d)).
Proof.
  induction d as [| [k ms] d IH]; simpl.
  - reflexivity.
  - destruct (k =? l)%Z; simpl.
    + rewrite <- app_assoc. simpl.
      symmetry. apply Permutation_middle.
    + rewrite IH. symmetry. apply Permutation_middle.
Qed.

Lemma dict_append_keys (d : Dict) (l : Z) (i : nat) :
  map fst (dict_append d l i) =
  if existsb (Z.eqb l) (map fst d) then map fst d else map fst d ++ [l].
Proof.
  induction d as [| [k ms] d IH]; simpl; [reflexivity |].
  rewrite (Z.eqb_sym l k).
  destruct (k =? l)%Z; simpl; [reflexivity |].
  rewrite IH. destruct (existsb (Z.eqb l) (map fst d)); reflexivity.
Qed.

Lemma existsb_eqb_In (l : Z) (ks : list Z) :
  existsb (Z.eqb l) ks = true <-> In l ks.
Proof.
  rewrite existsb_exists. split.
  - intros (x & Hx & E). apply Z.eqb_eq in E. subst. exact Hx.
  - intro H. exists l. split; [exact H | apply Z.eqb_refl].
Qed.

Lemma dict_append_NoDup (d : Dict) (l : Z) (i : nat) :
  NoDup (map fst d) -> NoDup (map fst (dict_append d l i)).
Proof.
  intro H. rewrite dict_append_keys.
  destruct (existsb (Z.eqb l) (map fst d)) eqn:E; [exact H |].
  apply NoDup_app; [exact H | repeat constructor; intros [] |].
  intros x Hx [Hl | []]. subst x.
  apply existsb_eqb_In in Hx. congruence.
Qed.

Lemma group_fold_members (items : list (nat * Z)) (acc : Dict) :
  Permutation (concat (map snd (fold_left group_step items acc)))
              (concat (map snd acc) ++ map fst items).
Proof.
  revert acc. induction items as [| [i l] items IH]; intro acc; simpl.
  - rewrite app_nil_r. reflexivity.
  - rewrite IH. unfold group_step at 1. simpl.
    rewrite dict_append_members. simpl. apply Permutation_middle.
Qed.

Lemma group_fold_NoDup (items : list (nat * Z)) (acc : Dict) :
  NoDup (map fst acc) -> NoDup (map fst (fold_left group_step items acc)).
Proof.
  revert acc. induction items as [| [i l] items IH]; intros acc H; simpl.
  - exact H.
  - apply IH. apply dict_append_NoDup. exact H.
Qed.

Lemma group_labels_partition (cluster_labels : list Z) :
  is_partition (group_labels cluster_labels) (length cluster_labels).
Proof.
  unfold is_partition, group_labels.
  split.
  - apply group_fold_NoDup. constructor.
  - rewrite group_fold_members. simpl. rewrite enumerate_fst. reflexivity.
Qed.

Lemma group_fold_keys (items : list (nat * Z)) (acc : Dict) (k : Z) :
  In k (map fst (fold_left group_step items acc)) <->
  In k (map fst acc) \/ In k (map snd items).
Proof.
  revert acc. induction items as [| [i l] items IH]; intro acc; simpl.
  - tauto.
  - rewrite IH. unfold group_step at 1. simpl. rewrite dict_append_keys.
    destruct (existsb (Z.eqb l) (map fst acc)) eqn:E.
    + apply existsb_eqb_In in E. split; [tauto |].
      intros [H | [H | H]]; subst; tauto.
    + rewrite in_app_iff. simpl. tauto.
Qed.

Lemma group_labels_keys (cluster_labels : list Z) (k : Z) :
  In k (map fst (group_labels cluster_labels)) <-> In k cluster_labels.
Proof.
  unfold group_labels. rewrite group_fold_keys, enumerate_snd. simpl. tauto.
Qed.

(** The number of clusters is the number of distinct labels. *)
Lemma group_labels_length (cluster_labels : list Z) :
  length (group_labels cluster_labels) =
  length (nodup Z.eq_dec cluster_labels).
Proof.
  rewrite <- (length_map fst).
  apply Permutation_length, NoDup_Permutation.
  - apply group_labels_partition.
  - apply NoDup_nodup.
  - intro k. rewrite group_labels_keys, nodup_In. reflexivity.
Qed.

Lemma dict_append_nonempty (d : Dict) (l : Z) (i : nat) :
  Forall (fun c => snd c <> []) d ->
  Forall (fun c => snd c <> []) (dict_append d l i).
Proof.
  induction 1 as [| [k ms] d Hc Hd IH]; simpl.
  - constructor; [discriminate | constructor].
  - destruct (k =? l)%Z.
    + constructor; [| exact Hd].
      simpl. intro E. apply app_eq_nil in E. destruct E as (_ & E).
      discriminate E.
    + constructor; [exact Hc | exact IH].
Qed.

Lemma group_labels_nonempty (cluster_labels : list Z) :
  Forall (fun c => snd c <> []) (group_labels cluster_labels).
Proof.
  unfold group_labels.
  assert (H : forall items acc,
             Forall (fun c : Z * list nat => snd c <> []) acc ->
             Forall (fun c => snd c <> []) (fold_left group_step items acc)).
  { induction items as [| il items IH]; intros acc Hacc; simpl;
      [exact Hacc |].
    apply IH, dict_append_nonempty, Hacc. }
  apply H. constructor.
Qed.

Lemma nodup_map_length {A B : Type}
    (decA : forall x y : A, {x = y} + {x <> y})
    (decB : forall x y : B, {x = y} + {x <> y})
    (f : A -> B) (l : list A) :
  (length (nodup decB (map f l)) <= length (nodup decA l))%nat.
Proof.
  rewrite <- (length_map f (nodup decA l)).
  apply NoDup_incl_length; [apply NoDup_nodup |].
  intros y Hy. apply nodup_In, in_map_iff in Hy.
  destruct Hy as (x & <- & Hx).
  apply in_map, nodup_In, Hx.
Qed.

(** ** The engine *)

Module EngineFacts.
Import Engine.

Lemma merge_length (p : nat * nat) (labels : list nat) :
  length (merge p labels) = length labels.
Proof. apply length_map. Qed.

Lemma agglomerate_length (fuel : nat) (X : list (list Q)) (t : Q)
    (labels : list nat) :
  length (agglomerate fuel X t labels) = length labels.
Proof.
  revert labels. induction fuel as [| fuel IH]; intro labels; simpl.
  - reflexivity.
  - destruct (cheapest_pair X labels) as [p |]; [| reflexivity].
    destruct (Qle_bool (merge_cost X labels p) t); [| reflexivity].
    rewrite IH. apply merge_length.
Qed.

Lemma validate_inl (X : matrix) (Xq : list (list Q)) :
  validate X = inl Xq ->
  X <> [] /\ rectangular X = true /\ all_finite X = true /\
  Xq = map (map to_Q) X.
Proof.
  unfold validate. destruct X as [| r rs]; [discriminate |].
  destruct (rectangular (r :: rs)) eqn:Hr; cbn [negb]; [| discriminate].
  destruct (all_finite (r :: rs)) eqn:Hf; cbn [negb]; [| discriminate].
  intro H. injection H as <-.
  split; [discriminate | repeat split].
Qed.

Lemma validate_ok (X : matrix) :
  X <> [] -> rectangular X = true -> all_finite X = true ->
  validate X = inl (map (map to_Q) X).
Proof.
  intros Hne Hr Hf. unfold validate.
  destruct X as [| r rs]; [congruence |].
  rewrite Hr, Hf. reflexivity.
Qed.

Lemma fit_predict_inl (X : matrix) (t : Q) (labels : list Z) :
  fit_predict X t = inl labels ->
  exists Xq, validate X = inl Xq /\
             labels = map Z.of_nat (cluster_labels Xq t).
Proof.
  unfold fit_predict. intro H. inv_bind H.
  exists a. split; [exact Ha |]. injection H as <-. reflexivity.
Qed.

(** One label per row. *)
Lemma fit_predict_length (X : matrix) (t : Q) (labels : list Z) :
  fit_predict X t = inl labels -> length labels = length X.
Proof.
  intro H. apply fit_predict_inl in H. destruct H as (Xq & Hv & ->).
  apply validate_inl in Hv. destruct Hv as (_ & _ & _ & ->).
  unfold cluster_labels, singletons.
  rewrite length_map, agglomerate_length, length_seq, length_map.
  reflexivity.
Qed.

Lemma fit_predict_nonneg (X : matrix) (t : Q) (labels : list Z) :
  fit_predict X t = inl labels -> Forall (fun l => (0 <= l)%Z) labels.
Proof.
  intro H. apply fit_predict_inl in H. destruct H as (Xq & _ & ->).
  apply Forall_forall. intros l Hl. apply in_map_iff in Hl.
  destruct Hl as (n & <- & _). lia.
Qed.

(** Every run only renames labels. *)
Lemma agglomerate_renames (fuel : nat) (X : list (list Q)) (t : Q)
    (labels : list nat) :
  exists g, agglomerate fuel X t labels = map g labels.
Proof.
  revert labels. induction fuel as [| fuel IH]; intro labels; simpl.
  - exists (fun l => l). symmetry. apply map_id.
  - destruct (cheapest_pair X labels) as [p |].
    + destruct (Qle_bool (merge_cost X labels p) t).
      * destruct (IH (merge p labels)) as (g & Hg).
        exists (fun l => g (if (l =? snd p)%nat then fst p else l)).
        rewrite Hg. unfold merge. apply map_map.
      * exists (fun l => l). symmetry. apply map_id.
    + exists (fun l => l). symmetry. apply map_id.
Qed.

(** A larger threshold continues the run of a smaller one. *)
Lemma agglomerate_threshold (fuel : nat) (X : list (list Q)) (t1 t2 : Q)
    (labels : list nat) :
  t1 <= t2 ->
  exists g, agglomerate fuel X t2 labels =
            map g (agglomerate fuel X t1 labels).
Proof.
  intro Ht. revert labels.
  induction fuel as [| fuel IH]; intro labels; simpl.
  - exists (fun l => l). symmetry. apply map_id.
  - destruct (cheapest_pair X labels) as [p |].
    + destruct (Qle_bool (merge_cost X labels p) t1) eqn:E1.
      * assert (E2 : Qle_bool (merge_cost X labels p) t2 = true).
        { apply Qle_bool_iff. apply Qle_bool_iff in E1.
          eapply Qle_trans; eassumption. }
        rewrite E2. apply IH.
      * destruct (Qle_bool (merge_cost X labels p) t2).
        -- destruct (agglomerate_renames fuel X t2 (merge p labels))
             as (g & Hg).
           exists (fun l => g (if (l =? snd p)%nat then fst p else l)).
           rewrite Hg. unfold merge. apply map_map.
        -- exists (fun l => l). symmetry. apply map_id.
    + exists (fun l => l). symmetry. apply map_id.
Qed.

End EngineFacts.

Lemma rectangular_rows (X : matrix) :
  Engine.rectangular X = true ->
  forall u v, In u X -> In v X -> length u = length v.
Proof.
  destruct X as [| r rs]; [intros _ u v [] |].
  unfold Engine.rectangular. rewrite forallb_forall. intro H.
  assert (Hr : forall u, In u (r :: rs) -> length u = length r).
  { intros u [<- | Hu]; [reflexivity |].
    apply Nat.eqb_eq, H, Hu. }
  intros u v Hu Hv. rewrite (Hr u Hu), (Hr v Hv). reflexivity.
Qed.

Lemma all_finite_entries (X : matrix) :
  Engine.all_finite X = true ->
  forall v x, In v X -> In x v -> is_finite x = true.
Proof.
  unfold Engine.all_finite. rewrite forallb_forall.
  intros H v x Hv Hx. specialize (H v Hv).
  rewrite forallb_forall in H. apply H, Hx.
Qed.

Lemma validate_rejects (X : matrix) :
  X = [] \/ is_ragged X \/ has_non_finite X ->
  Engine.validate X = inr ValidationError.
Proof.
  intro H. destruct (Engine.validate X) as [Xq | e] eqn:E.
  - exfalso. apply EngineFacts.validate_inl in E.
    destruct E as (Hne & Hr & Hf & _).
    destruct H as [H | [(u & v & Hu & Hv & Hl) | (v & x & Hv & Hx & Hn)]].
    + contradiction.
    + apply Hl. eapply rectangular_rows; eassumption.
    + rewrite (all_finite_entries X Hf v x Hv Hx) in Hn. discriminate.
  - f_equal. unfold Engine.validate in E.
    destruct X as [| r rs]; [injection E as <-; reflexivity |].
    destruct (negb (Engine.rectangular (r :: rs)));
      [injection E as <-; reflexivity |].
    destruct (negb (Engine.all_finite (r :: rs)));
      [injection E as <-; reflexivity | discriminate].
Qed.

Lemma NoDup_app_disjoint {A : Type} (l1 l2 : list A) (a : A) :
  NoDup (l1 ++ l2) -> In a l1 -> In a l2 -> False.
Proof.
  induction l1 as [| x l1 IH]; simpl; intros H H1 H2; [exact H1 |].
  inversion H as [| y l Hnotin Hrest]; subst.
  destruct H1 as [-> | H1].
  - apply Hnotin, in_or_app. right. exact H2.
  - apply IH; assumption.
Qed.

(** In a partition an index below [n] is a member of one cluster only,
    and occurs once in its member list. *)
Lemma partition_one_cluster (d : Dict) (n i : nat) :
  is_partition d n -> (i < n)%nat ->
  exists c,
    In c d /\ In i (snd c) /\ NoDup (snd c) /\
    forall c', In c' d -> In i (snd c') -> c' = c.
Proof.
  intros (_ & Hp) Hi.
  assert (Hnd : NoDup (concat (map snd d))).
  { apply (Permutation_NoDup (Permutation_sym Hp)), seq_NoDup. }
  assert (Hin : In i (concat (map snd d))).
  { apply (Permutation_in _ (Permutation_sym Hp)), in_seq. lia. }
  clear Hp Hi. induction d as [| x d IH]; simpl in *; [destruct Hin |].
  apply in_app_or in Hin. destruct Hin as [Hx | Hrest].
  - exists x. split; [left; reflexivity |]. split; [exact Hx |].
    split; [apply (NoDup_app_remove_r _ _ Hnd) |].
    intros c' [<- | Hc'] Hi'; [reflexivity |].
    exfalso. apply (NoDup_app_disjoint _ _ i Hnd Hx).
    apply in_concat. exists (snd c'). split; [apply in_map, Hc' | exact Hi'].
  - destruct (IH (NoDup_app_remove_l _ _ Hnd) Hrest)
      as (c & Hc & Hic & Hndc & Huniq).
    exists c. split; [right; exact Hc |]. split; [exact Hic |].
    split; [exact Hndc |].
    intros c' [<- | Hc'] Hi'; [| apply Huniq; assumption].
    exfalso. apply (NoDup_app_disjoint _ _ i Hnd Hi' Hrest).
Qed.

Section PartitionLaw.
Variable fit_predict : matrix -> Q -> result (list Z).

(** The library returns one label per row of the matrix it accepts. *)
Hypothesis fit_predict_rows : forall X t labels,
  fit_predict X t = inl labels -> length labels = length X.

(** C1: whenever [perform_clustering] accepts an n-row matrix, the mapping
    it returns is a partition of the indices 0 .. n-1: no cluster id is
    repeated and the member lists, taken together, hold every index below n
    exactly once; so every such index is a member of exactly one cluster and
    occurs once in its list. *)
Theorem perform_clustering_partition (embeddings : matrix)
    (distance_threshold : Q) (clusters : Dict) :
  perform_clustering fit_predict embeddings distance_threshold = inl clusters ->
  is_partition clusters (length embeddings) /\
  forall i, (i < length embeddings)%nat ->
    exists c,
      In c clusters /\ In i (snd c) /\ NoDup (snd c) /\
      forall c', In c' clusters -> In i (snd c') -> c' = c.
Proof.
  unfold perform_clustering. intro H. inv_bind H.
  injection H as <-.
  rewrite <- (fit_predict_rows _ _ _ Ha).
  split; [apply group_labels_partition |].
  intros i Hi. apply (partition_one_cluster _ _ i (group_labels_partition a) Hi).
Qed.

End PartitionLaw.

Lemma perform_clustering_partition_witness :
  perform_clustering Engine.fit_predict three_rows 1
    = inl [(0%Z, [0; 1]%nat); (2%Z, [2]%nat)] /\
  is_partition [(0%Z, [0; 1]%nat); (2%Z, [2]%nat)] 3 /\
  forall i, (i < 3)%nat ->
    exists c,
      In c [(0%Z, [0; 1]%nat); (2%Z, [2]%nat)] /\ In i (snd c) /\
      NoDup (snd c) /\
      forall c', In c' [(0%Z, [0; 1]%nat); (2%Z, [2]%nat)] ->
                 In i (snd c') -> c' = c.
Proof.
  split.
  - vm_compute. reflexivity.
  - apply (perform_clustering_partition Engine.fit_predict
             EngineFacts.fit_predict_length three_rows 1).
    vm_compute. reflexivity.
Defined.

(** C5: a matrix that is empty, ragged, or holds a NaN or an infinite
    value is refused by the engine's validation with [ValidationError], and
    [perform_clustering] fails with that error; no labels are computed. *)
Theorem invalid_matrix_rejected (X : matrix) (t : Q) :
  X = [] \/ is_ragged X \/ has_non_finite X ->
  Engine.validate X = inr ValidationError /\
  perform_clustering Engine.fit_predict X t = inr ValidationError.
Proof.
  intro H. apply validate_rejects in H. split; [exact H |].
  unfold perform_clustering, Engine.fit_predict. rewrite H. reflexivity.
Qed.

Lemma invalid_matrix_rejected_witness :
  perform_clustering Engine.fit_predict [[Fin 1; Fin 0]; [Fin 1]] 1
    = inr ValidationError /\
  perform_clustering Engine.fit_predict [[Fin 1; NaN]] 1
    = inr ValidationError /\
  perform_clustering Engine.fit_predict [] 1 = inr ValidationError.
Proof.
  split; [| split].
  - apply (@invalid_matrix_rejected [[Fin 1; Fin 0]; [Fin 1]] 1).
    right. left. exists [Fin 1; Fin 0], [Fin 1].
    simpl. split; [left; reflexivity |].
    split; [right; left; reflexivity | lia].
  - apply (@invalid_matrix_rejected [[Fin 1; NaN]] 1).
    right. right. exists [Fin 1; NaN], NaN.
    simpl. split; [left; reflexivity |].
    split; [right; left; reflexivity | reflexivity].
  - apply (@invalid_matrix_rejected [] 1). left. reflexivity.
Defined.

(** C7: a matrix of exactly one (finite) vector is clustered into exactly
    one cluster, whose only member is index 0. *)
Theorem single_vector_one_cluster (v : vector) (t : Q) :
  forallb is_finite v = true ->
  perform_clustering Engine.fit_predict [v] t = inl [(0%Z, [0%nat])].
Proof.
  intro Hv.
  unfold perform_clustering, Engine.fit_predict.
  rewrite (EngineFacts.validate_ok [v]).
  - reflexivity.
  - discriminate.
  - reflexivity.
  - unfold Engine.all_finite. simpl. rewrite Hv. reflexivity.
Qed.

Lemma single_vector_one_cluster_witness :
  perform_clustering Engine.fit_predict [[Fin (3 # 5); Fin (4 # 5)]] (15 # 10)
    = inl [(0%Z, [0%nat])].
Proof.
  apply (@single_vector_one_cluster [Fin (3 # 5); Fin (4 # 5)] (15 # 10)).
  reflexivity.
Defined.

(** C8: for a fixed matrix the engine accepts and thresholds t1 < t2, both
    runs return, and the run at t1 yields at least as many clusters as the
    run at t2. *)
Theorem threshold_monotone (X : matrix) (Xq : list (list Q)) (t1 t2 : Q) :
  Engine.validate X = inl Xq ->
  t1 < t2 ->
  exists c1 c2,
    perform_clustering Engine.fit_predict X t1 = inl c1 /\
    perform_clustering Engine.fit_predict X t2 = inl c2 /\
    (length c2 <= length c1)%nat.
Proof.
  intros Hv Ht.
  unfold perform_clustering, Engine.fit_predict. rewrite Hv. simpl.
  do 2 eexists. split; [reflexivity |]. split; [reflexivity |].
  rewrite !group_labels_length.
  unfold Engine.cluster_labels.
  destruct (EngineFacts.agglomerate_threshold (length Xq) Xq
              t1 t2 (Engine.singletons (length Xq)) (Qlt_le_weak _ _ Ht))
    as (g & ->).
  set (l1 := Engine.agglomerate (length Xq) Xq t1
               (Engine.singletons (length Xq))).
  replace (map Z.of_nat (map g l1))
    with (map (fun z => Z.of_nat (g (Z.to_nat z))) (map Z.of_nat l1)).
  - apply nodup_map_length.
  - rewrite !map_map. apply map_ext. intro n. rewrite Nat2Z.id. reflexivity.
Qed.

Lemma threshold_monotone_witness :
  exists c1 c2,
    perform_clustering Engine.fit_predict three_rows 1 = inl c1 /\
    perform_clustering Engine.fit_predict three_rows 2 = inl c2 /\
    (length c2 <= length c1)%nat.
Proof.
  apply (@threshold_monotone three_rows
           (map (map Engine.to_Q) three_rows) 1 2).
  - vm_compute. reflexivity.
  - reflexivity.
Defined.

(** ** Runs of the engine *)

Module RunFacts.
Import Engine.

Lemma seq_sorted (a n : nat) : StronglySorted lt (seq a n).
Proof.
  revert a. induction n as [| n IH]; intro a; simpl; constructor.
  - apply IH.
  - apply Forall_forall. intros x Hx. apply in_seq in Hx. lia.
Qed.

Lemma filter_sorted {A : Type} (R : A -> A -> Prop) (f : A -> bool)
    (l : list A) :
  StronglySorted R l -> StronglySorted R (filter f l).
Proof.
  induction 1 as [| x l Hs IH Hx]; simpl; [constructor |].
  destruct (f x); [| exact IH].
  constructor; [exact IH |].
  apply Forall_forall. intros y Hy. apply filter_In in Hy.
  rewrite Forall_forall in Hx. apply Hx, Hy.
Qed.

Lemma sorted_app {A : Type} (R : A -> A -> Prop) (l1 l2 : list A) :
  StronglySorted R l1 -> StronglySorted R l2 ->
  (forall x y, In x l1 -> In y l2 -> R x y) ->
  StronglySorted R (l1 ++ l2).
Proof.
  induction 1 as [| x l Hs IH Hx]; intros H2 H12; simpl; [exact H2 |].
  constructor.
  - apply IH; [exact H2 |]. intros a b Ha Hb. apply H12; [right |]; assumption.
  - apply Forall_app. split; [exact Hx |].
    apply Forall_forall. intros y Hy. apply H12; [left; reflexivity | exact Hy].
Qed.

Lemma reps_sorted (labels : list nat) : StronglySorted lt (reps labels).
Proof. apply filter_sorted, seq_sorted. Qed.

Lemma reps_In (labels : list nat) (i : nat) :
  In i (reps labels) <->
  (i < length labels)%nat /\ nth i labels (S i) = i.
Proof.
  unfold reps. rewrite filter_In, in_seq, Nat.eqb_eq.
  split; intros [H1 H2]; split; auto; lia.
Qed.

Lemma pairs_of_In (gs : list nat) (p : nat * nat) :
  StronglySorted lt gs ->
  In p (pairs_of gs) -> In (fst p) gs /\ In (snd p) gs /\ (fst p < snd p)%nat.
Proof.
  induction 1 as [| a gs Hs IH Ha]; simpl; [intros [] |].
  rewrite in_app_iff, in_map_iff. intros [(b & <- & Hb) | H].
  - simpl. rewrite Forall_forall in Ha. auto.
  - destruct (IH H) as (H1 & H2 & H3). auto.
Qed.

Lemma pairs_of_sorted (gs : list nat) :
  StronglySorted lt gs -> StronglySorted pair_lt (pairs_of gs).
Proof.
  induction 1 as [| a gs Hs IH Ha]; simpl; [constructor |].
  apply sorted_app.
  - clear IH Ha. induction Hs as [| b gs Hs IH Hb]; simpl; constructor.
    + exact IH.
    + apply Forall_forall. intros q Hq. apply in_map_iff in Hq.
      destruct Hq as (c & <- & Hc). right. simpl.
      rewrite Forall_forall in Hb. auto.
  - exact IH.
  - intros x y Hx Hy. apply in_map_iff in Hx. destruct Hx as (b & <- & Hb).
    apply pairs_of_In in Hy; [| exact Hs]. destruct Hy as (Hy & _ & _).
    left. simpl. rewrite Forall_forall in Ha. auto.
Qed.

Lemma pairs_of_two (gs : list nat) (p : nat * nat) :
  In p (pairs_of gs) -> (2 <= length gs)%nat.
Proof.
  destruct gs as [| a [| b gs]]; simpl; try tauto. lia.
Qed.

Lemma candidates_sorted (labels : list nat) :
  StronglySorted pair_lt (candidates labels).
Proof. apply pairs_of_sorted, reps_sorted. Qed.

Lemma first_min_None (cost : nat * nat -> Q) (ps : list (nat * nat)) :
  first_min cost ps = None -> ps = [].
Proof.
  destruct ps as [| p rest]; simpl; [reflexivity |].
  destruct (first_min cost rest) as [q |]; [| discriminate].
  destruct (Qle_bool (cost p) (cost q)); discriminate.
Qed.

(** [first_min] returns a pair of least cost and, among those, the lowest
    one of a list in lexicographic order. *)
Lemma first_min_spec (cost : nat * nat -> Q) (ps : list (nat * nat))
    (p : nat * nat) :
  StronglySorted pair_lt ps ->
  first_min cost ps = Some p ->
  In p ps /\
  forall q, In q ps -> q <> p ->
    cost p < cost q \/ (cost p == cost q /\ pair_lt p q).
Proof.
  intro Hs. revert p.
  induction Hs as [| p0 rest Hs IH H0]; intro p; simpl; [discriminate |].
  rewrite Forall_forall in H0.
  destruct (first_min cost rest) as [q0 |] eqn:E.
  - destruct (IH q0 eq_refl) as (Hq0 & Hmin).
    destruct (Qle_bool (cost p0) (cost q0)) eqn:Hle; intro Hp;
      injection Hp as <-.
    + apply Qle_bool_iff in Hle.
      split; [left; reflexivity |].
      intros q [<- | Hq] Hne; [congruence |].
      assert (Hc : cost p0 <= cost q).
      { destruct (list_eq_dec Nat.eq_dec [fst q; snd q] [fst q0; snd q0])
          as [Heq | Hneq].
        - injection Heq as E1 E2. destruct q, q0. simpl in *. subst.
          exact Hle.
        - assert (q <> q0) by (intros ->; apply Hneq; reflexivity).
          destruct (Hmin q Hq H) as [Hlt | [Heq _]].
          + apply Qlt_le_weak. eapply Qle_lt_trans; eassumption.
          + rewrite <- Heq. exact Hle. }
      apply Qle_lteq in Hc. destruct Hc as [Hc | Hc]; [left; exact Hc |].
      right. split; [exact Hc | apply H0, Hq].
    + assert (Hlt : cost q0 < cost p0).
      { apply Qnot_le_lt. intro Hc. apply Qle_bool_iff in Hc. congruence. }
      split; [right; exact Hq0 |].
      intros q [<- | Hq] Hne; [left; exact Hlt |].
      apply Hmin; assumption.
  - intro Hp. injection Hp as <-.
    apply first_min_None in E. subst rest.
    split; [left; reflexivity |].
    intros q [<- | []] Hne. congruence.
Qed.

Lemma cheapest_pair_spec (X : list (list Q)) (labels : list nat)
    (p : nat * nat) :
  cheapest_pair X labels = Some p -> cheapest X labels p.
Proof.
  intro H. apply first_min_spec in H; [exact H | apply candidates_sorted].
Qed.

Lemma pair_lt_asym (p q : nat * nat) : pair_lt p q -> pair_lt q p -> False.
Proof. unfold pair_lt. lia. Qed.

Lemma pair_eq_dec (p q : nat * nat) : {p = q} + {p <> q}.
Proof. decide equality; apply Nat.eq_dec. Qed.

(** The tie-breaking rule leaves one choice. *)
Lemma cheapest_unique (X : list (list Q)) (labels : list nat)
    (p q : nat * nat) :
  cheapest X labels p -> cheapest X labels q -> p = q.
Proof.
  intros (Hp & Hpmin) (Hq & Hqmin).
  destruct (pair_eq_dec p q) as [E | Hne]; [exact E | exfalso].
  assert (Hne' : q <> p) by congruence.
  destruct (Hpmin q Hq Hne') as [H1 | [H1 L1]];
    destruct (Hqmin p Hp Hne) as [H2 | [H2 L2]].
  - apply (Qlt_irrefl (merge_cost X labels p)).
    eapply Qlt_trans; eassumption.
  - rewrite H2 in H1. apply (Qlt_irrefl _ H1).
  - rewrite H1 in H2. apply (Qlt_irrefl _ H2).
  - apply (pair_lt_asym _ _ L1 L2).
Qed.

End RunFacts.

Module Termination.
Import Engine EngineFacts RunFacts.

Lemma nth_merge (p : nat * nat) (labels : list nat) (i d : nat) :
  (i < length labels)%nat ->
  nth i (merge p labels) d =
  if (nth i labels d =? snd p)%nat then fst p else nth i labels d.
Proof.
  intro Hi. unfold merge.
  rewrite (nth_indep _ d
             ((fun l => if (l =? snd p)%nat then fst p else l) d)).
  - apply (map_nth (fun l => if (l =? snd p)%nat then fst p else l)).
  - rewrite length_map. exact Hi.
Qed.

Lemma reps_NoDup (labels : list nat) : NoDup (reps labels).
Proof. apply NoDup_filter, seq_NoDup. Qed.

(** A merge removes the name of the second group and adds none. *)
Lemma reps_merge (p : nat * nat) (labels : list nat) :
  In p (candidates labels) ->
  (length (reps (merge p labels)) < length (reps labels))%nat.
Proof.
  intro Hp. apply pairs_of_In in Hp; [| apply reps_sorted].
  destruct Hp as (Ha & Hb & Hab).
  assert (Hlen : (length (snd p :: reps (merge p labels))
                  <= length (reps labels))%nat).
  { apply NoDup_incl_length.
    - constructor; [| apply reps_NoDup].
      intro Hin. apply reps_In in Hin. destruct Hin as (Hi & Hn).
      rewrite merge_length in Hi. rewrite nth_merge in Hn by exact Hi.
      apply reps_In in Hb. destruct Hb as (_ & Hb).
      rewrite Hb, Nat.eqb_refl in Hn. lia.
    - intros i [<- | Hin]; [exact Hb |].
      apply reps_In in Hin. destruct Hin as (Hi & Hn).
      rewrite merge_length in Hi. rewrite nth_merge in Hn by exact Hi.
      destruct (nth i labels (S i) =? snd p)%nat.
      + rewrite <- Hn. exact Ha.
      + apply reps_In. split; assumption. }
  simpl in Hlen. lia.
Qed.

Lemma no_candidates_stop (X : list (list Q)) (t : Q) (labels : list nat) :
  candidates labels = [] -> ward_run X t labels labels.
Proof.
  intro H. apply run_stop. intros p (Hp & _). rewrite H in Hp. destruct Hp.
Qed.

(** With as much fuel as there are groups, [agglomerate] performs a full
    run: it ends because no merge is left or the cheapest one costs more
    than the threshold, never because the fuel is used up. *)
Lemma agglomerate_run (X : list (list Q)) (t : Q) (fuel : nat) :
  forall labels,
    (length (reps labels) <= S fuel)%nat ->
    ward_run X t labels (agglomerate fuel X t labels).
Proof.
  induction fuel as [| fuel IH]; intros labels Hlen; simpl.
  - apply run_stop. intros p (Hp & _).
    apply pairs_of_two in Hp. lia.
  - destruct (cheapest_pair X labels) as [p |] eqn:E.
    + pose proof (cheapest_pair_spec _ _ _ E) as Hc.
      destruct (Qle_bool (merge_cost X labels p) t) eqn:Hle.
      * apply run_merge with (p := p).
        -- exact Hc.
        -- apply Qle_bool_iff, Hle.
        -- apply IH. pose proof (reps_merge _ _ (proj1 Hc)). lia.
      * apply run_stop. intros q Hq.
        rewrite (cheapest_unique _ _ _ _ Hq Hc).
        apply Qnot_le_lt. intro H. apply Qle_bool_iff in H. congruence.
    + apply no_candidates_stop. apply first_min_None in E. exact E.
Qed.

Lemma reps_singletons (n : nat) : length (reps (singletons n)) = n.
Proof.
  unfold reps, singletons. rewrite length_seq.
  rewrite forallb_filter_id.
  - apply length_seq.
  - apply forallb_forall. intros i Hi. apply in_seq in Hi.
    apply Nat.eqb_eq. rewrite seq_nth by lia. reflexivity.
Qed.

(** Two runs from the same state end in the same state. *)
Lemma ward_run_deterministic (X : list (list Q)) (t : Q)
    (labels final1 final2 : list nat) :
  ward_run X t labels final1 -> ward_run X t labels final2 ->
  final1 = final2.
Proof.
  intro H1. revert final2.
  induction H1 as [labels Hstop | labels p final Hp Hle Hrun IH];
    intros final2 H2.
  - destruct H2 as [labels _ | labels q final2 Hq Hle' _]; [reflexivity |].
    exfalso. apply (Qlt_irrefl t).
    eapply Qlt_le_trans; [apply (Hstop q Hq) | exact Hle'].
  - destruct H2 as [labels Hstop | labels q final2 Hq Hle' Hrun2].
    + exfalso. apply (Qlt_irrefl t).
      eapply Qlt_le_trans; [apply (Hstop p Hp) | exact Hle].
    + apply IH. rewrite (cheapest_unique _ _ _ _ Hp Hq). exact Hrun2.
Qed.

Lemma same_grouping_refl (d : Dict) : same_grouping d d.
Proof. intros i j. reflexivity. Qed.

End Termination.

(** C9: the engine's run on an accepted matrix is a run of the merge
    procedure in which every merge is a cheapest one and, among equally
    cheap ones, the pair of lowest original indices; every run of that
    procedure on the same matrix and threshold ends in the partition that
    [perform_clustering] returns. *)
Theorem deterministic_replay (X : matrix) (Xq : list (list Q)) (t : Q) :
  Engine.validate X = inl Xq ->
  exists clusters,
    perform_clustering Engine.fit_predict X t = inl clusters /\
    (exists final,
       Engine.ward_run Xq t (Engine.singletons (length Xq)) final /\
       clusters = group_labels (map Z.of_nat final)) /\
    (forall final,
       Engine.ward_run Xq t (Engine.singletons (length Xq)) final ->
       Engine.same_grouping clusters (group_labels (map Z.of_nat final))) /\
    (forall labels p,
       Engine.cheapest_pair Xq labels = Some p ->
       Engine.cheapest Xq labels p).
Proof.
  intro Hv.
  assert (Hrun : Engine.ward_run Xq t (Engine.singletons (length Xq))
                   (Engine.cluster_labels Xq t)).
  { apply Termination.agglomerate_run.
    rewrite Termination.reps_singletons. lia. }
  exists (group_labels (map Z.of_nat (Engine.cluster_labels Xq t))).
  split; [| split; [| split]].
  - unfold perform_clustering, Engine.fit_predict. rewrite Hv. reflexivity.
  - exists (Engine.cluster_labels Xq t). split; [exact Hrun | reflexivity].
  - intros final Hfinal.
    rewrite (Termination.ward_run_deterministic _ _ _ _ _ Hfinal Hrun).
    apply Termination.same_grouping_refl.
  - intros labels p. apply RunFacts.cheapest_pair_spec.
Qed.

Lemma deterministic_replay_witness :
  exists clusters,
    perform_clustering Engine.fit_predict three_rows 1 = inl clusters /\
    (exists final,
       Engine.ward_run (map (map Engine.to_Q) three_rows) 1
         (Engine.singletons 3) final /\
       clusters = group_labels (map Z.of_nat final)) /\
    (forall final,
       Engine.ward_run (map (map Engine.to_Q) three_rows) 1
         (Engine.singletons 3) final ->
       Engine.same_grouping clusters (group_labels (map Z.of_nat final))) /\
    (forall labels p,
       Engine.cheapest_pair (map (map Engine.to_Q) three_rows) labels
         = Some p ->
       Engine.cheapest (map (map Engine.to_Q) three_rows) labels p).
Proof.
  apply (@deterministic_replay three_rows
           (map (map Engine.to_Q) three_rows) 1).
  vm_compute. reflexivity.
Defined.

(** ** Row selection *)

Lemma take_rows_inl {A : Type} (xs : list A) (indices : list nat)
    (ys : list A) :
  take_rows xs indices = inl ys ->
  Forall2 (fun i y => nth_error xs i = Some y) indices ys.
Proof.
  revert ys. induction indices as [| i rest IH]; intros ys H; simpl in H.
  - injection H as <-. constructor.
  - destruct (nth_error xs i) as [x |] eqn:E; [| discriminate].
    inv_bind H. injection H as <-.
    constructor; [exact E | apply IH, Ha].
Qed.

Lemma take_rows_ok {A : Type} (xs : list A) (indices : list nat) :
  Forall (fun i => (i < length xs)%nat) indices ->
  exists ys, take_rows xs indices = inl ys.
Proof.
  induction 1 as [| i rest Hi _ (ys & IH)]; simpl.
  - exists []. reflexivity.
  - destruct (nth_error xs i) as [x |] eqn:E.
    + exists (x :: ys). rewrite IH. reflexivity.
    + apply nth_error_None in E. lia.
Qed.

Lemma take_rows_in_range {A : Type} (xs : list A) (indices : list nat)
    (ys : list A) :
  take_rows xs indices = inl ys ->
  Forall (fun i => (i < length xs)%nat) indices.
Proof.
  intro H. apply take_rows_inl in H.
  induction H as [| i y idxs ys Hi _ IH]; constructor; [| exact IH].
  apply nth_error_Some. congruence.
Qed.

Lemma take_rows_length {A : Type} (xs : list A) (indices : list nat)
    (ys : list A) :
  take_rows xs indices = inl ys -> length ys = length indices.
Proof.
  intro H. apply take_rows_inl in H. symmetry.
  eapply Forall2_length, H.
Qed.

Lemma take_rows_injected (df : DataFrame) (indices : list nat)
    (rows : list Row) :
  take_rows df indices = inl rows ->
  injected_sum rows = injected_in df indices.
Proof.
  intro H. apply take_rows_inl in H.
  unfold injected_sum, injected_in.
  induction H as [| i r idxs rs Hi _ IH]; simpl; [reflexivity |].
  rewrite Hi. destruct (injected_flag r); simpl; rewrite IH; reflexivity.
Qed.

(** ** Counting injected rows over a partition *)

Lemma filter_length_perm {A : Type} (f : A -> bool) (l l' : list A) :
  Permutation l l' -> length (filter f l) = length (filter f l').
Proof.
  induction 1; simpl.
  - reflexivity.
  - destruct (f x); simpl; congruence.
  - destruct (f x), (f y); reflexivity.
  - congruence.
Qed.

Lemma injected_in_all (df : DataFrame) :
  injected_in df (seq 0 (length df)) = injected_sum df.
Proof.
  unfold injected_in, injected_sum.
  induction df as [| r df IH]; simpl; [reflexivity |].
  rewrite <- seq_shift.
  assert (E : forall idxs,
    filter (fun i => match nth_error (r :: df) i with
                     | Some r0 => injected_flag r0
                     | None => false
                     end) (map S idxs)
    = map S (filter (fun i => match nth_error df i with
                              | Some r0 => injected_flag r0
                              | None => false
                              end) idxs)).
  { induction idxs as [| i idxs IHis]; simpl; [reflexivity |].
    rewrite IHis. destruct (nth_error df i) as [r0 |]; [| reflexivity].
    destruct (injected_flag r0); reflexivity. }
  rewrite E.
  destruct (injected_flag r); simpl; rewrite length_map, IH; reflexivity.
Qed.

Lemma injected_in_app (df : DataFrame) (l1 l2 : list nat) :
  injected_in df (l1 ++ l2) = (injected_in df l1 + injected_in df l2)%nat.
Proof.
  unfold injected_in. rewrite filter_app, length_app. reflexivity.
Qed.

Lemma injected_total_concat (df : DataFrame) (clusters : Dict) :
  injected_total df clusters = injected_in df (concat (map snd clusters)).
Proof.
  unfold injected_total.
  induction clusters as [| c cs IH]; simpl; [reflexivity |].
  rewrite injected_in_app, IH. reflexivity.
Qed.

(** Over a partition of the rows, the per-cluster counts add up to the
    number of injected rows. *)
Lemma injected_total_partition (df : DataFrame) (clusters : Dict) :
  is_partition clusters (length df) ->
  injected_total df clusters = injected_sum df.
Proof.
  intros (_ & Hp).
  rewrite injected_total_concat, <- injected_in_all.
  apply filter_length_perm, Hp.
Qed.

Lemma injected_total_app (df : DataFrame) (d1 d2 : Dict) :
  injected_total df (d1 ++ d2) =
  (injected_total df d1 + injected_total df d2)%nat.
Proof.
  unfold injected_total. rewrite map_app, list_sum_app. reflexivity.
Qed.

Lemma injected_total_In (df : DataFrame) (clusters : Dict)
    (c : Z * list nat) :
  In c clusters -> (injected_in df (snd c) <= injected_total df clusters)%nat.
Proof.
  intro H. apply in_split in H. destruct H as (pre & post & ->).
  rewrite injected_total_app. unfold injected_total at 2. simpl. lia.
Qed.

(** ** The scan of [run_injection_test] *)

Lemma count_ratio_le_half (a K : nat) :
  (0 < K)%nat -> (count_ratio a K <= 1 # 2 <-> (2 * a <= K)%nat).
Proof.
  intro HK. unfold count_ratio.
  destruct K as [| k]; [lia |].
  unfold Qdiv, Qle, Qmult, Qinv, inject_Z.
  cbn [Qnum Qden Z.of_nat].
  rewrite Pos.mul_1_l, Zpos_P_of_succ_nat. lia.
Qed.

Lemma above_half_lt (r : Q) : above_half r = true <-> 1 # 2 < r.
Proof.
  unfold above_half. rewrite negb_true_iff. split.
  - intro H. apply Qnot_le_lt. intro Hle.
    apply Qle_bool_iff in Hle. congruence.
  - intro H. destruct (Qle_bool r (1 # 2)) eqn:E; [| reflexivity].
    apply Qle_bool_iff in E. exfalso. apply (Qlt_not_le _ _ H E).
Qed.

Lemma above_half_le (r : Q) : above_half r = false <-> r <= 1 # 2.
Proof.
  unfold above_half. rewrite negb_false_iff. apply Qle_bool_iff.
Qed.

Lemma qualifies_count (K : nat) (df : DataFrame) (c : Z * list nat) :
  (0 < K)%nat ->
  (qualifies K df c = true <-> (K < 2 * injected_in df (snd c))%nat).
Proof.
  intro HK. unfold qualifies, cluster_recall, recall_of.
  destruct (above_half (count_ratio (injected_in df (snd c)) K)) eqn:E.
  - split; [intros _ | reflexivity].
    apply above_half_lt in E.
    destruct (Nat.le_gt_cases (2 * injected_in df (snd c)) K) as [H | H];
      [| exact H].
    apply (count_ratio_le_half _ _ HK) in H.
    exfalso. apply (Qlt_not_le _ _ E H).
  - split; [discriminate |]. intro H.
    apply above_half_le, (count_ratio_le_half _ _ HK) in E. lia.
Qed.

(** When every member index names a row, the loop is a left fold that
    keeps the last qualifying cluster. *)
Lemma analyze_clusters_fold (K : nat) (df : DataFrame) (clusters : Dict) :
  members_in_range df clusters ->
  forall best,
    analyze_clusters K df clusters best =
    inl (fold_left (keep_last K df) clusters best).
Proof.
  induction 1 as [| [c_id indices] rest Hc _ IH]; intro best; simpl.
  - reflexivity.
  - destruct (take_rows_ok df _ Hc) as (rows & Hrows).
    simpl in Hrows. rewrite Hrows. simpl.
    rewrite (take_rows_injected _ _ _ Hrows), (take_rows_length _ _ _ Hrows).
    unfold keep_last at 2, qualifies, cluster_recall, report_of,
      cluster_recall, cluster_precision. simpl.
    destruct (above_half (recall_of (injected_in df indices) K)); apply IH.
Qed.

Lemma select_highest_recall_fold (K : nat) (df : DataFrame)
    (clusters : Dict) :
  members_in_range df clusters ->
  forall best,
    select_highest_recall K df clusters best =
    inl (fold_left (keep_higher K df) clusters best).
Proof.
  induction 1 as [| [c_id indices] rest Hc _ IH]; intro best; simpl.
  - reflexivity.
  - destruct (take_rows_ok df _ Hc) as (rows & Hrows).
    simpl in Hrows. rewrite Hrows. simpl.
    rewrite (take_rows_injected _ _ _ Hrows), (take_rows_length _ _ _ Hrows).
    unfold keep_higher at 2, qualifies, cluster_recall, report_of,
      cluster_recall, cluster_precision. simpl.
    destruct (above_half (recall_of (injected_in df indices) K)
              && negb (Qle_bool (recall_of (injected_in df indices) K)
                         (best_recall best))); apply IH.
Qed.

Lemma keep_last_none (K : nat) (df : DataFrame) (clusters : Dict)
    (best : Report) :
  Forall (fun c => qualifies K df c = false) clusters ->
  fold_left (keep_last K df) clusters best = best.
Proof.
  intro H. revert best.
  induction H as [| c rest Hc _ IH]; intro best; simpl; [reflexivity |].
  unfold keep_last at 2. rewrite Hc. apply IH.
Qed.

Lemma keep_higher_none (K : nat) (df : DataFrame) (clusters : Dict)
    (best : Report) :
  Forall (fun c => qualifies K df c = false) clusters ->
  fold_left (keep_higher K df) clusters best = best.
Proof.
  intro H. revert best.
  induction H as [| c rest Hc _ IH]; intro best; simpl; [reflexivity |].
  unfold keep_higher at 2. rewrite Hc. apply IH.
Qed.

Lemma partition_in_range {A : Type} (rows : list A) (clusters : Dict) :
  is_partition clusters (length rows) -> members_in_range rows clusters.
Proof.
  intros (_ & Hp). apply Forall_forall. intros c Hc.
  apply Forall_forall. intros i Hi.
  assert (Hin : In i (concat (map snd clusters))).
  { apply in_concat. exists (snd c). split; [apply in_map, Hc | exact Hi]. }
  apply (Permutation_in _ Hp), in_seq in Hin. lia.
Qed.

(** The disjoint clusters share [K] injected rows, so a cluster holding
    more than half of them leaves less than half for all the others. *)
Lemma qualifier_alone (K : nat) (df : DataFrame) (pre post : Dict)
    (c : Z * list nat) :
  (0 < K)%nat ->
  injected_total df (pre ++ c :: post) = K ->
  qualifies K df c = true ->
  Forall (fun c' => qualifies K df c' = false) pre /\
  Forall (fun c' => qualifies K df c' = false) post.
Proof.
  intros HK Htot Hc.
  apply (qualifies_count K df c HK) in Hc.
  rewrite injected_total_app in Htot.
  change (c :: post) with ([c] ++ post) in Htot.
  rewrite injected_total_app in Htot.
  unfold injected_total at 2 in Htot. simpl in Htot.
  split; apply Forall_forall; intros c' Hc';
    destruct (qualifies K df c') eqn:E; try reflexivity;
    apply (qualifies_count K df c' HK) in E;
    apply (injected_total_In df _ _) in Hc'; lia.
Qed.

Lemma verdict_failure_iff (r : Report) :
  verdict_of r = FAILURE <-> best_cluster_id r = (-1)%Z.
Proof.
  unfold verdict_of. destruct (best_cluster_id r =? -1)%Z eqn:E.
  - apply Z.eqb_eq in E. tauto.
  - apply Z.eqb_neq in E. split; [| tauto].
    destruct (Qeq_bool (best_recall r) 1 && Qeq_bool (best_precision r) 1);
      [discriminate |].
    destruct (negb (Qle_bool (best_recall r) (8 # 10))); discriminate.
Qed.

Section InjectionTest.
Variable K : nat.
Variable df_final : DataFrame.
Variable cluster_labels : list Z.

Hypothesis K_positive : (0 < K)%nat.
Hypothesis K_injected : injected_sum df_final = K.
Hypothesis one_label_per_row : length cluster_labels = length df_final.

Let clusters : Dict := group_labels cluster_labels.

Lemma clusters_partition : is_partition clusters (length df_final).
Proof.
  unfold clusters. rewrite <- one_label_per_row.
  apply group_labels_partition.
Qed.

Lemma clusters_total : injected_total df_final clusters = K.
Proof.
  rewrite <- K_injected.
  apply injected_total_partition, clusters_partition.
Qed.

Lemma analyze_clusters_none :
  Forall (fun c => qualifies K df_final c = false) clusters ->
  analyze_clusters K df_final clusters initial_report = inl initial_report.
Proof.
  intro H.
  rewrite analyze_clusters_fold
    by apply partition_in_range, clusters_partition.
  rewrite keep_last_none by exact H. reflexivity.
Qed.

Lemma analyze_clusters_some (c : Z * list nat) :
  In c clusters -> qualifies K df_final c = true ->
  analyze_clusters K df_final clusters initial_report
    = inl (report_of K df_final c) /\
  select_highest_recall K df_final clusters initial_report
    = inl (report_of K df_final c) /\
  forall c', In c' clusters -> qualifies K df_final c' = true -> c' = c.
Proof.
  intros Hin Hq.
  pose proof clusters_total as Htot.
  pose proof (partition_in_range _ _ clusters_partition) as Hrange.
  destruct (in_split _ _ Hin) as (pre & post & E).
  rewrite E in Htot.
  destruct (qualifier_alone K df_final pre post c K_positive Htot Hq) as (Hpre & Hpost).
  split; [| split].
  - rewrite analyze_clusters_fold by exact Hrange.
    rewrite E, fold_left_app. simpl.
    rewrite keep_last_none by exact Hpost.
    unfold keep_last at 1. rewrite Hq. reflexivity.
  - rewrite select_highest_recall_fold by exact Hrange.
    rewrite E, fold_left_app. simpl.
    rewrite keep_higher_none by exact Hpost.
    rewrite keep_higher_none by exact Hpre.
    unfold keep_higher. rewrite Hq. simpl.
    replace (Qle_bool (cluster_recall K df_final c) 0) with false;
      [reflexivity |].
    symmetry. destruct (Qle_bool (cluster_recall K df_final c) 0) eqn:E0;
      [| reflexivity].
    apply Qle_bool_iff in E0. apply above_half_lt in Hq.
    exfalso. apply (Qlt_not_le _ _ Hq).
    eapply Qle_trans; [exact E0 | discriminate].
  - intros c' Hin' Hq'. rewrite E in Hin'.
    apply in_app_or in Hin'. destruct Hin' as [H | [H | H]].
    + rewrite Forall_forall in Hpre. rewrite (Hpre c' H) in Hq'. discriminate.
    + symmetry. exact H.
    + rewrite Forall_forall in Hpost. rewrite (Hpost c' H) in Hq'. discriminate.
Qed.

(** What the loop returns, in terms of the ratios as the code computes
    them. *)
Lemma analyze_clusters_report :
  Forall (fun l => (0 <= l)%Z) cluster_labels ->
  exists r,
    analyze_clusters K df_final (group_labels cluster_labels) initial_report
      = inl r /\
    ((forall c, In c (group_labels cluster_labels) ->
                cluster_recall K df_final c <= 1 # 2) ->
     r = initial_report /\ verdict_of r = FAILURE) /\
    (forall c, In c (group_labels cluster_labels) ->
               1 # 2 < cluster_recall K df_final c ->
       r = report_of K df_final c /\
       verdict_of r <> FAILURE /\
       forall c', In c' (group_labels cluster_labels) ->
         cluster_recall K df_final c' <= cluster_recall K df_final c).
Proof.
  intro Hnonneg. fold clusters.
  destruct (existsb (qualifies K df_final) clusters) eqn:Ex.
  - apply existsb_exists in Ex. destruct Ex as (c0 & Hin0 & Hq0).
    destruct (analyze_clusters_some c0 Hin0 Hq0) as (Hr & _ & Huniq).
    exists (report_of K df_final c0). split; [exact Hr |]. split.
    + intro Hall. exfalso. apply above_half_lt in Hq0.
      apply (Qlt_not_le _ _ Hq0), Hall, Hin0.
    + intros c Hin Hc. apply above_half_lt in Hc.
      rewrite (Huniq c Hin Hc). split; [reflexivity |]. split.
      * rewrite verdict_failure_iff. simpl.
        assert (Hk : In (fst c0) cluster_labels).
        { apply group_labels_keys. apply in_map, Hin0. }
        rewrite Forall_forall in Hnonneg. specialize (Hnonneg _ Hk). lia.
      * intros c' Hin'.
        destruct (qualifies K df_final c') eqn:Hq'.
        -- rewrite (Huniq c' Hin' Hq'). apply Qle_refl.
        -- apply above_half_le in Hq'. apply above_half_lt in Hq0.
           eapply Qle_trans; [exact Hq' | apply Qlt_le_weak, Hq0].
  - assert (Hnone : Forall (fun c => qualifies K df_final c = false) clusters).
    { apply Forall_forall. intros c Hc.
      destruct (qualifies K df_final c) eqn:E; [| reflexivity].
      assert (existsb (qualifies K df_final) clusters = true)
        by (apply existsb_exists; exists c; auto).
      congruence. }
    exists initial_report. split; [apply analyze_clusters_none, Hnone |].
    split.
    + intros _. split; reflexivity.
    + intros c Hin Hc. exfalso. apply above_half_lt in Hc.
      rewrite Forall_forall in Hnone. unfold qualifies in Hnone.
      rewrite (Hnone c Hin) in Hc. discriminate.
Qed.

Lemma count_ratio_fraction (a b : nat) :
  (0 < b)%nat -> count_ratio a b == fraction a b.
Proof.
  intro Hb. unfold count_ratio, fraction.
  rewrite (Qmake_Qdiv (Z.of_nat a) (Pos.of_nat b)).
  replace (Z.pos (Pos.of_nat b)) with (Z.of_nat b); [reflexivity |].
  rewrite <- (Nat2Pos.id b) at 1 by lia. apply positive_nat_Z.
Qed.

Lemma injected_members_in (df : DataFrame) (indices : list nat) :
  injected_members df indices = injected_in df indices.
Proof.
  unfold injected_members, injected_in. f_equal.
  apply filter_ext. intro i.
  destruct (nth_error df i) as [[h m t [[|] |]] |]; reflexivity.
Qed.

Lemma cluster_recall_fraction (c : Z * list nat) :
  cluster_recall K df_final c
  == fraction (injected_members df_final (snd c)) K.
Proof.
  unfold cluster_recall, recall_of. rewrite injected_members_in.
  apply count_ratio_fraction, K_positive.
Qed.

Lemma cluster_precision_fraction (c : Z * list nat) :
  In c clusters ->
  cluster_precision df_final c
  == fraction (injected_members df_final (snd c)) (length (snd c)).
Proof.
  intro Hin. unfold cluster_precision, precision_of.
  rewrite injected_members_in. apply count_ratio_fraction.
  pose proof (group_labels_nonempty cluster_labels) as Hne.
  rewrite Forall_forall in Hne. specialize (Hne c Hin).
  destruct (snd c); [congruence | simpl; lia].
Qed.

(** C2: with [K] injected rows and the clusters grouped from one
    non-negative label per row, the loop returns a report [r].  If no
    cluster has more than half of the injected rows among its members
    (recall = injected members / K at most 0.5), [r] is the initial report
    with id -1 and the verdict is FAILURE.  If a cluster has recall above
    0.5, [r] holds that cluster's id, its recall (injected members / K) and
    its precision (injected members / cluster size), the verdict is not
    FAILURE, and no cluster has a higher recall. *)
Theorem injection_candidate :
  Forall (fun l => (0 <= l)%Z) cluster_labels ->
  exists r,
    analyze_clusters K df_final (group_labels cluster_labels) initial_report
      = inl r /\
    ((forall c, In c (group_labels cluster_labels) ->
                fraction (injected_members df_final (snd c)) K <= 1 # 2) ->
     r = initial_report /\ best_cluster_id r = (-1)%Z /\
     verdict_of r = FAILURE) /\
    (forall c, In c (group_labels cluster_labels) ->
               1 # 2 < fraction (injected_members df_final (snd c)) K ->
       best_cluster_id r = fst c /\
       best_recall r == fraction (injected_members df_final (snd c)) K /\
       best_precision r
         == fraction (injected_members df_final (snd c)) (length (snd c)) /\
       verdict_of r <> FAILURE /\
       forall c', In c' (group_labels cluster_labels) ->
         fraction (injected_members df_final (snd c')) K
           <= fraction (injected_members df_final (snd c)) K).
Proof.
  intro Hnonneg.
  destruct (analyze_clusters_report Hnonneg) as (r & Hr & Hnone & Hsome).
  exists r. split; [exact Hr |]. split.
  - intro Hall. destruct Hnone as (Hinit & Hfail).
    + intros c Hc. rewrite cluster_recall_fraction. apply Hall, Hc.
    + split; [exact Hinit |]. split; [rewrite Hinit; reflexivity | exact Hfail].
  - intros c Hc Hhalf.
    destruct (Hsome c Hc) as (Hrep & Hverdict & Hmax).
    { rewrite cluster_recall_fraction. exact Hhalf. }
    split; [rewrite Hrep; reflexivity |].
    split; [rewrite Hrep; apply cluster_recall_fraction |].
    split; [rewrite Hrep; apply cluster_precision_fraction, Hc |].
    split; [exact Hverdict |].
    intros c' Hc'. rewrite <- !cluster_recall_fraction. apply Hmax, Hc'.
Qed.

(** C10: the clusters are disjoint and share the [K] injected rows, so at
    most one of them has recall above 0.5, and the loop, which keeps the last
    qualifying cluster in iteration order, returns what selecting the
    qualifying cluster of highest recall returns. *)
Theorem candidate_unique :
  (forall c1 c2,
     In c1 (group_labels cluster_labels) ->
     In c2 (group_labels cluster_labels) ->
     1 # 2 < cluster_recall K df_final c1 ->
     1 # 2 < cluster_recall K df_final c2 ->
     c1 = c2) /\
  analyze_clusters K df_final (group_labels cluster_labels) initial_report
  = select_highest_recall K df_final (group_labels cluster_labels)
      initial_report.
Proof.
  fold clusters. split.
  - intros c1 c2 H1 H2 Q1 Q2. apply above_half_lt in Q1, Q2.
    destruct (analyze_clusters_some c2 H2 Q2) as (_ & _ & Huniq).
    apply Huniq; assumption.
  - destruct (existsb (qualifies K df_final) clusters) eqn:Ex.
    + apply existsb_exists in Ex. destruct Ex as (c0 & Hin0 & Hq0).
      destruct (analyze_clusters_some c0 Hin0 Hq0) as (Hr & Hs & _).
      rewrite Hr, Hs. reflexivity.
    + assert (Hnone : Forall (fun c => qualifies K df_final c = false)
                        clusters).
      { apply Forall_forall. intros c Hc.
        destruct (qualifies K df_final c) eqn:E; [| reflexivity].
        assert (existsb (qualifies K df_final) clusters = true)
          by (apply existsb_exists; exists c; auto).
        congruence. }
      rewrite analyze_clusters_none by exact Hnone.
      rewrite select_highest_recall_fold
        by apply partition_in_range, clusters_partition.
      rewrite keep_higher_none by exact Hnone. reflexivity.
Qed.

End InjectionTest.

(** ** A small injection test *)

Lemma small_report :
  analyze_clusters 2 small_df_final (group_labels small_labels)
    initial_report
  = inl {| best_cluster_id := 1; best_recall := 2 # 2;
           best_precision := 2 # 2 |}.
Proof. reflexivity. Qed.

Lemma injection_candidate_witness :
  In (1%Z, [1; 2; 3]%nat) (group_labels mixed_labels) /\
  fraction (injected_members mixed_df_final [1; 2; 3]%nat) 3 == 2 # 3 /\
  exists r,
    analyze_clusters 3 mixed_df_final (group_labels mixed_labels)
      initial_report = inl r /\
    ((forall c, In c (group_labels mixed_labels) ->
                fraction (injected_members mixed_df_final (snd c)) 3
                  <= 1 # 2) ->
     r = initial_report /\ best_cluster_id r = (-1)%Z /\
     verdict_of r = FAILURE) /\
    (forall c, In c (group_labels mixed_labels) ->
               1 # 2 < fraction (injected_members mixed_df_final (snd c)) 3 ->
       best_cluster_id r = fst c /\
       best_recall r
         == fraction (injected_members mixed_df_final (snd c)) 3 /\
       best_precision r
         == fraction (injected_members mixed_df_final (snd c))
              (length (snd c)) /\
       verdict_of r <> FAILURE /\
       forall c', In c' (group_labels mixed_labels) ->
         fraction (injected_members mixed_df_final (snd c')) 3
           <= fraction (injected_members mixed_df_final (snd c)) 3).
Proof.
  split; [right; left; reflexivity |].
  split; [reflexivity |].
  apply (injection_candidate 3 mixed_df_final mixed_labels).
  - lia.
  - reflexivity.
  - reflexivity.
  - unfold mixed_labels. repeat constructor; lia.
Defined.

Lemma candidate_unique_witness :
  (forall c1 c2,
     In c1 (group_labels small_labels) ->
     In c2 (group_labels small_labels) ->
     1 # 2 < cluster_recall 2 small_df_final c1 ->
     1 # 2 < cluster_recall 2 small_df_final c2 ->
     c1 = c2) /\
  analyze_clusters 2 small_df_final (group_labels small_labels)
    initial_report
  = select_highest_recall 2 small_df_final (group_labels small_labels)
      initial_report.
Proof.
  apply (candidate_unique 2 small_df_final small_labels).
  - lia.
  - reflexivity.
  - reflexivity.
Defined.

(** The rows [run_injection_test] builds satisfy the counting hypothesis:
    exactly the appended messages are injected. *)
Lemma injected_sum_df_final (raw_messages : list RawMessage)
    (messages : list string) :
  injected_sum
    (map fillna_false
       (load_and_preprocess_data raw_messages ++ injected_rows messages))
  = length messages.
Proof.
  unfold injected_sum. rewrite map_app, filter_app, length_app.
  replace (filter injected_flag
             (map fillna_false (load_and_preprocess_data raw_messages)))
    with (@nil Row).
  - simpl. induction messages as [| m ms IH]; simpl; [reflexivity |].
    f_equal. exact IH.
  - induction raw_messages as [| r rs IH]; simpl; [reflexivity | exact IH].
Qed.

(** [run_injection_test] is the scan over the grouped labels of the
    combined corpus, with [K] the number of hidden messages. *)
Lemma run_injection_test_scan
    (fit_predict : matrix -> Q -> result (list Z))
    (generate_embeddings : list string -> matrix)
    (raw_messages : list RawMessage) (labels : list Z) :
  let df_final :=
    map fillna_false
      (load_and_preprocess_data raw_messages ++ injected_rows HIDDEN_MESSAGES)
  in
  fit_predict (generate_embeddings (map full_text df_final)) (15 # 10)
    = inl labels ->
  injected_sum df_final = 20%nat /\
  run_injection_test fit_predict generate_embeddings raw_messages
  = (r <- analyze_clusters 20 df_final (group_labels labels) initial_report ;;
     ret (r, verdict_of r)).
Proof.
  intros df_final H. split.
  - apply (injected_sum_df_final raw_messages HIDDEN_MESSAGES).
  - unfold run_injection_test, perform_clustering.
    fold df_final. rewrite H. reflexivity.
Qed.

(** ** Sorting *)

Section SortFacts.
Variable A : Type.
Variable leb : A -> A -> bool.

Lemma insert_sorted_perm (x : A) (l : list A) :
  Permutation (insert_sorted leb x l) (x :: l).
Proof.
  induction l as [| y r IH]; simpl; [reflexivity |].
  destruct (leb x y); [reflexivity |].
  rewrite IH. apply perm_swap.
Qed.

Lemma stable_sort_perm (l : list A) : Permutation (stable_sort leb l) l.
Proof.
  induction l as [| x r IH]; simpl; [reflexivity |].
  rewrite insert_sorted_perm, IH. reflexivity.
Qed.

Hypothesis leb_total : forall a b, leb a b = true \/ leb b a = true.
Hypothesis leb_trans : forall a b c,
  leb a b = true -> leb b c = true -> leb a c = true.

Lemma insert_sorted_sorted (x : A) (l : list A) :
  StronglySorted (fun a b => leb a b = true) l ->
  StronglySorted (fun a b => leb a b = true) (insert_sorted leb x l).
Proof.
  induction 1 as [| y r Hs IH Hy]; simpl.
  - constructor; constructor.
  - destruct (leb x y) eqn:E.
    + constructor; [constructor; assumption |].
      constructor; [exact E |].
      eapply Forall_impl; [| exact Hy]. intros z Hz. eapply leb_trans; eauto.
    + constructor; [exact IH |].
      apply Forall_forall. intros z Hz.
      apply (Permutation_in _ (insert_sorted_perm x r)) in Hz.
      destruct Hz as [<- | Hz].
      * destruct (leb_total x y) as [H | H]; [congruence | exact H].
      * rewrite Forall_forall in Hy. apply Hy, Hz.
Qed.

Lemma stable_sort_sorted (l : list A) :
  StronglySorted (fun a b => leb a b = true) (stable_sort leb l).
Proof.
  induction l as [| x r IH]; simpl; [constructor |].
  apply insert_sorted_sorted, IH.
Qed.

End SortFacts.

(** The sort keeps the input order within a class [p] of elements that
    are pairwise in order. *)
Lemma stable_sort_stable {A : Type} (leb : A -> A -> bool) (p : A -> bool)
    (l : list A) :
  (forall a b, p a = true -> p b = true -> leb a b = true) ->
  filter p (stable_sort leb l) = filter p l.
Proof.
  intro Hp.
  assert (Hins : forall x r,
             filter p (insert_sorted leb x r) = filter p (x :: r)).
  { intros x r. induction r as [| y r IH]; [reflexivity |].
    simpl insert_sorted. destruct (leb x y) eqn:E; [reflexivity |].
    simpl. simpl in IH. rewrite IH.
    destruct (p x) eqn:Px; [| reflexivity].
    destruct (p y) eqn:Py; [| reflexivity].
    rewrite (Hp x y Px Py) in E. discriminate. }
  induction l as [| x r IH]; [reflexivity |].
  simpl stable_sort. rewrite Hins. simpl. rewrite IH. reflexivity.
Qed.

Lemma sorted_map {A B : Type} (R : A -> A -> Prop) (R' : B -> B -> Prop)
    (f : A -> B) (l : list A) :
  (forall x y, In x l -> In y l -> R x y -> R' (f x) (f y)) ->
  StronglySorted R l -> StronglySorted R' (map f l).
Proof.
  intros HR Hs. induction Hs as [| x r Hs IH Hx]; simpl; constructor.
  - apply IH. intros a b Ha Hb. apply HR; right; assumption.
  - apply Forall_forall. intros y Hy. apply in_map_iff in Hy.
    destruct Hy as (z & <- & Hz). rewrite Forall_forall in Hx.
    apply HR; [left; reflexivity | right; exact Hz | apply Hx, Hz].
Qed.

Lemma fleb_total (x y : npfloat) : fleb x y = true \/ fleb y x = true.
Proof.
  destruct x as [a | | |], y as [b | | |]; simpl; auto.
  destruct (Qlt_le_dec b a) as [H | H].
  - right. apply Qle_bool_iff, Qlt_le_weak, H.
  - left. apply Qle_bool_iff, H.
Qed.

Lemma fleb_trans (x y z : npfloat) :
  fleb x y = true -> fleb y z = true -> fleb x z = true.
Proof.
  destruct x as [a | | |], y as [b | | |], z as [c | | |]; simpl;
    try reflexivity; try discriminate.
  rewrite !Qle_bool_iff. apply Qle_trans.
Qed.

(** ** [argsort] *)

Lemma combine_seq_nth {A : Type} (xs : list A) (a : nat) (p : nat * A)
    (d : A) :
  In p (combine (seq a (length xs)) xs) ->
  (a <= fst p)%nat /\ nth (fst p - a) xs d = snd p.
Proof.
  revert a. induction xs as [| x xs IH]; intro a; simpl; [intros [] |].
  intros [<- | H]; simpl.
  - rewrite Nat.sub_diag. auto.
  - destruct (IH (S a) H) as (Hle & Hn). split; [lia |].
    replace (fst p - a)%nat with (S (fst p - S a)) by lia. exact Hn.
Qed.

Lemma enumerate_nth {A : Type} (xs : list A) (p : nat * A) (d : A) :
  In p (enumerate xs) -> nth (fst p) xs d = snd p.
Proof.
  intro H. apply (combine_seq_nth xs 0 p d) in H.
  rewrite Nat.sub_0_r in H. apply H.
Qed.

Lemma argsort_perm (distances : list npfloat) :
  Permutation (argsort distances) (seq 0 (length distances)).
Proof.
  unfold argsort. rewrite <- enumerate_fst.
  apply Permutation_map, stable_sort_perm.
Qed.

Lemma argsort_length (distances : list npfloat) :
  length (argsort distances) = length distances.
Proof.
  rewrite (Permutation_length (argsort_perm distances)). apply length_seq.
Qed.

Lemma argsort_sorted (distances : list npfloat) :
  StronglySorted (by_distance distances) (argsort distances).
Proof.
  unfold argsort.
  set (leb := fun a b : nat * npfloat => fleb (snd a) (snd b)).
  apply sorted_map with (R := fun a b => leb a b = true).
  - intros x y Hx Hy Hxy. unfold by_distance.
    apply (Permutation_in _ (stable_sort_perm _ leb _)) in Hx, Hy.
    rewrite (enumerate_nth _ _ NaN Hx), (enumerate_nth _ _ NaN Hy).
    exact Hxy.
  - apply stable_sort_sorted.
    + intros a b. apply fleb_total.
    + intros a b c. apply fleb_trans.
Qed.

Lemma slice_to_firstn {A : Type} (xs : list A) (k : Z) :
  (0 <= k)%Z ->
  slice_to xs k = firstn (Nat.min (Z.to_nat k) (length xs)) xs.
Proof.
  intro Hk. unfold slice_to.
  destruct (0 <=? k)%Z eqn:E; [| apply Z.leb_gt in E; lia].
  destruct (Nat.le_ge_cases (Z.to_nat k) (length xs)) as [H | H].
  - rewrite Nat.min_l by exact H. reflexivity.
  - rewrite Nat.min_r by exact H.
    rewrite firstn_all. apply firstn_all2, H.
Qed.

(** ** The centroid is the arithmetic mean *)

Lemma vadd_Fin (a b : list Q) :
  vadd (map Fin a) (map Fin b) = map Fin (Engine.qvadd a b).
Proof.
  revert b. induction a as [| x a IH]; intros [| y b]; simpl;
    try reflexivity.
  rewrite IH. reflexivity.
Qed.

Lemma fold_vadd_Fin (rs : list (list Q)) (acc : list Q) :
  fold_left vadd (map (map Fin) rs) (map Fin acc)
  = map Fin (fold_left Engine.qvadd rs acc).
Proof.
  revert acc. induction rs as [| r rs IH]; intro acc; simpl;
    [reflexivity |].
  rewrite vadd_Fin. apply IH.
Qed.

Lemma qvadd_length (a b : list Q) (d : nat) :
  length a = d -> length b = d -> length (Engine.qvadd a b) = d.
Proof.
  revert b d. induction a as [| x a IH]; intros [| y b] d Ha Hb; simpl in *;
    try congruence.
  destruct d as [| d]; [discriminate |]. f_equal.
  apply IH; congruence.
Qed.

Lemma qvadd_nth (a b : list Q) (j : nat) :
  (j < length a)%nat -> (j < length b)%nat ->
  nth j (Engine.qvadd a b) 0 = nth j a 0 + nth j b 0.
Proof.
  revert b j. induction a as [| x a IH]; intros [| y b] [| j] Ha Hb;
    simpl in *; try lia; try reflexivity.
  apply IH; lia.
Qed.

Lemma fold_qvadd_nth (rs : list (list Q)) (acc : list Q) (d j : nat) :
  length acc = d -> Forall (fun r => length r = d) rs -> (j < d)%nat ->
  length (fold_left Engine.qvadd rs acc) = d /\
  nth j (fold_left Engine.qvadd rs acc) 0 == nth j acc 0 + qsum (column j rs).
Proof.
  intros Hacc Hrs Hj. revert acc Hacc.
  induction Hrs as [| r rs Hr _ IH]; intros acc Hacc; simpl.
  - split; [exact Hacc |]. rewrite Qplus_0_r. reflexivity.
  - destruct (IH (Engine.qvadd acc r) (qvadd_length _ _ d Hacc Hr))
      as (Hlen & Hn).
    split; [exact Hlen |].
    rewrite Hn, qvadd_nth by lia. rewrite Qplus_assoc. reflexivity.
Qed.

(** On finite vectors of one dimension, entry [j] of [exact_mean] is the sum
    of the entries [j] divided by the number of vectors. *)
Lemma exact_mean_arithmetic (qrows : list (list Q)) (d j : nat) :
  qrows <> [] ->
  Forall (fun r => length r = d) qrows ->
  (j < d)%nat ->
  exists q,
    nth_error (exact_mean (map (map Fin) qrows)) j = Some (Fin q) /\
    q == qsum (column j qrows) / inject_Z (Z.of_nat (length qrows)).
Proof.
  intros Hne Hrows Hj. destruct qrows as [| r rs]; [congruence |].
  inversion Hrows as [| r' rs' Hr Hrs]; subst.
  destruct (fold_qvadd_nth rs r (length r) j eq_refl Hrs Hj) as (Hlen & Hn).
  exists (nth j (fold_left Engine.qvadd rs r) 0
          / inject_Z (Z.of_nat (length (r :: rs)))).
  split.
  - unfold exact_mean. cbn [map length].
    rewrite fold_vadd_Fin, map_map, length_map, nth_error_map.
    rewrite (nth_error_nth' _ 0) by lia. reflexivity.
  - rewrite Hn. reflexivity.
Qed.

(** ** Cluster summaries *)

Section Summaries.
Variable cosine_distance : vector -> vector -> npfloat.
Variable np_mean : matrix -> vector.

Lemma cosine_distances_inl (cluster_vectors : matrix) (centroid : vector)
    (distances : list npfloat) :
  cosine_distances cosine_distance cluster_vectors centroid = inl distances ->
  distances = map (fun v => cosine_distance v centroid) cluster_vectors.
Proof.
  unfold cosine_distances. destruct cluster_vectors as [| v vs];
    [discriminate |].
  destruct (forallb (forallb is_finite) (v :: vs)
            && forallb is_finite centroid); [| discriminate].
  intro H. injection H as <-. reflexivity.
Qed.

Lemma fleb_ascending (x y : npfloat) : fleb x y = true <-> ascending x y.
Proof.
  destruct x as [a | | |], y as [b | | |]; simpl; split; intro H;
    try reflexivity; try discriminate; try exact I; try congruence;
    try (left; reflexivity).
  - right. exists a. split; [reflexivity | apply Qle_bool_iff, H].
  - destruct H as [H | (a' & E & H)]; [discriminate |].
    injection E as <-. apply Qle_bool_iff, H.
  - destruct H as [H | (a' & E & _)]; discriminate.
  - destruct H as [H | (a' & E & _)]; discriminate.
Qed.

Lemma nth_map_member {A B : Type} (f : A -> B) (xs : list A) (i : nat)
    (d : B) :
  (i < length xs)%nat ->
  exists x, nth_error xs i = Some x /\ nth i (map f xs) d = f x.
Proof.
  revert i. induction xs as [| x xs IH]; intros [| i] Hi; simpl in *;
    try lia.
  - exists x. auto.
  - apply IH. lia.
Qed.

Lemma argsort_nearest_first (centroid : vector) (vectors : matrix) :
  nearest_first cosine_distance centroid vectors
    (argsort (map (fun v => cosine_distance v centroid) vectors)).
Proof.
  set (distances := map (fun v => cosine_distance v centroid) vectors).
  assert (Hlen : length distances = length vectors) by apply length_map.
  split; [rewrite <- Hlen; apply argsort_perm |].
  rewrite <- (map_id (argsort distances)).
  apply sorted_map with (R := by_distance distances);
    [| apply argsort_sorted].
  intros i j Hi Hj Hij.
  apply (Permutation_in _ (argsort_perm distances)), in_seq in Hi, Hj.
  rewrite Hlen in Hi, Hj.
  destruct (nth_map_member (fun v => cosine_distance v centroid) vectors i
              NaN) as (u & Hu & Eu); [lia |].
  destruct (nth_map_member (fun v => cosine_distance v centroid) vectors j
              NaN) as (v & Hv & Ev); [lia |].
  exists u, v. split; [exact Hu |]. split; [exact Hv |].
  apply fleb_ascending. unfold by_distance in Hij. fold distances in Eu, Ev.
  rewrite Eu, Ev in Hij. exact Hij.
Qed.

Lemma slice_to_count {A : Type} (xs : list A) (k : Z) :
  slice_to xs k = firstn (sample_count k (length xs)) xs.
Proof.
  unfold sample_count. destruct (0 <=? k)%Z eqn:E.
  - apply slice_to_firstn, Z.leb_le, E.
  - unfold slice_to. rewrite E. reflexivity.
Qed.

Lemma sample_count_le (k : Z) (size : nat) :
  (sample_count k size <= size)%nat.
Proof. unfold sample_count. destruct (0 <=? k)%Z; lia. Qed.

Lemma summarize_cluster_spec (embeddings : matrix) (df : DataFrame)
    (samples_per_cluster : Z) (label : Z) (indices : list nat)
    (sm : ClusterSummary) :
  summarize_cluster cosine_distance np_mean embeddings df samples_per_cluster
    label indices = inl sm ->
  summary_of cosine_distance np_mean embeddings df samples_per_cluster
    (label, indices) sm.
Proof.
  intro H. unfold summarize_cluster in H.
  apply bind_inl in H. destruct H as (cluster_vectors & Hvec & H).
  apply bind_inl in H. destruct H as (distances & Hdist & H).
  apply bind_inl in H. destruct H as (global & Hglobal & H).
  apply bind_inl in H. destruct H as (rows & Hrows & H).
  apply bind_inl in H. destruct H as (pct & _ & H).
  injection H as <-. unfold summary_of. simpl.
  apply cosine_distances_inl in Hdist.
  assert (Hlen : length distances = length indices).
  { rewrite Hdist, length_map. apply (take_rows_length _ _ _ Hvec). }
  rewrite slice_to_count, argsort_length, Hlen in Hglobal.
  clear pct.
  assert (Htexts : Forall2 (text_of df indices)
            (firstn (sample_count samples_per_cluster (length indices))
                    (argsort distances))
            (map full_text rows)).
  { apply take_rows_inl in Hglobal. apply take_rows_inl in Hrows.
    revert rows Hrows.
    induction Hglobal as [| i g local global Hi _ IH]; intros rows Hrows.
    - inversion Hrows. constructor.
    - inversion Hrows as [| g' r global' rows' Hg Hrest]; subst.
      simpl. constructor; [| apply IH, Hrest].
      exists g, r. auto. }
  split; [reflexivity |]. split; [reflexivity |]. split.
  - exists cluster_vectors, (argsort distances).
    split; [apply take_rows_inl, Hvec |]. split; [| exact Htexts].
    rewrite Hdist. apply argsort_nearest_first.
  - rewrite <- (Forall2_length Htexts), length_firstn.
    rewrite (Permutation_length (argsort_perm distances)), length_seq, Hlen.
    pose proof (sample_count_le samples_per_cluster (length indices)). lia.
Qed.

Lemma summarize_all_spec (embeddings : matrix) (df : DataFrame)
    (samples_per_cluster : Z) (clusters : Dict)
    (sms : list ClusterSummary) :
  summarize_all cosine_distance np_mean embeddings df samples_per_cluster
    clusters
    = inl sms ->
  Forall2 (fun c sm =>
             summarize_cluster cosine_distance np_mean embeddings df
               samples_per_cluster (fst c) (snd c) = inl sm)
          clusters sms.
Proof.
  revert sms. induction clusters as [| [label indices] rest IH];
    intros sms H; simpl in H.
  - injection H as <-. constructor.
  - apply bind_inl in H. destruct H as (sm & Hsm & H).
    apply bind_inl in H. destruct H as (tl & Htl & H).
    injection H as <-. constructor; [exact Hsm | apply IH, Htl].
Qed.

Lemma get_representative_samples_inl (clusters : Dict) (embeddings : matrix)
    (df : DataFrame) (samples_per_cluster : Z)
    (summaries : list ClusterSummary) :
  get_representative_samples cosine_distance np_mean clusters embeddings df
    samples_per_cluster = inl summaries ->
  exists sms,
    summarize_all cosine_distance np_mean embeddings df samples_per_cluster
    clusters
      = inl sms /\
    summaries = stable_sort size_desc sms.
Proof.
  unfold get_representative_samples. intro H.
  apply bind_inl in H. destruct H as (sms & Hsms & H).
  injection H as <-. exists sms. auto.
Qed.

(** C4: the summaries that [get_representative_samples] returns are the
    summaries of the clusters of the mapping, one for each cluster, in the
    order of the final sort.  The summary of a cluster has its id and size,
    and its samples are the texts of the members nearest to the centroid by
    cosine distance, nearest first, where the centroid is the mean of the
    members' vectors as numpy returns it; there are
    min(samples_per_cluster, size) samples when [samples_per_cluster] is
    not negative, and size - |samples_per_cluster| (or none) otherwise. *)
Theorem representative_samples_closest (clusters : Dict)
    (embeddings : matrix) (df : DataFrame) (samples_per_cluster : Z)
    (summaries : list ClusterSummary) :
  get_representative_samples cosine_distance np_mean clusters embeddings df
    samples_per_cluster = inl summaries ->
  (exists sms,
     Permutation sms summaries /\
     Forall2 (summary_of cosine_distance np_mean embeddings df
                samples_per_cluster)
             clusters sms) /\
  ((0 <= samples_per_cluster)%Z ->
   forall sm, In sm summaries ->
     length (representative_samples sm)
       = Nat.min (Z.to_nat samples_per_cluster) (size sm)).
Proof.
  intro H.
  apply get_representative_samples_inl in H.
  destruct H as (sms & Hsms & ->).
  apply summarize_all_spec in Hsms.
  assert (Hall : Forall2 (summary_of cosine_distance np_mean embeddings df
                            samples_per_cluster) clusters sms).
  { induction Hsms as [| [label indices] sm cs sms Hhd _ IH];
      constructor; [| exact IH].
    apply summarize_cluster_spec, Hhd. }
  split.
  - exists sms. split; [symmetry; apply stable_sort_perm | exact Hall].
  - intros Hk sm Hin.
    apply (Permutation_in _ (stable_sort_perm _ size_desc sms)) in Hin.
    clear Hsms. induction Hall as [| c sm' cs sms Hhd _ IH];
      [destruct Hin |].
    destruct Hin as [<- | Hin]; [| apply IH, Hin].
    destruct Hhd as (_ & Hsize & _ & Hlen).
    rewrite Hlen, Hsize. unfold sample_count.
    apply Z.leb_le in Hk. rewrite Hk. reflexivity.
Qed.

End Summaries.

(** ** Examples *)

Lemma demo_summaries_samples :
  map representative_samples demo_summaries
  = [["order status"; "delivery"]%string].
Proof. reflexivity. Qed.

Lemma representative_samples_closest_witness :
  get_representative_samples cosine_distance_fixed exact_mean
    [(0%Z, [0; 1; 2]%nat)] demo_embeddings demo_df 2 = inl demo_summaries /\
  (exists sms,
     Permutation sms demo_summaries /\
     Forall2 (summary_of cosine_distance_fixed exact_mean demo_embeddings
                demo_df 2)
             [(0%Z, [0; 1; 2]%nat)] sms) /\
  ((0 <= 2)%Z ->
   forall sm, In sm demo_summaries ->
     length (representative_samples sm) = Nat.min (Z.to_nat 2) (size sm)).
Proof.
  split.
  - vm_compute. reflexivity.
  - apply (representative_samples_closest cosine_distance_fixed exact_mean
             [(0%Z, [0; 1; 2]%nat)] demo_embeddings demo_df 2
             demo_summaries).
    vm_compute. reflexivity.
Defined.

(** ** Order of the summaries *)

Lemma summarize_cluster_id_size (cd : vector -> vector -> npfloat)
    (mean : matrix -> vector)
    (embeddings : matrix) (df : DataFrame) (samples_per_cluster : Z)
    (label : Z) (indices : list nat) (sm : ClusterSummary) :
  summarize_cluster cd mean embeddings df samples_per_cluster label indices
    = inl sm ->
  cluster_id sm = label /\ size sm = length indices.
Proof.
  unfold summarize_cluster. intro H.
  apply bind_inl in H. destruct H as (cluster_vectors & _ & H).
  apply bind_inl in H. destruct H as (distances & _ & H).
  apply bind_inl in H. destruct H as (global & _ & H).
  apply bind_inl in H. destruct H as (rows & _ & H).
  apply bind_inl in H. destruct H as (pct & _ & H).
  injection H as <-. split; reflexivity.
Qed.

Lemma size_class_ids (cd : vector -> vector -> npfloat)
    (mean : matrix -> vector)
    (embeddings : matrix) (df : DataFrame) (samples_per_cluster : Z)
    (clusters : Dict) (sms : list ClusterSummary) (k : nat) :
  Forall2 (fun c sm =>
             summarize_cluster cd mean embeddings df samples_per_cluster
               (fst c) (snd c) = inl sm)
          clusters sms ->
  map cluster_id (filter (fun sm => (size sm =? k)%nat) sms)
  = map fst (filter (fun c => (length (snd c) =? k)%nat) clusters).
Proof.
  induction 1 as [| c sm cs sms Hhd _ IH]; simpl; [reflexivity |].
  apply summarize_cluster_id_size in Hhd. destruct Hhd as (Hid & Hsize).
  rewrite Hsize. destruct (length (snd c) =? k)%nat; simpl; [| exact IH].
  rewrite Hid, IH. reflexivity.
Qed.

(** C3, as the code has it: the summaries come out by descending size,
    and clusters of equal size come out in the order in which the input
    mapping lists them, whatever their ids. *)
Theorem summaries_by_size_stable (cd : vector -> vector -> npfloat)
    (mean : matrix -> vector)
    (clusters : Dict) (embeddings : matrix) (df : DataFrame)
    (samples_per_cluster : Z) (summaries : list ClusterSummary) :
  get_representative_samples cd mean clusters embeddings df samples_per_cluster
    = inl summaries ->
  StronglySorted (fun a b => (size b <= size a)%nat) summaries /\
  forall k,
    map cluster_id (filter (fun sm => (size sm =? k)%nat) summaries)
    = map fst (filter (fun c => (length (snd c) =? k)%nat) clusters).
Proof.
  intro H. apply get_representative_samples_inl in H.
  destruct H as (sms & Hsms & ->). split.
  - rewrite <- (map_id (stable_sort size_desc sms)).
    apply sorted_map with (R := fun a b => size_desc a b = true).
    + intros x y _ _ Hxy. apply Nat.leb_le, Hxy.
    + apply stable_sort_sorted.
      * intros a b. unfold size_desc.
        destruct (Nat.le_ge_cases (size a) (size b)) as [Hle | Hle];
          [right | left]; apply Nat.leb_le, Hle.
      * intros a b c. unfold size_desc. rewrite !Nat.leb_le. lia.
  - intro k. rewrite stable_sort_stable.
    + eapply size_class_ids, summarize_all_spec, Hsms.
    + intros a b Ha Hb. apply Nat.eqb_eq in Ha, Hb.
      unfold size_desc. apply Nat.leb_le. lia.
Qed.

Lemma summaries_by_size_stable_witness :
  exists summaries,
    get_representative_samples cosine_distance_fixed exact_mean
      (group_labels scenario_labels) scenario_embeddings scenario_df 5
      = inl summaries /\
    StronglySorted (fun a b => (size b <= size a)%nat) summaries /\
    forall k,
      map cluster_id (filter (fun sm => (size sm =? k)%nat) summaries)
      = map fst (filter (fun c => (length (snd c) =? k)%nat)
                        (group_labels scenario_labels)).
Proof.
  destruct (get_representative_samples cosine_distance_fixed exact_mean
              (group_labels scenario_labels) scenario_embeddings
              scenario_df 5) as [summaries | e] eqn:E.
  - exists summaries. split; [reflexivity |].
    apply (summaries_by_size_stable cosine_distance_fixed exact_mean
             (group_labels scenario_labels) scenario_embeddings scenario_df 5
             summaries E).
  - vm_compute in E. discriminate E.
Defined.

(** Counterexample to C3 as stated: two clusters of size 25 with ids 2 and
    1, listed in that order by the mapping, and one of size 10.  The
    summaries come out as ids 2, 1, 0: the tie is not broken by ascending
    id. *)
Lemma size_tie_not_by_ascending_id :
  exists summaries,
    get_representative_samples cosine_distance_fixed exact_mean
      (group_labels scenario_labels) scenario_embeddings scenario_df 5
      = inl summaries /\
    map (fun sm => (cluster_id sm, size sm)) summaries
    = [(2%Z, 25%nat); (1%Z, 25%nat); (0%Z, 10%nat)].
Proof.
  destruct (get_representative_samples cosine_distance_fixed exact_mean
              (group_labels scenario_labels) scenario_embeddings
              scenario_df 5) as [summaries | e] eqn:E.
  - exists summaries. split; [reflexivity |].
    vm_compute in E. injection E as <-. reflexivity.
  - vm_compute in E. discriminate E.
Qed.

(** ** Empty corpus *)

(** C6, as the code has it.  On an empty corpus [main] returns before
    embedding and clustering, whatever the libraries would do.
    [perform_clustering] has no guard of its own: on the empty matrix it
    returns the empty mapping when the engine returns no labels, and raises
    what the engine raises.  [get_representative_samples] on a mapping
    without clusters returns no summary and divides nothing.
    [calculate_metrics] on an output with no messages never returns a
    coverage: the division by the message count is unguarded. *)
Theorem empty_corpus_handling
    (fit_predict : matrix -> Q -> result (list Z))
    (cd : vector -> vector -> npfloat)
    (mean : matrix -> vector)
    (generate_embeddings : list string -> matrix)
    (intent_map_str : string) (embeddings : matrix) (df : DataFrame)
    (samples_per_cluster : Z) (distance_threshold : Q) :
  main fit_predict cd mean generate_embeddings [] intent_map_str = inl None /\
  (fit_predict [] distance_threshold = inl [] ->
   perform_clustering fit_predict [] distance_threshold = inl []) /\
  (forall e, fit_predict [] distance_threshold = inr e ->
             perform_clustering fit_predict [] distance_threshold = inr e) /\
  get_representative_samples cd mean [] embeddings df samples_per_cluster
    = inl [] /\
  (forall encode silhouette_score data,
     total_messages data = 0%nat ->
     exists e, calculate_metrics encode silhouette_score data = inr e).
Proof.
  split; [reflexivity |]. split; [| split; [| split; [reflexivity |]]].
  - intro H. unfold perform_clustering. rewrite H. reflexivity.
  - intros e H. unfold perform_clustering. rewrite H. reflexivity.
  - intros encode silhouette_score data Hn. unfold calculate_metrics.
    destruct (encode _) as [X | e]; [| exists e; reflexivity].
    simpl. destruct (silhouette_score X _) as [sc | e];
      [| exists e; reflexivity].
    simpl. rewrite Hn. exists ZeroDivisionError. reflexivity.
Qed.

(** Counterexample to C6 as stated, on the empty corpus: with an engine
    that refuses the empty matrix, as scikit-learn's does,
    [perform_clustering] raises instead of returning an empty partition;
    and on the output of an empty corpus [calculate_metrics] raises whatever
    the libraries return, with [ZeroDivisionError] when they return. *)
Lemma empty_corpus_raises :
  perform_clustering refusing_engine [] (15 # 10) = inr ValueError /\
  (forall encode silhouette_score,
     exists e, calculate_metrics encode silhouette_score empty_output
               = inr e) /\
  calculate_metrics (fun _ => ret []) (fun _ _ => ret (Fin 0)) empty_output
    = inr ZeroDivisionError.
Proof.
  split; [reflexivity |]. split; [| reflexivity].
  intros encode silhouette_score. unfold calculate_metrics.
  destruct (encode _) as [X | e]; [| exists e; reflexivity].
  simpl. destruct (silhouette_score X _) as [sc | e];
    [| exists e; reflexivity].
  exists ZeroDivisionError. reflexivity.
Qed.

(** ** When the summaries are produced *)

Lemma vadd_finite (u v : vector) :
  forallb is_finite u = true -> forallb is_finite v = true ->
  forallb is_finite (vadd u v) = true.
Proof.
  revert v. induction u as [| x u IH]; intros [| y v]; simpl; auto.
  rewrite !andb_true_iff. intros (Hx & Hu) (Hy & Hv). split; [| auto].
  destruct x, y; simpl in *; congruence.
Qed.

Lemma fold_vadd_finite (rs : matrix) (r : vector) :
  forallb is_finite r = true ->
  forallb (forallb is_finite) rs = true ->
  forallb is_finite (fold_left vadd rs r) = true.
Proof.
  revert r. induction rs as [| r' rs IH]; intros r Hr Hrs; simpl;
    [exact Hr |].
  simpl in Hrs. apply andb_true_iff in Hrs. destruct Hrs as (Hr' & Hrs).
  apply IH; [apply vadd_finite; assumption | exact Hrs].
Qed.

Lemma exact_mean_finite (rows : matrix) :
  forallb (forallb is_finite) rows = true ->
  forallb is_finite (exact_mean rows) = true.
Proof.
  destruct rows as [| r rs]; [reflexivity |].
  intro H. simpl in H. apply andb_true_iff in H. destruct H as (Hr & Hrs).
  pose proof (fold_vadd_finite rs r Hr Hrs) as Hsum.
  unfold exact_mean. rewrite forallb_forall in Hsum |- *.
  intros x Hx. apply in_map_iff in Hx. destruct Hx as (s & <- & Hs).
  specialize (Hsum s Hs). destruct s; try discriminate. reflexivity.
Qed.

Lemma take_rows_In {A : Type} (xs : list A) (indices : list nat)
    (ys : list A) :
  take_rows xs indices = inl ys -> forall y, In y ys -> In y xs.
Proof.
  intro H. apply take_rows_inl in H.
  induction H as [| i y idxs ys' Hi _ IH]; intros z [].
  - subst. eapply nth_error_In, Hi.
  - apply IH. assumption.
Qed.

Lemma firstn_In {A : Type} (n : nat) (l : list A) (x : A) :
  In x (firstn n l) -> In x l.
Proof.
  intro H. rewrite <- (firstn_skipn n l). apply in_or_app. left. exact H.
Qed.

Section SummariesProduced.
Variable cosine_distance : vector -> vector -> npfloat.
Variable np_mean : matrix -> vector.
Variable embeddings : matrix.
Variable df : DataFrame.
Variable samples_per_cluster : Z.

Hypothesis embeddings_finite : Engine.all_finite embeddings = true.

(** The mean of finite vectors is finite: no sum overflows. *)
Hypothesis mean_finite : forall rows,
  forallb (forallb is_finite) rows = true ->
  forallb is_finite (np_mean rows) = true.

(** A non-empty cluster whose members name a vector and a row gets its
    summary. *)
Lemma summarize_cluster_ok (label : Z) (indices : list nat) :
  indices <> [] ->
  Forall (fun i => (i < length embeddings)%nat) indices ->
  Forall (fun i => (i < length df)%nat) indices ->
  exists sm,
    summarize_cluster cosine_distance np_mean embeddings df samples_per_cluster
      label indices = inl sm.
Proof.
  intros Hne Hemb Hdf. unfold summarize_cluster.
  destruct (take_rows_ok embeddings indices Hemb) as (vecs & Hvecs).
  rewrite Hvecs. simpl.
  assert (Hfin : forallb (forallb is_finite) vecs = true).
  { apply forallb_forall. intros v Hv.
    apply (take_rows_In _ _ _ Hvecs) in Hv.
    unfold Engine.all_finite in embeddings_finite.
    rewrite forallb_forall in embeddings_finite. auto. }
  assert (Hlen : length vecs = length indices)
    by apply (take_rows_length _ _ _ Hvecs).
  unfold cosine_distances.
  destruct vecs as [| v vs] eqn:Ev;
    [destruct indices; [congruence | discriminate] |].
  rewrite <- Ev in *. rewrite Hfin, (mean_finite _ Hfin). simpl.
  set (distances := map (fun v0 => cosine_distance v0 (np_mean vecs)) vecs).
  set (local := slice_to (argsort distances) samples_per_cluster).
  assert (Hlocal : Forall (fun i => (i < length indices)%nat) local).
  { apply Forall_forall. intros i Hi.
    assert (Hin : In i (argsort distances)).
    { unfold local, slice_to in Hi.
      destruct (0 <=? samples_per_cluster)%Z;
        eapply firstn_In, Hi. }
    apply (Permutation_in _ (argsort_perm distances)), in_seq in Hin.
    unfold distances in Hin. rewrite length_map, Hlen in Hin. lia. }
  destruct (take_rows_ok indices local Hlocal) as (global & Hglobal).
  rewrite Hglobal. simpl.
  assert (Hrange : Forall (fun g => (g < length df)%nat) global).
  { apply Forall_forall. intros g Hg.
    apply (take_rows_In _ _ _ Hglobal) in Hg.
    rewrite Forall_forall in Hdf. auto. }
  destruct (take_rows_ok df global Hrange) as (rows & Hrows).
  rewrite Hrows. simpl.
  destruct (length df) as [| n] eqn:En.
  - destruct indices as [| i rest]; [congruence |].
    inversion Hdf; lia.
  - simpl. eexists. reflexivity.
Qed.

Lemma get_representative_samples_ok (clusters : Dict) :
  Forall (fun c => snd c <> []) clusters ->
  members_in_range embeddings clusters ->
  members_in_range df clusters ->
  exists summaries,
    get_representative_samples cosine_distance np_mean clusters embeddings df
      samples_per_cluster = inl summaries.
Proof.
  intros Hne Hemb Hdf. unfold get_representative_samples.
  assert (H : exists sms,
             summarize_all cosine_distance np_mean embeddings df
               samples_per_cluster
               clusters = inl sms).
  { induction clusters as [| [label indices] rest IH]; simpl.
    - exists []. reflexivity.
    - inversion Hne; inversion Hemb; inversion Hdf; subst.
      destruct (summarize_cluster_ok label indices) as (sm & ->); auto.
      destruct IH as (sms & ->); auto. simpl. eexists. reflexivity. }
  destruct H as (sms & ->). simpl. eexists. reflexivity.
Qed.

End SummariesProduced.

(** ** The whole pipeline *)

(** With the engine of section 4.1, embeddings it accepts, one per
    message, and centroids that stay finite, [main] on a non-empty corpus
    produces its output. *)
Lemma main_produces_output (cd : vector -> vector -> npfloat)
    (mean : matrix -> vector)
    (generate_embeddings : list string -> matrix)
    (raw_messages : list RawMessage) (intent_map_str : string)
    (Xq : list (list Q)) :
  raw_messages <> [] ->
  (forall rows, forallb (forallb is_finite) rows = true ->
                forallb is_finite (mean rows) = true) ->
  length (generate_embeddings
            (map full_text (load_and_preprocess_data raw_messages)))
    = length raw_messages ->
  Engine.validate
    (generate_embeddings
       (map full_text (load_and_preprocess_data raw_messages))) = inl Xq ->
  exists out,
    main Engine.fit_predict cd mean generate_embeddings raw_messages
      intent_map_str = inl (Some out) /\
    total_messages out = length raw_messages.
Proof.
  intros Hne Hmean Hlen Hval. unfold main.
  set (df := load_and_preprocess_data raw_messages) in *.
  assert (Hdf : length df = length raw_messages)
    by apply length_map.
  destruct df as [| row rows] eqn:Edf.
  { destruct raw_messages; [congruence | discriminate]. }
  rewrite <- Edf in *.
  set (vectors := generate_embeddings (map full_text df)) in *.
  unfold perform_clustering, Engine.fit_predict. rewrite Hval. simpl.
  set (labels := map Z.of_nat (Engine.cluster_labels Xq (15 # 10))).
  assert (Hlabels : length labels = length vectors).
  { apply (EngineFacts.fit_predict_length vectors (15 # 10)).
    unfold Engine.fit_predict. rewrite Hval. reflexivity. }
  pose proof (group_labels_partition labels) as Hpart.
  destruct (EngineFacts.validate_inl _ _ Hval) as (_ & _ & Hfin & _).
  destruct (get_representative_samples_ok cd mean vectors df 5 Hfin Hmean
              (group_labels labels)) as (summaries & Hsum).
  - apply group_labels_nonempty.
  - apply partition_in_range. rewrite <- Hlabels. exact Hpart.
  - apply partition_in_range. rewrite Hdf, <- Hlen, <- Hlabels. exact Hpart.
  - rewrite Hsum. simpl. eexists. split; [reflexivity |]. exact Hdf.
Qed.

(** ** Further properties of the pipeline *)

(** ** What the grouping loop files where *)

Lemma dict_get_append (d : Dict) (l k : Z) (i : nat) :
  dict_get (dict_append d l i) k
  = if (k =? l)%Z then dict_get d l ++ [i] else dict_get d k.
Proof.
  induction d as [| [k' ms] d IH]; simpl.
  - rewrite (Z.eqb_sym l k). destruct (k =? l)%Z; reflexivity.
  - destruct (k' =? l)%Z eqn:E1; simpl.
    + apply Z.eqb_eq in E1. subst k'. rewrite (Z.eqb_sym l k).
      destruct (k =? l)%Z eqn:E2; reflexivity.
    + rewrite IH. destruct (k' =? k)%Z eqn:E2; [| reflexivity].
      apply Z.eqb_eq in E2. subst k'. rewrite E1. reflexivity.
Qed.

Lemma dict_get_fold (items : list (nat * Z)) (acc : Dict) (k : Z) :
  dict_get (fold_left group_step items acc) k
  = dict_get acc k
    ++ map fst (filter (fun il => (snd il =? k)%Z) items).
Proof.
  revert acc. induction items as [| [i l] items IH]; intro acc; simpl.
  - rewrite app_nil_r. reflexivity.
  - rewrite IH. unfold group_step. simpl. rewrite dict_get_append.
    rewrite (Z.eqb_sym l k).
    destruct (k =? l)%Z eqn:E; [| reflexivity].
    apply Z.eqb_eq in E. subst l. rewrite <- app_assoc. reflexivity.
Qed.

Lemma dict_get_In (d : Dict) (l : Z) (ms : list nat) :
  NoDup (map fst d) -> In (l, ms) d -> dict_get d l = ms.
Proof.
  induction d as [| [k ms'] d IH]; simpl; [intros _ [] |].
  intros Hnd [H | H].
  - injection H as -> ->. rewrite Z.eqb_refl. reflexivity.
  - inversion Hnd as [| x xs Hnotin Hrest]; subst.
    destruct (k =? l)%Z eqn:E.
    + apply Z.eqb_eq in E. subst k. exfalso. apply Hnotin.
      apply (in_map fst) in H. exact H.
    + apply IH; assumption.
Qed.

Lemma enumerate_In {A : Type} (xs : list A) (i : nat) (x : A) :
  In (i, x) (enumerate xs) <-> nth_error xs i = Some x.
Proof.
  unfold enumerate.
  assert (H : forall a, In (i, x) (combine (seq a (length xs)) xs)
                        <-> (a <= i)%nat /\ nth_error xs (i - a) = Some x).
  { induction xs as [| y xs IH]; intro a; simpl.
    - split; [intros [] | intros (_ & H)].
      destruct (i - a)%nat; discriminate.
    - rewrite IH. split.
      + intros [H | (Hle & H)].
        * injection H as -> ->. rewrite Nat.sub_diag. auto.
        * split; [lia |]. replace (i - a)%nat with (S (i - S a)) by lia.
          exact H.
      + intros (Hle & H). destruct (Nat.eq_dec a i) as [-> | Hne].
        * rewrite Nat.sub_diag in H. simpl in H. injection H as ->. auto.
        * right. split; [lia |].
          replace (i - a)%nat with (S (i - S a)) in H by lia. exact H. }
  rewrite H, Nat.sub_0_r. split; [tauto | split; [lia | assumption]].
Qed.

Lemma enumerate_fst_sorted {A : Type} (xs : list A) (f : nat * A -> bool) :
  StronglySorted lt (map fst (filter f (enumerate xs))).
Proof.
  unfold enumerate. generalize 0%nat.
  induction xs as [| x xs IH]; intro a; simpl; [constructor |].
  assert (Hgt : Forall (lt a)
                  (map fst (filter f (combine (seq (S a) (length xs)) xs)))).
  { apply Forall_forall. intros i Hi. apply in_map_iff in Hi.
    destruct Hi as ([j y] & <- & Hj). apply filter_In in Hj.
    destruct Hj as (Hj & _). apply in_combine_l, in_seq in Hj. simpl. lia. }
  destruct (f (a, x)); simpl; [constructor; [apply IH | exact Hgt] | apply IH].
Qed.

(** X1: in the mapping that the grouping loop of [perform_clustering]
    builds, the member list of a cluster is in ascending order and holds
    exactly the row indices whose label is the cluster's id. *)
Theorem group_labels_members (cluster_labels : list Z) (label : Z)
    (members : list nat) :
  In (label, members) (group_labels cluster_labels) ->
  StronglySorted lt members /\
  forall i, In i members <-> nth_error cluster_labels i = Some label.
Proof.
  intro Hin.
  pose proof (group_labels_partition cluster_labels) as (Hnd & _).
  apply (dict_get_In _ _ _ Hnd) in Hin.
  unfold group_labels in Hin. rewrite dict_get_fold in Hin. simpl in Hin.
  subst members. split.
  - apply enumerate_fst_sorted.
  - intro i. rewrite in_map_iff. split.
    + intros ([j l] & Hj & Hf). simpl in Hj. subst j.
      apply filter_In in Hf. destruct Hf as (Hf & E). simpl in E.
      apply Z.eqb_eq in E. subst l. apply enumerate_In, Hf.
    + intro H. exists (i, label). split; [reflexivity |].
      apply filter_In. split; [apply enumerate_In, H | apply Z.eqb_refl].
Qed.

Lemma group_labels_members_witness :
  In (1%Z, [1; 2]%nat) (group_labels small_labels) /\
  StronglySorted lt [1; 2]%nat /\
  forall i, In i [1; 2]%nat <-> nth_error small_labels i = Some 1%Z.
Proof.
  split.
  - right. left. reflexivity.
  - apply (group_labels_members small_labels 1%Z [1; 2]%nat).
    right. left. reflexivity.
Defined.

Lemma dict_append_first_members (d : Dict) (l : Z) (i : nat) :
  Forall (fun c => snd c <> []) d ->
  first_members (dict_append d l i)
  = if existsb (Z.eqb l) (map fst d) then first_members d
    else first_members d ++ [i].
Proof.
  induction 1 as [| [k ms] d Hc _ IH]; simpl; [reflexivity |].
  rewrite (Z.eqb_sym l k). destruct (k =? l)%Z; simpl.
  - destruct ms as [| m ms]; [contradiction | reflexivity].
  - rewrite IH. destruct (existsb (Z.eqb l) (map fst d)); reflexivity.
Qed.

Lemma group_fold_first_members (ls : list Z) (a : nat) (acc : Dict) :
  Forall (fun c => snd c <> []) acc ->
  StronglySorted lt (first_members acc) ->
  Forall (fun h => (h < a)%nat) (first_members acc) ->
  StronglySorted lt
    (first_members (fold_left group_step (combine (seq a (length ls)) ls) acc)).
Proof.
  revert a acc. induction ls as [| l ls IH]; intros a acc Hne Hs Hlt; simpl.
  - exact Hs.
  - apply IH.
    + apply dict_append_nonempty, Hne.
    + unfold group_step. simpl. rewrite dict_append_first_members by exact Hne.
      destruct (existsb (Z.eqb l) (map fst acc)); [exact Hs |].
      apply RunFacts.sorted_app; [exact Hs | repeat constructor |].
      intros x y Hx [<- | []]. rewrite Forall_forall in Hlt. auto.
    + unfold group_step. simpl. rewrite dict_append_first_members by exact Hne.
      destruct (existsb (Z.eqb l) (map fst acc)).
      * eapply Forall_impl; [| exact Hlt]. simpl. lia.
      * apply Forall_app. split.
        -- eapply Forall_impl; [| exact Hlt]. simpl. lia.
        -- repeat constructor.
Qed.

(** X2: the grouping loop lists the clusters in the order in which their
    labels first occur in the label array (their first members ascend), and
    the cluster ids are exactly the labels that occur. *)
Theorem group_labels_first_occurrence (cluster_labels : list Z) :
  StronglySorted lt (first_members (group_labels cluster_labels)) /\
  forall label,
    In label cluster_labels <->
    In label (map fst (group_labels cluster_labels)).
Proof.
  split.
  - unfold group_labels, enumerate.
    apply group_fold_first_members; constructor.
  - intro label. symmetry. apply group_labels_keys.
Qed.

Section SummaryFacts.
Variable cd : vector -> vector -> npfloat.
Variable mean : matrix -> vector.

Lemma summarize_cluster_valid (embeddings : matrix) (df : DataFrame)
    (s : Z) (label : Z) (indices : list nat) (sm : ClusterSummary) :
  summarize_cluster cd mean embeddings df s label indices = inl sm ->
  indices <> [] /\
  Forall (fun i => (i < length embeddings)%nat) indices /\
  (0 < length df)%nat.
Proof.
  unfold summarize_cluster. intro H.
  apply bind_inl in H. destruct H as (vecs & Hvecs & H).
  apply bind_inl in H. destruct H as (distances & Hdist & H).
  apply bind_inl in H. destruct H as (global & _ & H).
  apply bind_inl in H. destruct H as (rows & _ & H).
  apply bind_inl in H. destruct H as (pct & Hpct & _).
  split; [| split].
  - intros ->. simpl in Hvecs. injection Hvecs as <-.
    simpl in Hdist. discriminate.
  - apply (take_rows_in_range _ _ _ Hvecs).
  - unfold percentage_of in Hpct. destruct (length df); [discriminate | lia].
Qed.

(** X3: [get_representative_samples] returns only when every cluster has
    a member, every member is a row of the embedding matrix and, if there is
    a cluster at all, the frame has a row; otherwise the cluster without
    vectors, the index out of range or the division by the frame's length
    raises. *)
Theorem summaries_need_valid_members (clusters : Dict) (embeddings : matrix)
    (df : DataFrame) (samples_per_cluster : Z)
    (summaries : list ClusterSummary) :
  get_representative_samples cd mean clusters embeddings df samples_per_cluster
    = inl summaries ->
  Forall (fun c => snd c <> [] /\
                   Forall (fun i => (i < length embeddings)%nat) (snd c))
         clusters /\
  (clusters <> [] -> (0 < length df)%nat).
Proof.
  intro H. apply get_representative_samples_inl in H.
  destruct H as (sms & Hsms & _).
  apply summarize_all_spec in Hsms.
  split.
  - induction Hsms as [| c sm cs sms' Hhd _ IH]; constructor; [| exact IH].
    apply summarize_cluster_valid in Hhd. tauto.
  - intro Hne. destruct Hsms as [| c sm cs sms' Hhd _]; [congruence |].
    apply summarize_cluster_valid in Hhd. tauto.
Qed.

(** X4: the summaries that [get_representative_samples] returns are, up
    to order, one per cluster of the input mapping, with that cluster's id
    and its number of members as size. *)
Theorem one_summary_per_cluster (clusters : Dict) (embeddings : matrix)
    (df : DataFrame) (samples_per_cluster : Z)
    (summaries : list ClusterSummary) :
  get_representative_samples cd mean clusters embeddings df samples_per_cluster
    = inl summaries ->
  Permutation (map (fun sm => (cluster_id sm, size sm)) summaries)
              (map (fun c => (fst c, length (snd c))) clusters).
Proof.
  intro H. apply get_representative_samples_inl in H.
  destruct H as (sms & Hsms & ->).
  rewrite (Permutation_map _ (stable_sort_perm _ size_desc sms)).
  apply summarize_all_spec in Hsms.
  induction Hsms as [| c sm cs sms' Hhd _ IH]; simpl; [reflexivity |].
  apply summarize_cluster_id_size in Hhd. destruct Hhd as (-> & ->).
  apply perm_skip, IH.
Qed.

End SummaryFacts.

Lemma summaries_need_valid_members_witness :
  get_representative_samples cosine_distance_fixed exact_mean singleton_clusters
    demo_embeddings demo_df 1 = inl singleton_summaries /\
  Forall (fun c => snd c <> [] /\
                   Forall (fun i => (i < length demo_embeddings)%nat) (snd c))
         singleton_clusters /\
  (singleton_clusters <> [] -> (0 < length demo_df)%nat).
Proof.
  split.
  - vm_compute. reflexivity.
  - apply (summaries_need_valid_members cosine_distance_fixed exact_mean
             singleton_clusters demo_embeddings demo_df 1
             singleton_summaries).
    vm_compute. reflexivity.
Defined.

Lemma one_summary_per_cluster_witness :
  get_representative_samples cosine_distance_fixed exact_mean
    [(0%Z, [0; 1; 2]%nat)]
    demo_embeddings demo_df 2 = inl demo_summaries /\
  Permutation (map (fun sm => (cluster_id sm, size sm)) demo_summaries)
              [(0%Z, 3%nat)].
Proof.
  split.
  - vm_compute. reflexivity.
  - apply (one_summary_per_cluster cosine_distance_fixed exact_mean
             [(0%Z, [0; 1; 2]%nat)] demo_embeddings demo_df 2
             demo_summaries).
    vm_compute. reflexivity.
Defined.

(** ** Rounding and the sum of the percentages *)

Lemma round_half_even_error (x : Q) :
  - (1 # 2) <= inject_Z (round_half_even x) - x <= 1 # 2.
Proof.
  pose proof (Qfloor_le x) as Hlo.
  pose proof (Qlt_floor x) as Hhi.
  rewrite inject_Z_plus in Hhi. change (inject_Z 1) with 1 in Hhi.
  unfold round_half_even.
  destruct (Qcompare_spec (x - inject_Z (Qfloor x)) (1 # 2)) as [E | E | E].
  - destruct (Z.even (Qfloor x)).
    + split; lra.
    + rewrite inject_Z_plus. change (inject_Z 1) with 1. split; lra.
  - split; lra.
  - rewrite inject_Z_plus. change (inject_Z 1) with 1. split; lra.
Qed.

Lemma round_half_even_nonneg (x : Q) : 0 <= x -> (0 <= round_half_even x)%Z.
Proof.
  intro Hx.
  assert (Hf : (0 <= Qfloor x)%Z).
  { change 0%Z with (Qfloor 0). apply Qfloor_resp_le, Hx. }
  unfold round_half_even.
  destruct (x - inject_Z (Qfloor x) ?= 1 # 2); [destruct (Z.even _) | |]; lia.
Qed.

Lemma spacing_pos (q : Q) : 0 < spacing q.
Proof. apply Qpower_0_lt. reflexivity. Qed.

Lemma binary_exponent_small (q : Q) :
  q < 128 -> (binary_exponent q <= 6)%Z.
Proof.
  intro Hq. unfold binary_exponent. destruct (Qle_bool 1 q).
  - change 6%Z with (Z.log2 127). apply Z.log2_le_mono.
    assert (H : (Qfloor q < 128)%Z).
    { apply Z.lt_le_trans with (Qfloor q + 1)%Z; [lia |].
      assert (Hfl : inject_Z (Qfloor q) < inject_Z 128).
      { eapply Qle_lt_trans; [apply Qfloor_le | exact Hq]. }
      rewrite <- Zlt_Qlt in Hfl. lia. }
    lia.
  - pose proof (Z.log2_up_nonneg (Qceiling (/ q))). lia.
Qed.

Lemma spacing_small (q : Q) : q < 128 -> spacing q <= 1 # 70368744177664.
Proof.
  intro Hq. pose proof (binary_exponent_small q Hq) as He.
  unfold spacing.
  change (1 # 70368744177664) with (2 ^ (-46)).
  apply Qpower_le_compat_l; [lia | discriminate].
Qed.

Lemma round_positive_error (q : Q) :
  q < 128 ->
  - (1 # 140737488355328) <= round_positive q - q <= 1 # 140737488355328.
Proof.
  intro Hq. pose proof (spacing_small q Hq) as Hs.
  pose proof (spacing_pos q) as Hp.
  pose proof (round_half_even_error (q / spacing q)) as (Hlo & Hhi).
  unfold round_positive.
  set (s := spacing q) in *. set (m := inject_Z (round_half_even (q / s))) in *.
  assert (Hq' : q == q / s * s) by (field; lra).
  assert (H1 : m * s - q == (m - q / s) * s) by (rewrite Hq' at 1; ring).
  assert (H2 : (m - q / s) * s <= (1 # 2) * s).
  { apply Qmult_le_compat_r; lra. }
  assert (H3 : - (1 # 2) * s <= (m - q / s) * s).
  { apply Qmult_le_compat_r; lra. }
  split; lra.
Qed.

Lemma round_positive_nonneg (q : Q) : 0 <= q -> 0 <= round_positive q.
Proof.
  intro Hq. pose proof (spacing_pos q) as Hp. unfold round_positive.
  apply Qmult_le_0_compat; [| lra].
  change 0 with (inject_Z 0). rewrite <- Zle_Qle.
  apply round_half_even_nonneg. apply Qle_shift_div_l; lra.
Qed.

(** A float operation whose exact result is between 0 and 128 is off its
    exact result by at most [2^-47]. *)
Lemma float_round_error (q : Q) :
  0 <= q -> q < 128 ->
  0 <= float_round q /\
  - (1 # 140737488355328) <= float_round q - q <= 1 # 140737488355328.
Proof.
  intros H0 Hq. unfold float_round.
  destruct q as [n d]. destruct n as [| p | p]; simpl Qnum.
  - split; [lra |]. assert (0 # d == 0) by reflexivity. split; lra.
  - split; [apply round_positive_nonneg, H0 | apply round_positive_error, Hq].
  - exfalso. unfold Qle in H0. simpl in H0. lia.
Qed.

Lemma ratio_bounds (a b : nat) :
  (0 < b)%nat -> (a <= b)%nat ->
  0 <= inject_Z (Z.of_nat a) / inject_Z (Z.of_nat b) <= 1.
Proof.
  intros Hb Hab.
  assert (Hpos : 0 < inject_Z (Z.of_nat b)).
  { change 0 with (inject_Z 0). rewrite <- Zlt_Qlt. lia. }
  split.
  - apply Qle_shift_div_l; [exact Hpos |]. rewrite Qmult_0_l.
    change 0 with (inject_Z 0). rewrite <- Zle_Qle. lia.
  - apply Qle_shift_div_r; [exact Hpos |]. rewrite Qmult_1_l.
    rewrite <- Zle_Qle. lia.
Qed.

(** The percentage of a cluster is within half a hundredth, and the
    rounding of three float operations, of its exact share. *)
Lemma percentage_error (a b : nat) :
  (0 < b)%nat -> (a <= b)%nat ->
  let pct := round2 (float_mul (int_truediv (Z.of_nat a) (Z.of_nat b)) 100) in
  - ((1 # 200) + (1 # 1000000000000)) <= pct - exact_percentage a b
  /\ pct - exact_percentage a b <= (1 # 200) + (1 # 1000000000000).
Proof.
  intros Hb Hab. cbv zeta.
  pose proof (ratio_bounds a b Hb Hab) as (Hr0 & Hr1).
  unfold exact_percentage, round2, float_mul, int_truediv.
  set (r := inject_Z (Z.of_nat a) / inject_Z (Z.of_nat b)) in *.
  destruct (float_round_error r Hr0) as (Hq0 & Hq1 & Hq2); [lra |].
  set (q := float_round r) in *.
  destruct (float_round_error (q * 100)) as (Hx0 & Hx1 & Hx2); [lra | lra |].
  set (x := float_round (q * 100)) in *.
  pose proof (round_half_even_error (x * 100)) as (Hk1 & Hk2).
  assert (Hk0 : 0 <= inject_Z (round_half_even (x * 100))).
  { change 0 with (inject_Z 0). rewrite <- Zle_Qle.
    apply round_half_even_nonneg. lra. }
  set (k := inject_Z (round_half_even (x * 100))) in *.
  assert (Hy : k / 100 == k * (1 # 100)) by (unfold Qdiv; reflexivity).
  destruct (float_round_error (k / 100)) as (_ & Hp1 & Hp2); [lra | lra |].
  split; lra.
Qed.

Lemma round_half_even_comp (x y : Q) :
  x == y -> round_half_even x = round_half_even y.
Proof.
  intro E. unfold round_half_even.
  rewrite (Qfloor_comp _ _ E).
  assert (E' : x - inject_Z (Qfloor y) == y - inject_Z (Qfloor y))
    by (rewrite E; reflexivity).
  rewrite (Qcompare_comp _ _ E' (1 # 2) (1 # 2) (Qeq_refl _)). reflexivity.
Qed.

Lemma binary_exponent_comp (x y : Q) :
  x == y -> binary_exponent x = binary_exponent y.
Proof.
  intro E. unfold binary_exponent.
  assert (Eb : Qle_bool 1 x = Qle_bool 1 y).
  { destruct (Qle_bool 1 x) eqn:Hx, (Qle_bool 1 y) eqn:Hy; try reflexivity.
    - apply Qle_bool_iff in Hx. rewrite E in Hx.
      apply Qle_bool_iff in Hx. congruence.
    - apply Qle_bool_iff in Hy. rewrite <- E in Hy.
      apply Qle_bool_iff in Hy. congruence. }
  rewrite Eb, (Qfloor_comp _ _ E).
  assert (Ei : / x == / y) by (rewrite E; reflexivity).
  rewrite (Qceiling_comp _ _ Ei). reflexivity.
Qed.

Lemma round_positive_comp (x y : Q) :
  x == y -> round_positive x == round_positive y.
Proof.
  intro E. unfold round_positive, spacing.
  rewrite (binary_exponent_comp _ _ E).
  set (s := 2 ^ Z.max (binary_exponent y - 52) (-1074)).
  assert (Ed : x / s == y / s) by (rewrite E; reflexivity).
  rewrite (round_half_even_comp _ _ Ed). reflexivity.
Qed.

Lemma float_round_comp (x y : Q) :
  x == y -> float_round x == float_round y.
Proof.
  intro E. unfold float_round.
  destruct x as [n d], y as [n' d']. unfold Qeq in E. simpl in E.
  destruct n as [| p | p], n' as [| p' | p']; simpl Qnum; try lia;
    try reflexivity.
  - apply round_positive_comp. unfold Qeq. simpl. exact E.
  - apply Qopp_comp, round_positive_comp. unfold Qeq. simpl. lia.
Qed.

Lemma float_round_1 : float_round 1 == 1.
Proof. vm_compute. reflexivity. Qed.

Lemma float_round_100 : float_round 100 == 100.
Proof. vm_compute. reflexivity. Qed.

(** The share of all of [n] in [n] is 100 without any rounding. *)
Lemma full_share (n : nat) :
  (0 < n)%nat ->
  float_mul (int_truediv (Z.of_nat n) (Z.of_nat n)) 100 == 100.
Proof.
  intro Hn. unfold float_mul, int_truediv.
  assert (H1 : inject_Z (Z.of_nat n) / inject_Z (Z.of_nat n) == 1).
  { assert (Hne : ~ inject_Z (Z.of_nat n) == 0).
    { intro E. unfold Qeq in E. simpl in E. lia. }
    field. exact Hne. }
  assert (H2 : float_round (inject_Z (Z.of_nat n) / inject_Z (Z.of_nat n))
               == 1).
  { eapply Qeq_trans; [apply float_round_comp, H1 | apply float_round_1]. }
  eapply Qeq_trans; [| apply float_round_100].
  apply float_round_comp. rewrite H2. reflexivity.
Qed.

Lemma percentage_of_inl (members total : nat) (pct : Q) :
  percentage_of members total = inl pct ->
  (0 < total)%nat /\
  pct = round2 (float_mul
                  (int_truediv (Z.of_nat members) (Z.of_nat total)) 100).
Proof.
  unfold percentage_of. destruct total; [discriminate |].
  intro H. injection H as <-. split; [lia | reflexivity].
Qed.

(** 23 of 160 rows: the exact share is 14.375, the product computed in
    floats lies just below it, and the percentage is the double nearest to
    14.37; for 93 of 160 rows, with the exact share 58.125, it is the one
    nearest to 58.13. *)
Example percentage_23_of_160 :
  exists q, percentage_of 23 160 = inl q /\ q == float_round (1437 # 100).
Proof. eexists. split; [reflexivity | vm_compute; reflexivity]. Qed.

Example percentage_93_of_160 :
  exists q, percentage_of 93 160 = inl q /\ q == float_round (5813 # 100).
Proof. eexists. split; [reflexivity | vm_compute; reflexivity]. Qed.

Lemma qsum_perm (l l' : list Q) : Permutation l l' -> qsum l == qsum l'.
Proof.
  unfold qsum. induction 1; simpl; lra.
Qed.

Lemma exact_percentage_sum (sizes : list nat) (total : nat) :
  qsum (map (fun m => exact_percentage m total) sizes)
  == exact_percentage (list_sum sizes) total.
Proof.
  unfold exact_percentage, qsum.
  induction sizes as [| m sizes IH]; simpl fold_right; simpl list_sum.
  - unfold Qdiv. change (inject_Z (Z.of_nat 0)) with 0. ring.
  - rewrite IH, Nat2Z.inj_add, inject_Z_plus. unfold Qdiv. ring.
Qed.

Lemma exact_percentage_all (n : nat) :
  (0 < n)%nat -> exact_percentage n n == 100.
Proof.
  intro Hn. unfold exact_percentage.
  assert (Hne : ~ inject_Z (Z.of_nat n) == 0).
  { intro E. unfold Qeq in E. simpl in E. lia. }
  field. exact Hne.
Qed.

Section PercentageFacts.
Variable cd : vector -> vector -> npfloat.
Variable mean : matrix -> vector.

Lemma summarize_cluster_percentage (embeddings : matrix) (df : DataFrame)
    (s : Z) (label : Z) (indices : list nat) (sm : ClusterSummary) :
  summarize_cluster cd mean embeddings df s label indices = inl sm ->
  size sm = length indices /\
  percentage sm
  = round2 (float_mul
              (int_truediv (Z.of_nat (length indices))
                 (Z.of_nat (length df))) 100).
Proof.
  unfold summarize_cluster. intro H.
  apply bind_inl in H. destruct H as (vecs & _ & H).
  apply bind_inl in H. destruct H as (distances & _ & H).
  apply bind_inl in H. destruct H as (global & _ & H).
  apply bind_inl in H. destruct H as (rows & _ & H).
  apply bind_inl in H. destruct H as (pct & Hpct & H).
  injection H as <-. simpl.
  apply percentage_of_inl in Hpct. tauto.
Qed.

(** The summaries are those of the clusters, one each, in another order. *)
Lemma summaries_of_clusters (clusters : Dict) (embeddings : matrix)
    (df : DataFrame) (s : Z) (summaries : list ClusterSummary) :
  get_representative_samples cd mean clusters embeddings df s = inl summaries ->
  exists sms,
    Permutation summaries sms /\
    Forall2 (fun c sm =>
               summarize_cluster cd mean embeddings df s (fst c) (snd c)
               = inl sm)
            clusters sms.
Proof.
  intro H. apply get_representative_samples_inl in H.
  destruct H as (sms & Hsms & ->). exists sms. split.
  - apply stable_sort_perm.
  - apply summarize_all_spec, Hsms.
Qed.

Lemma percentages_near_exact (clusters : Dict) (embeddings : matrix)
    (df : DataFrame) (s : Z) (sms : list ClusterSummary) :
  (0 < length df)%nat ->
  Forall (fun c => (length (snd c) <= length df)%nat) clusters ->
  Forall2 (fun c sm =>
             summarize_cluster cd mean embeddings df s (fst c) (snd c) = inl sm)
          clusters sms ->
  let exact :=
    qsum (map (fun m => exact_percentage m (length df))
              (map (fun c => length (snd c)) clusters)) in
  let bound := inject_Z (Z.of_nat (length clusters)) * rounding_slack in
  - bound <= qsum (map percentage sms) - exact <= bound.
Proof.
  intros Hn Hsizes H. unfold rounding_slack.
  induction H as [| c sm cs sms Hhd _ IH]; cbv zeta in *.
  - change (inject_Z (Z.of_nat (length (@nil (Z * list nat))))) with 0.
    unfold qsum. simpl. split; lra.
  - apply summarize_cluster_percentage in Hhd. destruct Hhd as (_ & Hpct).
    apply Forall_cons_iff in Hsizes. destruct Hsizes as (Hc & Hcs).
    pose proof (percentage_error (length (snd c)) (length df) Hn Hc)
      as (Hlo & Hhi).
    cbv zeta in Hlo, Hhi. rewrite <- Hpct in Hlo, Hhi.
    destruct (IH Hcs) as (IHlo & IHhi).
    cbn [length map].
    rewrite Nat2Z.inj_succ, <- Z.add_1_r, inject_Z_plus.
    change (inject_Z 1) with 1.
    unfold qsum in *. cbn [fold_right]. split; lra.
Qed.

Lemma partition_sizes (clusters : Dict) (n : nat) :
  is_partition clusters n ->
  list_sum (map (fun c => length (snd c)) clusters) = n.
Proof.
  intros (_ & Hp). apply Permutation_length in Hp.
  rewrite length_concat, map_map, length_seq in Hp. exact Hp.
Qed.

Lemma list_sum_In (x : nat) (l : list nat) :
  In x l -> (x <= list_sum l)%nat.
Proof.
  induction l as [| y l IH]; simpl; [intros [] |].
  intros [-> | H]; [lia | specialize (IH H); lia].
Qed.

Lemma partition_size_bound (clusters : Dict) (n : nat) :
  is_partition clusters n ->
  Forall (fun c => (length (snd c) <= n)%nat) clusters.
Proof.
  intro Hp. apply partition_sizes in Hp. apply Forall_forall.
  intros c Hc. rewrite <- Hp.
  apply list_sum_In, (in_map (fun c => length (snd c))), Hc.
Qed.

(** X5: when the clusters partition the rows of a frame with at least
    one row, the percentages of the summaries add up to 100 up to the
    rounding to two decimals and the rounding of the float operations: each
    percentage is the double that Python computes, and their sum is within
    0.005 + 10^-12 per cluster of 100. *)
Theorem percentages_sum_near_100 (clusters : Dict) (embeddings : matrix)
    (df : DataFrame) (samples_per_cluster : Z)
    (summaries : list ClusterSummary) :
  get_representative_samples cd mean clusters embeddings df samples_per_cluster
    = inl summaries ->
  is_partition clusters (length df) ->
  (0 < length df)%nat ->
  Qabs (qsum (map percentage summaries) - 100)
    <= inject_Z (Z.of_nat (length clusters)) * rounding_slack.
Proof.
  intros H Hpart Hn. apply summaries_of_clusters in H.
  destruct H as (sms & Hperm & Hall).
  pose proof (percentages_near_exact _ _ _ _ _ Hn
                (partition_size_bound _ _ Hpart) Hall) as Hnear.
  simpl in Hnear.
  rewrite exact_percentage_sum, (partition_sizes _ _ Hpart),
    (exact_percentage_all _ Hn) in Hnear.
  rewrite (qsum_perm _ _ (Permutation_map percentage Hperm)).
  apply Qabs_Qle_condition. exact Hnear.
Qed.

End PercentageFacts.

Lemma percentages_sum_near_100_witness :
  map percentage singleton_summaries
    = repeat (round2 (float_mul (int_truediv 1 3) 100)) 3 /\
  is_partition singleton_clusters (length demo_df) /\
  Qabs (qsum (map percentage singleton_summaries) - 100)
    <= inject_Z (Z.of_nat (length singleton_clusters)) * rounding_slack.
Proof.
  assert (Hp : is_partition singleton_clusters (length demo_df)).
  { apply (group_labels_partition [0; 1; 2]%Z). }
  split; [vm_compute; reflexivity |].
  split; [exact Hp |].
  apply (percentages_sum_near_100 cosine_distance_fixed exact_mean
           singleton_clusters
           demo_embeddings demo_df 1 singleton_summaries).
  - vm_compute. reflexivity.
  - exact Hp.
  - simpl. lia.
Defined.

(** ** Coverage of the saved output *)

Lemma list_sum_perm (l l' : list nat) :
  Permutation l l' -> list_sum l = list_sum l'.
Proof. induction 1; simpl; lia. Qed.

Lemma summaries_total_size (cd : vector -> vector -> npfloat)
    (mean : matrix -> vector)
    (clusters : Dict) (embeddings : matrix) (df : DataFrame) (s : Z)
    (summaries : list ClusterSummary) :
  get_representative_samples cd mean clusters embeddings df s = inl summaries ->
  list_sum (map size summaries)
  = list_sum (map (fun c => length (snd c)) clusters).
Proof.
  intro H. apply summaries_of_clusters in H.
  destruct H as (sms & Hperm & Hall).
  rewrite (list_sum_perm _ _ (Permutation_map size Hperm)).
  clear Hperm.
  induction Hall as [| c sm cs sms' Hhd _ IH]; simpl; [reflexivity |].
  apply summarize_cluster_id_size in Hhd. destruct Hhd as (_ & Hsize).
  rewrite Hsize, IH. reflexivity.
Qed.

Section SavedOutput.
Variable fit_predict : matrix -> Q -> result (list Z).
Variable cd : vector -> vector -> npfloat.
Variable mean : matrix -> vector.
Variable generate_embeddings : list string -> matrix.

(** The libraries return one label per vector and one vector per text. *)
Hypothesis fit_predict_rows : forall X t labels,
  fit_predict X t = inl labels -> length labels = length X.
Hypothesis one_vector_per_text : forall texts,
  length (generate_embeddings texts) = length texts.

(** X6: when [main] saves an output, [total_messages] is the number of
    messages loaded, the sizes of the saved clusters add up to it, and the
    coverage that [calculate_metrics] computes from the output is 100. *)
Theorem saved_output_coverage (raw_messages : list RawMessage)
    (intent_map_str : string) (out : Output) :
  main fit_predict cd mean generate_embeddings raw_messages intent_map_str
    = inl (Some out) ->
  total_messages out = length raw_messages /\
  list_sum (map size (clusters out)) = total_messages out /\
  exists q,
    coverage_ratio (clusters out) (total_messages out) = inl q /\ q == 100.
Proof.
  unfold main.
  set (df := load_and_preprocess_data raw_messages).
  assert (Hdf : length df = length raw_messages) by apply length_map.
  destruct df as [| row rows] eqn:Edf; [discriminate |].
  rewrite <- Edf in *.
  set (vectors := generate_embeddings (map full_text df)).
  intro H.
  apply bind_inl in H. destruct H as (raw_clusters & Hraw & H).
  apply bind_inl in H. destruct H as (refined & Href & H).
  injection H as <-. cbn [total_messages clusters].
  assert (Hpart : is_partition raw_clusters (length df)).
  { unfold perform_clustering in Hraw.
    apply bind_inl in Hraw. destruct Hraw as (labels & Hlabels & Hraw).
    injection Hraw as <-.
    replace (length df) with (length labels).
    - apply group_labels_partition.
    - rewrite (fit_predict_rows _ _ _ Hlabels). unfold vectors.
      rewrite one_vector_per_text. apply length_map. }
  assert (Hsum : list_sum (map size refined) = length df).
  { rewrite (summaries_total_size _ _ _ _ _ _ _ Href).
    apply partition_sizes, Hpart. }
  split; [exact Hdf |]. split; [exact Hsum |].
  unfold coverage_ratio. rewrite Hsum.
  destruct (length df) as [| n] eqn:En; [rewrite Edf in En; discriminate |].
  eexists. split; [reflexivity |].
  apply (full_share (S n)). lia.
Qed.

End SavedOutput.

Lemma parity_embeddings_length (text_list : list string) :
  length (parity_embeddings text_list) = length text_list.
Proof. apply length_map. Qed.

Lemma saved_output_coverage_witness :
  main Engine.fit_predict cosine_distance_fixed exact_mean parity_embeddings
    demo_messages "CURRENT INTENT MAP:" = inl (Some demo_output) /\
  total_messages demo_output = length demo_messages /\
  list_sum (map size (clusters demo_output)) = total_messages demo_output /\
  exists q,
    coverage_ratio (clusters demo_output) (total_messages demo_output)
      = inl q /\ q == 100.
Proof.
  split.
  - vm_compute. reflexivity.
  - apply (saved_output_coverage Engine.fit_predict cosine_distance_fixed
             exact_mean
             parity_embeddings EngineFacts.fit_predict_length
             parity_embeddings_length demo_messages
             "CURRENT INTENT MAP:" demo_output).
    vm_compute. reflexivity.
Defined.

(** ** What the PERFECT verdict means *)

Lemma count_ratio_one (a b : nat) : count_ratio a b == 1 -> a = b.
Proof.
  unfold count_ratio. destruct b as [| b].
  - unfold Qdiv, Qeq, Qmult, Qinv, inject_Z. cbn. lia.
  - unfold Qdiv, Qeq, Qmult, Qinv, inject_Z.
    cbn [Qnum Qden Z.of_nat].
    rewrite Pos.mul_1_l, Zpos_P_of_succ_nat. lia.
Qed.

Lemma filter_length_all {A : Type} (f : A -> bool) (l : list A) :
  length (filter f l) = length l -> Forall (fun x => f x = true) l.
Proof.
  induction l as [| x l IH]; simpl; [constructor |].
  destruct (f x) eqn:E; simpl; intro H.
  - constructor; [exact E | apply IH; lia].
  - pose proof (filter_length_le f l). lia.
Qed.

Lemma injected_in_pos (df : DataFrame) (indices : list nat) (i : nat) :
  In i indices -> is_injected_row df i ->
  (0 < injected_in df indices)%nat.
Proof.
  intros Hin (row & Hrow & Hflag). unfold injected_in.
  assert (H : In i (filter (fun j => match nth_error df j with
                                     | Some r => injected_flag r
                                     | None => false
                                     end) indices)).
  { apply filter_In. split; [exact Hin |]. rewrite Hrow. exact Hflag. }
  destruct (filter _ indices); [destruct H | simpl; lia].
Qed.

Lemma injected_in_all_members (df : DataFrame) (indices : list nat) :
  injected_in df indices = length indices ->
  forall i, In i indices -> is_injected_row df i.
Proof.
  intros H i Hi. apply filter_length_all in H.
  rewrite Forall_forall in H. specialize (H i Hi). unfold is_injected_row.
  destruct (nth_error df i) as [row |]; [| discriminate].
  exists row. auto.
Qed.

Lemma verdict_perfect (r : Report) :
  verdict_of r = PERFECT ->
  best_cluster_id r <> (-1)%Z /\ best_recall r == 1 /\ best_precision r == 1.
Proof.
  unfold verdict_of.
  destruct (best_cluster_id r =? -1)%Z eqn:E; [discriminate |].
  destruct (Qeq_bool (best_recall r) 1) eqn:E1;
    destruct (Qeq_bool (best_precision r) 1) eqn:E2; simpl;
    try (destruct (negb (Qle_bool (best_recall r) (8 # 10))); discriminate).
  intros _. apply Z.eqb_neq in E. apply Qeq_bool_iff in E1, E2. auto.
Qed.

(** X7: when the injection test ends with the verdict PERFECT, the
    cluster it reports holds exactly the injected rows: every injected row
    is a member and every member is injected. *)
Theorem perfect_verdict_exact_cluster (K : nat) (df_final : DataFrame)
    (cluster_labels : list Z) (r : Report) :
  (0 < K)%nat ->
  injected_sum df_final = K ->
  length cluster_labels = length df_final ->
  analyze_clusters K df_final (group_labels cluster_labels) initial_report
    = inl r ->
  verdict_of r = PERFECT ->
  exists members,
    In (best_cluster_id r, members) (group_labels cluster_labels) /\
    forall i, In i members <-> is_injected_row df_final i.
Proof.
  intros HK Hinj Hlen Hr Hv.
  apply verdict_perfect in Hv. destruct Hv as (Hid & Hrec & Hprec).
  set (clusters := group_labels cluster_labels) in *.
  pose proof (clusters_partition _ _ Hlen) as Hpart. fold clusters in Hpart.
  pose proof (clusters_total _ _ _ Hinj Hlen) as Htot. fold clusters in Htot.
  destruct (existsb (qualifies K df_final) clusters) eqn:Ex.
  - apply existsb_exists in Ex. destruct Ex as (c & Hin & Hq).
    destruct (analyze_clusters_some _ _ _ HK Hinj Hlen c Hin Hq)
      as (Hr' & _ & _).
    fold clusters in Hr'. rewrite Hr' in Hr. injection Hr as <-.
    simpl in Hrec, Hprec, Hid |- *.
    unfold cluster_recall, recall_of in Hrec.
    unfold cluster_precision, precision_of in Hprec.
    apply count_ratio_one in Hrec, Hprec.
    exists (snd c). split; [destruct c; exact Hin |].
    intro i. split; [apply injected_in_all_members, Hprec |].
    intros Hi.
    assert (Hlt : (i < length df_final)%nat).
    { destruct Hi as (row & Hrow & _). apply nth_error_Some. congruence. }
    destruct (partition_one_cluster _ _ i Hpart Hlt)
      as (c' & Hin' & Hic' & _ & _).
    destruct (in_split _ _ Hin) as (pre & post & E).
    rewrite E in Htot, Hin'.
    rewrite injected_total_app in Htot.
    change (c :: post) with ([c] ++ post) in Htot.
    rewrite injected_total_app in Htot.
    unfold injected_total at 2 in Htot. simpl in Htot.
    pose proof (injected_in_pos _ _ _ Hic' Hi) as Hpos.
    apply in_app_or in Hin'. destruct Hin' as [H | [H | H]].
    + apply (injected_total_In df_final) in H. lia.
    + subst c'. exact Hic'.
    + apply (injected_total_In df_final) in H. lia.
  - exfalso. apply Hid.
    assert (Hnone : Forall (fun c => qualifies K df_final c = false) clusters).
    { apply Forall_forall. intros c Hc.
      destruct (qualifies K df_final c) eqn:E; [| reflexivity].
      assert (existsb (qualifies K df_final) clusters = true)
        by (apply existsb_exists; exists c; auto).
      congruence. }
    pose proof (analyze_clusters_none _ _ _ Hlen Hnone) as Hr'.
    fold clusters in Hr'. rewrite Hr' in Hr.
    injection Hr as <-. reflexivity.
Qed.

Lemma perfect_verdict_exact_cluster_witness :
  verdict_of {| best_cluster_id := 1; best_recall := 2 # 2;
                best_precision := 2 # 2 |} = PERFECT /\
  exists members,
    In (1%Z, members) (group_labels small_labels) /\
    forall i, In i members <-> is_injected_row small_df_final i.
Proof.
  split.
  - reflexivity.
  - apply (perfect_verdict_exact_cluster 2 small_df_final small_labels
             {| best_cluster_id := 1; best_recall := 2 # 2;
                best_precision := 2 # 2 |}).
    + lia.
    + reflexivity.
    + reflexivity.
    + reflexivity.
    + reflexivity.
Defined.

(** ** The string operations on examples *)

Example slugify_docstring :
  slugify "Product Safety" = "product_safety"%string.
Proof. reflexivity. Qed.

Example slugify_drops_punctuation : slugify "a_B-c 9!" = "abc_9"%string.
Proof. reflexivity. Qed.

Example parse_intent_name_two_parts :
  parse_intent_name "About Product > Product Safety"
  = Some ("About Product", "Product Safety")%string.
Proof. reflexivity. Qed.

Example parse_intent_name_three_parts :
  parse_intent_name " A  >  B > C" = Some ("A", "B")%string.
Proof. reflexivity. Qed.

Example parse_intent_name_malformed :
  parse_intent_name "New Intent" = None.
Proof. reflexivity. Qed.

Example strip_both_ends : strip "  a b  " = "a b"%string.
Proof. reflexivity. Qed.

(** ** The intent map under [update_map] *)

Lemma secondary_exists_app_true (ss extra : list SecondaryIntent)
    (name : string) :
  secondary_exists ss name = Some true ->
  secondary_exists (ss ++ extra) name = Some true.
Proof.
  induction ss as [| s ss IH]; simpl; [discriminate |].
  destruct (sec_name s) as [n |]; [| discriminate].
  destruct (String.eqb (lower n) (lower name)); [reflexivity | exact IH].
Qed.

Lemma secondary_exists_app_false (ss extra : list SecondaryIntent)
    (name : string) :
  secondary_exists ss name = Some false ->
  secondary_exists (ss ++ extra) name = secondary_exists extra name.
Proof.
  induction ss as [| s ss IH]; simpl; [reflexivity |].
  destruct (sec_name s) as [n |]; [| discriminate].
  destruct (String.eqb (lower n) (lower name)); [discriminate | exact IH].
Qed.

Lemma secondary_exists_new (name ptype reasoning : string)
    (rest : list SecondaryIntent) :
  secondary_exists (new_entry name ptype reasoning :: rest) name = Some true.
Proof. simpl. rewrite String.eqb_refl. reflexivity. Qed.

Lemma primary_extends_refl (p : PrimaryIntent) : primary_extends p p.
Proof.
  unfold primary_extends. repeat split.
  destruct (secondary_intents p) as [ss |]; [| reflexivity].
  exists []. rewrite app_nil_r. split; [reflexivity | constructor].
Qed.

Lemma primary_extends_trans (p q r : PrimaryIntent) :
  primary_extends p q -> primary_extends q r -> primary_extends p r.
Proof.
  intros (Hid1 & Hn1 & H1) (Hid2 & Hn2 & H2).
  split; [congruence |]. split; [congruence |].
  destruct (secondary_intents p) as [ss |].
  - destruct H1 as (a1 & E1 & F1). rewrite E1 in H2.
    destruct H2 as (a2 & E2 & F2). exists (a1 ++ a2).
    rewrite app_assoc. split; [exact E2 | apply Forall_app; auto].
  - rewrite H1 in H2. exact H2.
Qed.

Lemma add_secondary_extends (name ptype reasoning : string)
    (p p' : PrimaryIntent) :
  add_secondary name ptype reasoning p = Some p' -> primary_extends p p'.
Proof.
  unfold add_secondary.
  destruct (secondary_intents p) as [ss |] eqn:Ess; [| discriminate].
  destruct (secondary_exists ss name) as [[|] |]; [| | discriminate];
    intro H; injection H as <-.
  - apply primary_extends_refl.
  - unfold primary_extends. simpl. rewrite Ess. repeat split.
    exists [new_entry name ptype reasoning]. split; [reflexivity |].
    constructor; [| constructor]. exists name, ptype, reasoning. reflexivity.
Qed.

Lemma add_secondary_checked (name ptype reasoning : string)
    (p p' : PrimaryIntent) :
  add_secondary name ptype reasoning p = Some p' ->
  check_secondary name p' = Some p'.
Proof.
  unfold add_secondary, check_secondary.
  destruct (secondary_intents p) as [ss |] eqn:Ess; [| discriminate].
  destruct (secondary_exists ss name) as [[|] |] eqn:Eex; [| | discriminate];
    intro H; injection H as <-.
  - rewrite Ess, Eex. reflexivity.
  - simpl. rewrite (secondary_exists_app_false _ _ _ Eex).
    rewrite secondary_exists_new. reflexivity.
Qed.

Lemma check_secondary_inv (name : string) (p p' : PrimaryIntent) :
  check_secondary name p = Some p' ->
  p' = p /\
  exists ss, secondary_intents p = Some ss /\
             secondary_exists ss name = Some true.
Proof.
  unfold check_secondary.
  destruct (secondary_intents p) as [ss |]; [| discriminate].
  destruct (secondary_exists ss name) as [[|] |] eqn:E; try discriminate.
  intro H. injection H as <-. split; [reflexivity |]. exists ss. auto.
Qed.

Lemma check_secondary_add (name ptype reasoning : string)
    (p p' : PrimaryIntent) :
  check_secondary name p = Some p' ->
  add_secondary name ptype reasoning p = Some p'.
Proof.
  intro H. apply check_secondary_inv in H.
  destruct H as (-> & ss & Ess & Eex).
  unfold add_secondary. rewrite Ess, Eex. reflexivity.
Qed.

Lemma check_secondary_extends (name : string) (p q : PrimaryIntent) :
  check_secondary name p = Some p -> primary_extends p q ->
  check_secondary name q = Some q.
Proof.
  intros H (_ & _ & Hss). apply check_secondary_inv in H.
  destruct H as (_ & ss & Ess & Eex). rewrite Ess in Hss.
  destruct Hss as (added & Eq & _).
  unfold check_secondary. rewrite Eq.
  rewrite (secondary_exists_app_true _ _ _ Eex). reflexivity.
Qed.

Lemma update_first_ext (m m' : list PrimaryIntent) (name : string)
    (f g : PrimaryIntent -> option PrimaryIntent) :
  (forall p p', f p = Some p' -> g p = Some p') ->
  update_first m name f = Some (Some m') ->
  update_first m name g = Some (Some m').
Proof.
  intro Hfg. revert m'. induction m as [| p rest IH]; intro m'; simpl;
    [discriminate |].
  destruct (primary_intent_name p) as [n |]; [| discriminate].
  destruct (String.eqb (lower n) (lower name)).
  - destruct (f p) as [p' |] eqn:E; [| discriminate].
    rewrite (Hfg _ _ E). auto.
  - destruct (update_first rest name f) as [[rest' |] |]; try discriminate.
    rewrite (IH rest' eq_refl). auto.
Qed.

Lemma update_first_none (m : list PrimaryIntent) (name : string)
    (f g : PrimaryIntent -> option PrimaryIntent) :
  update_first m name f = Some None -> update_first m name g = Some None.
Proof.
  induction m as [| p rest IH]; simpl; [reflexivity |].
  destruct (primary_intent_name p) as [n |]; [| discriminate].
  destruct (String.eqb (lower n) (lower name)).
  - destruct (f p); discriminate.
  - destruct (update_first rest name f) as [[rest' |] |]; try discriminate.
    intros _. rewrite (IH eq_refl). reflexivity.
Qed.

Lemma update_first_extends (m m' : list PrimaryIntent) (name : string)
    (f : PrimaryIntent -> option PrimaryIntent) :
  (forall p p', f p = Some p' -> primary_extends p p') ->
  update_first m name f = Some (Some m') ->
  Forall2 primary_extends m m'.
Proof.
  intro Hf. revert m'. induction m as [| p rest IH]; intro m'; simpl;
    [discriminate |].
  destruct (primary_intent_name p) as [n |]; [| discriminate].
  destruct (String.eqb (lower n) (lower name)).
  - destruct (f p) as [p' |] eqn:E; [| discriminate].
    intro H. injection H as <-. constructor; [apply Hf, E |].
    clear. induction rest; constructor; auto using primary_extends_refl.
  - destruct (update_first rest name f) as [[rest' |] |]; try discriminate.
    intro H. injection H as <-.
    constructor; [apply primary_extends_refl | apply IH; reflexivity].
Qed.

(** After the update the intent is in the map. *)
Lemma update_first_covered (m m' : list PrimaryIntent)
    (pname sname ptype reasoning : string) :
  update_first m pname (add_secondary sname ptype reasoning) = Some (Some m') ->
  covered m' pname sname.
Proof.
  unfold covered. revert m'. induction m as [| p rest IH]; intro m'; simpl;
    [discriminate |].
  destruct (primary_intent_name p) as [n |] eqn:En; [| discriminate].
  destruct (String.eqb (lower n) (lower pname)) eqn:Em.
  - destruct (add_secondary sname ptype reasoning p) as [p' |] eqn:E;
      [| discriminate].
    intro H. injection H as <-. simpl.
    destruct (add_secondary_extends _ _ _ _ _ E) as (_ & Hn & _).
    rewrite Hn, En, Em, (add_secondary_checked _ _ _ _ _ E). reflexivity.
  - destruct (update_first rest pname _) as [[rest' |] |]; try discriminate.
    intro H. injection H as <-. simpl.
    rewrite En, Em, (IH rest' eq_refl). reflexivity.
Qed.

Lemma update_first_created (m : list PrimaryIntent)
    (pname sname : string) (f : PrimaryIntent -> option PrimaryIntent)
    (target : PrimaryIntent) :
  update_first m pname f = Some None ->
  primary_intent_name target = Some pname ->
  check_secondary sname target = Some target ->
  covered (m ++ [target]) pname sname.
Proof.
  unfold covered. intros Hnone Hname Hcheck.
  induction m as [| p rest IH]; simpl in *.
  - rewrite Hname, String.eqb_refl, Hcheck. reflexivity.
  - destruct (primary_intent_name p) as [n |]; [| discriminate].
    destruct (String.eqb (lower n) (lower pname)).
    + destruct (f p); discriminate.
    + destruct (update_first rest pname f) as [[rest' |] |];
        try discriminate.
      rewrite (IH eq_refl). reflexivity.
Qed.

Lemma covered_app (m extra : list PrimaryIntent) (pname sname : string) :
  covered m pname sname -> covered (m ++ extra) pname sname.
Proof.
  unfold covered. induction m as [| p rest IH]; simpl; [discriminate |].
  destruct (primary_intent_name p) as [n |]; [| discriminate].
  destruct (String.eqb (lower n) (lower pname)).
  - destruct (check_secondary sname p) as [p' |] eqn:E; [| discriminate].
    intro H. injection H as ->. reflexivity.
  - destruct (update_first rest pname _) as [[rest' |] |] eqn:E;
      try discriminate.
    intro H. injection H as ->. rewrite (IH eq_refl). reflexivity.
Qed.

Lemma covered_extends (m kept : list PrimaryIntent) (pname sname : string) :
  covered m pname sname -> Forall2 primary_extends m kept ->
  covered kept pname sname.
Proof.
  unfold covered. intros Hc Hext. revert Hc.
  induction Hext as [| p q rest rest' Hpq _ IH]; simpl; [discriminate |].
  pose proof Hpq as (Hid & Hn & Hss). rewrite Hn.
  destruct (primary_intent_name p) as [n |]; [| discriminate].
  destruct (String.eqb (lower n) (lower pname)).
  - destruct (check_secondary sname p) as [p' |] eqn:E; [| discriminate].
    intros _. destruct (check_secondary_inv _ _ _ E) as (-> & _).
    rewrite (check_secondary_extends _ _ _ E Hpq).
    reflexivity.
  - destruct (update_first rest pname _) as [[rest0 |] |] eqn:E;
      try discriminate.
    intro H. injection H as ->. rewrite (IH eq_refl). reflexivity.
Qed.

Lemma map_extends_refl (m : list PrimaryIntent) : map_extends m m.
Proof.
  exists m, []. rewrite app_nil_r. split; [reflexivity |]. split.
  - induction m; constructor; auto using primary_extends_refl.
  - constructor.
Qed.

Lemma pipeline_primary_extends (p q : PrimaryIntent) :
  pipeline_primary p -> primary_extends p q -> pipeline_primary q.
Proof.
  intros (name & added & -> & Hall) (Hid & Hn & Hss). simpl in *.
  destruct Hss as (more & Hq & Hmore).
  exists name, (added ++ more). split.
  - destruct q. simpl in *. congruence.
  - apply Forall_app. auto.
Qed.

Lemma map_extends_trans (m1 m2 m3 : list PrimaryIntent) :
  map_extends m1 m2 -> map_extends m2 m3 -> map_extends m1 m3.
Proof.
  intros (k1 & c1 & -> & H1 & Hc1) (k2 & c2 & -> & H2 & Hc2).
  apply Forall2_app_inv_l in H2.
  destruct H2 as (k2a & k2b & Ha & Hb & ->).
  exists k2a, (k2b ++ c2). split; [rewrite app_assoc; reflexivity |]. split.
  - clear - H1 Ha. revert k2a Ha.
    induction H1 as [| p q m k Hpq _ IH]; intros k2a Ha.
    + inversion Ha. constructor.
    + inversion Ha as [| q' r k' k2 Hqr Hrest]; subst.
      constructor; [eapply primary_extends_trans; eauto | apply IH, Hrest].
  - apply Forall_app. split; [| exact Hc2].
    clear - Hc1 Hb. induction Hb as [| p q c k Hpq _ IH]; [constructor |].
    inversion Hc1; subst.
    constructor; [eapply pipeline_primary_extends; eauto | apply IH; auto].
Qed.

Lemma apply_change_extends (m m' : list PrimaryIntent) (c : Change) :
  apply_change m c = Some m' -> map_extends m m'.
Proof.
  unfold apply_change.
  destruct (parse_intent_name (Intent_Name c)) as [[pname sname] |].
  - destruct (update_first m pname _) as [[m1 |] |] eqn:E; [| | discriminate].
    + intro H. injection H as <-. exists m1, [].
      rewrite app_nil_r. split; [reflexivity |].
      split; [| constructor].
      eapply update_first_extends; [| exact E].
      intros p p'. apply add_secondary_extends.
    + unfold add_secondary. simpl. intro H. injection H as <-.
      exists m. eexists. split; [reflexivity |]. split.
      * clear. induction m; constructor; auto using primary_extends_refl.
      * constructor; [| constructor].
        exists pname. eexists. split; [reflexivity |].
        constructor; [| constructor].
        exists sname, (Proposal c), (Reasoning c). reflexivity.
  - intro H. injection H as <-. apply map_extends_refl.
Qed.

Lemma apply_changes_extends (m m' : list PrimaryIntent)
    (changes : list Change) :
  apply_changes m changes = Some m' -> map_extends m m'.
Proof.
  revert m. induction changes as [| c cs IH]; intro m; simpl.
  - intro H. injection H as <-. apply map_extends_refl.
  - destruct (apply_change m c) as [m1 |] eqn:E; [| discriminate].
    intro H. eapply map_extends_trans; [eapply apply_change_extends, E |].
    apply IH, H.
Qed.

Lemma covered_map_extends (m m' : list PrimaryIntent) (pname sname : string) :
  covered m pname sname -> map_extends m m' -> covered m' pname sname.
Proof.
  intros Hc (kept & created & -> & Hk & _).
  apply covered_app. eapply covered_extends; eassumption.
Qed.


Lemma settled_apply (m : list PrimaryIntent) (c : Change) :
  settled m c -> apply_change m c = Some m.
Proof.
  unfold settled, apply_change.
  destruct (parse_intent_name (Intent_Name c)) as [[pname sname] |];
    [| reflexivity].
  intro H. unfold covered in H.
  rewrite (update_first_ext _ _ _ _ _
             (fun p p' => check_secondary_add sname (Proposal c)
                            (Reasoning c) p p') H).
  reflexivity.
Qed.

Lemma apply_change_settled (m m' : list PrimaryIntent) (c : Change) :
  apply_change m c = Some m' -> settled m' c.
Proof.
  unfold settled, apply_change.
  destruct (parse_intent_name (Intent_Name c)) as [[pname sname] |];
    [| trivial].
  destruct (update_first m pname _) as [[m1 |] |] eqn:E; [| | discriminate].
  - intro H. injection H as <-. eapply update_first_covered, E.
  - unfold add_secondary. simpl. intro H. injection H as <-.
    eapply update_first_created; [exact E | reflexivity |].
    unfold check_secondary. simpl. rewrite String.eqb_refl. reflexivity.
Qed.

Lemma settled_map_extends (m m' : list PrimaryIntent) (c : Change) :
  settled m c -> map_extends m m' -> settled m' c.
Proof.
  unfold settled.
  destruct (parse_intent_name (Intent_Name c)) as [[pname sname] |];
    [| trivial].
  apply covered_map_extends.
Qed.

Lemma apply_changes_all_settled (m m' : list PrimaryIntent)
    (changes : list Change) :
  apply_changes m changes = Some m' -> Forall (settled m') changes.
Proof.
  revert m. induction changes as [| c cs IH]; intro m; simpl;
    [constructor |].
  destruct (apply_change m c) as [m1 |] eqn:E; [| discriminate].
  intro H. constructor; [| eapply IH, H].
  eapply settled_map_extends; [eapply apply_change_settled, E |].
  eapply apply_changes_extends, H.
Qed.

Lemma apply_changes_settled (m : list PrimaryIntent) (changes : list Change) :
  Forall (settled m) changes -> apply_changes m changes = Some m.
Proof.
  induction 1 as [| c cs Hc _ IH]; simpl; [reflexivity |].
  rewrite (settled_apply _ _ Hc). exact IH.
Qed.

(** X8: [update_map] only adds.  Every primary intent of the input map
    stays at its position with its id and name, its secondaries stay in
    order with entries built by the loop appended, and primaries the loop
    created follow the existing ones. *)
Theorem update_map_keeps_and_appends (data data' : IntentData)
    (changes : list Change) :
  update_map data changes = Some data' ->
  exists m m',
    intent_mapper data = Some m /\ intent_mapper data' = Some m' /\
    map_extends m m'.
Proof.
  unfold update_map.
  destruct (intent_mapper data) as [m |]; [| discriminate].
  destruct (apply_changes m changes) as [m' |] eqn:E; [| discriminate].
  intro H. injection H as <-. exists m, m'.
  split; [reflexivity |]. split; [reflexivity |].
  eapply apply_changes_extends, E.
Qed.

Lemma update_map_keeps_and_appends_witness :
  update_map demo_intent_data demo_changes = Some demo_updated /\
  exists m m',
    intent_mapper demo_intent_data = Some m /\
    intent_mapper demo_updated = Some m' /\
    map_extends m m'.
Proof.
  split.
  - vm_compute. reflexivity.
  - apply (update_map_keeps_and_appends demo_intent_data demo_updated
             demo_changes).
    vm_compute. reflexivity.
Defined.

(** X9: [update_map] is idempotent: applying the same changes to its
    result changes nothing, since every change then finds its intent in the
    map. *)
Theorem update_map_idempotent (data data' : IntentData)
    (changes : list Change) :
  update_map data changes = Some data' ->
  update_map data' changes = Some data'.
Proof.
  unfold update_map.
  destruct (intent_mapper data) as [m |]; [| discriminate].
  destruct (apply_changes m changes) as [m' |] eqn:E; [| discriminate].
  intro H. injection H as <-. simpl.
  rewrite (apply_changes_settled _ _ (apply_changes_all_settled _ _ _ E)).
  reflexivity.
Qed.

Lemma update_map_idempotent_witness :
  update_map demo_intent_data demo_changes = Some demo_updated /\
  update_map demo_updated demo_changes = Some demo_updated.
Proof.
  split.
  - vm_compute. reflexivity.
  - apply (update_map_idempotent demo_intent_data demo_updated demo_changes).
    vm_compute. reflexivity.
Defined.

(** ** Well-formed maps and unique names *)

Lemma secondary_exists_wf (ss : list SecondaryIntent) (name : string) :
  Forall wf_secondary ss ->
  exists b,
    secondary_exists ss name = Some b /\
    (b = true <-> In (lower name) (map sec_key ss)).
Proof.
  induction 1 as [| s ss (n & Hn) _ (b & IH & Hb)]; simpl.
  - exists false. split; [reflexivity |]. split; [discriminate | tauto].
  - unfold sec_key at 1. rewrite Hn.
    destruct (String.eqb (lower n) (lower name)) eqn:E.
    + exists true. split; [reflexivity |]. apply String.eqb_eq in E. tauto.
    + exists b. split; [exact IH |]. apply String.eqb_neq in E.
      rewrite Hb. split; [tauto |]. intros [H | H]; [contradiction | exact H].
Qed.

Lemma add_secondary_wf (name ptype reasoning : string) (p : PrimaryIntent) :
  wf_primary p ->
  exists p',
    add_secondary name ptype reasoning p = Some p' /\
    wf_primary p' /\
    primary_key p' = primary_key p /\
    (unique_secondaries p -> unique_secondaries p').
Proof.
  intros (Hn & ss & Hss & Hwf). unfold add_secondary. rewrite Hss.
  destruct (secondary_exists_wf ss name Hwf) as (b & -> & Hb).
  destruct b.
  - exists p. split; [reflexivity |]. split; [| auto].
    split; [exact Hn |]. exists ss. auto.
  - eexists. split; [reflexivity |]. split; [| split].
    + split; [exact Hn |]. simpl. eexists. split; [reflexivity |].
      apply Forall_app. split; [exact Hwf |].
      constructor; [| constructor]. exists name. reflexivity.
    + reflexivity.
    + unfold unique_secondaries. rewrite Hss. simpl.
      rewrite map_app. simpl. intro Hnd.
      apply NoDup_app; [exact Hnd | repeat constructor; intros [] |].
      intros k Hk [<- | []]. unfold sec_key in Hk at 1. simpl in Hk.
      apply Hb in Hk. discriminate.
Qed.

Lemma update_first_wf (m : list PrimaryIntent) (pname : string)
    (f : PrimaryIntent -> option PrimaryIntent) :
  (forall p, wf_primary p ->
     exists p', f p = Some p' /\ wf_primary p' /\
                primary_key p' = primary_key p /\
                (unique_secondaries p -> unique_secondaries p')) ->
  wf_map m ->
  (update_first m pname f = Some None /\
   ~ In (lower pname) (map primary_key m)) \/
  (exists m',
     update_first m pname f = Some (Some m') /\
     wf_map m' /\
     map primary_key m' = map primary_key m /\
     (Forall unique_secondaries m -> Forall unique_secondaries m')).
Proof.
  intros Hf. induction 1 as [| p rest Hp Hrest IH]; simpl.
  - left. split; [reflexivity | tauto].
  - pose proof Hp as ((n & Hn) & _). rewrite Hn.
    assert (Hk : primary_key p = lower n)
      by (unfold primary_key; rewrite Hn; reflexivity).
    destruct (String.eqb (lower n) (lower pname)) eqn:E.
    + right. destruct (Hf p Hp) as (p' & -> & Hwf' & Hkey & Hu).
      exists (p' :: rest). split; [reflexivity |].
      split; [constructor; assumption |]. split.
      * simpl. rewrite Hkey. reflexivity.
      * intro H. inversion H; subst. constructor; auto.
    + apply String.eqb_neq in E.
      destruct IH as [(-> & Hnot) | (m' & -> & Hwf' & Hkeys & Hu)].
      * left. split; [reflexivity |]. rewrite Hk.
        intros [H | H]; auto.
      * right. exists (p :: m'). split; [reflexivity |].
        split; [constructor; assumption |]. split.
        -- simpl. rewrite Hkeys. reflexivity.
        -- intro H. inversion H; subst. constructor; auto.
Qed.

Lemma apply_change_wf (m : list PrimaryIntent) (c : Change) :
  wf_map m ->
  exists m',
    apply_change m c = Some m' /\ wf_map m' /\
    (unique_names m -> unique_names m').
Proof.
  intro Hwf. unfold apply_change.
  destruct (parse_intent_name (Intent_Name c)) as [[pname sname] |];
    [| exists m; auto].
  destruct (update_first_wf m pname
              (add_secondary sname (Proposal c) (Reasoning c))
              (add_secondary_wf _ _ _) Hwf)
    as [(-> & Hnot) | (m' & -> & Hwf' & Hkeys & Hu)].
  - unfold add_secondary. simpl. eexists. split; [reflexivity |]. split.
    + apply Forall_app. split; [exact Hwf |].
      constructor; [| constructor]. split; [eexists; reflexivity |].
      simpl. eexists. split; [reflexivity |].
      constructor; [| constructor]. exists sname. reflexivity.
    + intros (Hnd & Hall). split.
      * rewrite map_app. simpl.
        apply NoDup_app; [exact Hnd | repeat constructor; intros [] |].
        intros k Hk [<- | []]. apply Hnot. exact Hk.
      * apply Forall_app. split; [exact Hall |].
        constructor; [| constructor].
        unfold unique_secondaries. simpl. repeat constructor. intros [].
  - exists m'. split; [reflexivity |]. split; [exact Hwf' |].
    intros (Hnd & Hall). split; [rewrite Hkeys; exact Hnd | auto].
Qed.

Lemma apply_changes_wf (m : list PrimaryIntent) (changes : list Change) :
  wf_map m ->
  exists m',
    apply_changes m changes = Some m' /\ wf_map m' /\
    (unique_names m -> unique_names m').
Proof.
  revert m. induction changes as [| c cs IH]; intros m Hwf; simpl.
  - exists m. auto.
  - destruct (apply_change_wf m c Hwf) as (m1 & -> & Hwf1 & Hu1).
    destruct (IH m1 Hwf1) as (m' & -> & Hwf' & Hu').
    exists m'. auto.
Qed.

(** X10: on a map in which every primary has a name and a list of
    secondaries and every secondary has a name, [update_map] raises no
    [KeyError] for any list of changes, the result has these keys as well,
    and if no two primaries and no two secondaries of one primary shared a
    name up to case before, none do afterwards. *)
Theorem update_map_well_formed (data : IntentData) (m : list PrimaryIntent)
    (changes : list Change) :
  intent_mapper data = Some m ->
  wf_map m ->
  exists m',
    update_map data changes = Some {| intent_mapper := Some m' |} /\
    wf_map m' /\
    (unique_names m -> unique_names m').
Proof.
  intros Hm Hwf. unfold update_map. rewrite Hm.
  destruct (apply_changes_wf m changes Hwf) as (m' & -> & Hwf' & Hu).
  exists m'. auto.
Qed.

Lemma demo_intent_map_wf : wf_map demo_intent_map.
Proof.
  apply Forall_cons; [| apply Forall_nil].
  split; [eexists; reflexivity |].
  eexists. split; [reflexivity |].
  apply Forall_cons; [eexists; reflexivity | apply Forall_nil].
Qed.

Lemma update_map_well_formed_witness :
  wf_map demo_intent_map /\
  exists m',
    update_map demo_intent_data demo_changes
      = Some {| intent_mapper := Some m' |} /\
    wf_map m' /\
    (unique_names demo_intent_map -> unique_names m').
Proof.
  split.
  - exact demo_intent_map_wf.
  - apply (update_map_well_formed demo_intent_data demo_intent_map
             demo_changes).
    + reflexivity.
    + exact demo_intent_map_wf.
Defined.

(** ** Slugs *)

Lemma str_all_filter (f : ascii -> bool) (s : string) :
  str_all f (str_filter f s) = true.
Proof.
  induction s as [| c r IH]; simpl; [reflexivity |].
  destruct (f c) eqn:E; simpl; [rewrite E |]; exact IH.
Qed.

Lemma str_all_map (f : ascii -> ascii) (g h : ascii -> bool) (s : string) :
  (forall c, g c = true -> h (f c) = true) ->
  str_all g s = true -> str_all h (str_map f s) = true.
Proof.
  intro Hgh. induction s as [| c r IH]; simpl; [reflexivity |].
  rewrite !andb_true_iff. intros (Hc & Hr). auto.
Qed.

Lemma slug_char_alphabet (c : ascii) :
  slug_char c = true -> slug_alphabet (space_to_underscore c) = true.
Proof.
  unfold slug_char, slug_alphabet, space_to_underscore.
  destruct (Ascii.eqb c " ") eqn:E; [intros _; reflexivity |].
  rewrite E.
  destruct (is_lower c), (is_digit c), (is_space c), (Ascii.eqb c "_");
    simpl; auto.
Qed.

(** X11: a slug holds only the letters a-z, digits, underscores and
    whitespace other than the space; no upper-case letter, punctuation or
    space survives [slugify]. *)
Theorem slugify_alphabet (text : string) :
  str_all slug_alphabet (slugify text) = true.
Proof.
  unfold slugify.
  apply (str_all_map _ slug_char); [apply slug_char_alphabet |].
  apply str_all_filter.
Qed.

(** ** The flattened map after an update *)

Lemma append_assoc (a b c : string) :
  ((a ++ b) ++ c = a ++ (b ++ c))%string.
Proof. induction a as [| x a IH]; simpl; [reflexivity | rewrite IH; reflexivity]. Qed.

Lemma append_nil_r (a : string) : (a ++ "" = a)%string.
Proof. induction a as [| x a IH]; simpl; [reflexivity | rewrite IH; reflexivity]. Qed.

Lemma flatten_primary_app (text : string) (p : PrimaryIntent) :
  flatten_primary text p = (text ++ flatten_primary "" p)%string.
Proof.
  unfold flatten_primary.
  generalize (get_default (secondary_intents p) []) as ss.
  generalize (get_default (primary_intent_name p) "Unknown"%string) as n.
  intros n ss. revert text.
  assert (H : forall acc text,
    fold_left (fun t s => (t ++ intent_line n s)%string) ss (text ++ acc)%string
    = (text ++ fold_left (fun t s => (t ++ intent_line n s)%string) ss acc)%string).
  { induction ss as [| s ss IH]; intros acc text; simpl; [reflexivity |].
    rewrite append_assoc. apply IH. }
  intro text. rewrite <- (append_nil_r text) at 1. apply H.
Qed.

Lemma fold_flatten_app (m extra : list PrimaryIntent) (text : string) :
  fold_left flatten_primary (m ++ extra) text
  = fold_left flatten_primary extra (fold_left flatten_primary m text).
Proof. apply fold_left_app. Qed.

Lemma update_first_found (m m' : list PrimaryIntent) (name : string)
    (f : PrimaryIntent -> option PrimaryIntent) :
  update_first m name f = Some (Some m') ->
  exists p, In p m /\ primary_key p = lower name.
Proof.
  revert m'. induction m as [| p rest IH]; intro m'; simpl; [discriminate |].
  destruct (primary_intent_name p) as [n |] eqn:En; [| discriminate].
  destruct (String.eqb (lower n) (lower name)) eqn:E.
  - intros _. exists p. split; [left; reflexivity |].
    unfold primary_key. rewrite En. apply String.eqb_eq, E.
  - destruct (update_first rest name f) as [[rest' |] |]; try discriminate.
    intros _. destruct (IH rest' eq_refl) as (q & Hq & Hk).
    exists q. split; [right; exact Hq | exact Hk].
Qed.

(** X12: a change that names a primary intent which the map lacks adds
    exactly one line to the flattened intent map, at its end:
    [- [primary > secondary]: (proposal) reasoning]. *)
Theorem created_primary_adds_one_line (data : IntentData)
    (m : list PrimaryIntent) (change : Change)
    (primary_name secondary_name : string) :
  intent_mapper data = Some m ->
  wf_map m ->
  parse_intent_name (Intent_Name change) = Some (primary_name, secondary_name) ->
  ~ In (lower primary_name) (map primary_key m) ->
  exists data',
    update_map data [change] = Some data' /\
    flatten_intent_map data'
    = (flatten_intent_map data
       ++ "- [" ++ primary_name ++ " > " ++ secondary_name ++ "]: ("
       ++ Proposal change ++ ") " ++ Reasoning change ++ newline)%string.
Proof.
  intros Hm Hwf Hparse Hnew.
  unfold update_map, apply_changes, apply_change. rewrite Hm, Hparse.
  destruct (update_first_wf m primary_name
              (add_secondary secondary_name (Proposal change)
                 (Reasoning change))
              (add_secondary_wf _ _ _) Hwf)
    as [(-> & _) | (m' & Hfound & _)].
  - unfold add_secondary. simpl. eexists. split; [reflexivity |].
    unfold flatten_intent_map. rewrite Hm. simpl get_default.
    rewrite fold_flatten_app. simpl fold_left at 1.
    rewrite flatten_primary_app. f_equal.
    unfold flatten_primary, intent_line. simpl.
    rewrite !append_assoc. reflexivity.
  - exfalso. apply Hnew.
    destruct (update_first_found _ _ _ _ Hfound) as (p & Hp & Hk).
    rewrite <- Hk. apply in_map, Hp.
Qed.

Lemma created_primary_adds_one_line_witness :
  ~ In (lower "Shipping") (map primary_key demo_intent_map) /\
  exists data',
    update_map demo_intent_data [shipping_change] = Some data' /\
    flatten_intent_map data'
    = (flatten_intent_map demo_intent_data
       ++ "- [Shipping > Delays]: (SPLIT) Users ask why the parcel is late."
       ++ newline)%string.
Proof.
  assert (Hnew : ~ In (lower "Shipping") (map primary_key demo_intent_map)).
  { vm_compute. intros [H | []]. discriminate H. }
  split; [exact Hnew |].
  apply (created_primary_adds_one_line demo_intent_data demo_intent_map
           shipping_change "Shipping" "Delays").
  - reflexivity.
  - exact demo_intent_map_wf.
  - vm_compute. reflexivity.
  - exact Hnew.
Defined.

(** ** Fenced responses *)

Section CleanResponse.
Local Open Scope string_scope.

Lemma lstrip_app_space (w s : string) :
  str_all is_space w = true -> lstrip (w ++ s) = lstrip s.
Proof.
  induction w as [| c w IH]; simpl; [reflexivity |].
  rewrite andb_true_iff. intros (Hc & Hw). rewrite Hc. auto.
Qed.

Lemma rstrip_space (w : string) :
  str_all is_space w = true -> rstrip w = "".
Proof.
  induction w as [| c w IH]; simpl; [reflexivity |].
  rewrite andb_true_iff. intros (Hc & Hw). rewrite (IH Hw), Hc. reflexivity.
Qed.

Lemma rstrip_app_space (s w : string) :
  str_all is_space w = true -> rstrip (s ++ w) = rstrip s.
Proof.
  intro Hw. induction s as [| c s IH]; simpl.
  - apply rstrip_space, Hw.
  - rewrite IH. reflexivity.
Qed.

Lemma rstrip_nonspace (s : string) (c : ascii) :
  is_space c = false -> rstrip (s ++ String c "") = s ++ String c "".
Proof.
  intro Hc. induction s as [| x s IH]; simpl.
  - rewrite Hc. reflexivity.
  - rewrite IH. destruct s; reflexivity.
Qed.

(** What [strip] leaves of a text with whitespace around a core that
    starts and ends with other characters. *)
Lemma strip_core (w0 w3 mid : string) (a b : ascii) :
  str_all is_space w0 = true -> str_all is_space w3 = true ->
  is_space a = false -> is_space b = false ->
  strip (w0 ++ String a (mid ++ String b w3)) = String a (mid ++ String b "").
Proof.
  intros H0 H3 Ha Hb. unfold strip.
  replace (w0 ++ String a (mid ++ String b w3))
    with (((w0 ++ String a mid) ++ String b "") ++ w3).
  - rewrite (rstrip_app_space _ _ H3), (rstrip_nonspace _ _ Hb).
    rewrite !append_assoc. rewrite (lstrip_app_space _ _ H0).
    simpl. rewrite Ha. reflexivity.
  - rewrite !append_assoc. reflexivity.
Qed.

Lemma prefix_after_space (p : string) (x : ascii) (w rest : string) (c : ascii) :
  is_space x = false -> x <> c ->
  str_all is_space w = true ->
  prefix (String x p) (w ++ String c rest) = false.
Proof.
  intros Hx Hne Hw. destruct w as [| y w]; simpl.
  - destruct (ascii_dec x c); [contradiction | reflexivity].
  - simpl in Hw. apply andb_true_iff in Hw. destruct Hw as (Hy & _).
    destruct (ascii_dec x y); [congruence | reflexivity].
Qed.

Lemma prefix_app_cancel (p q s : string) :
  prefix (p ++ q) (p ++ s) = prefix q s.
Proof.
  induction p as [| a p IH]; simpl; [reflexivity |].
  destruct (ascii_dec a a); [exact IH | congruence].
Qed.

Lemma prefix_app (p s : string) : prefix p (p ++ s) = true.
Proof.
  rewrite <- (append_nil_r p) at 1. rewrite prefix_app_cancel.
  destruct s; reflexivity.
Qed.

Lemma drop_app (p s : string) : drop (String.length p) (p ++ s) = s.
Proof. induction p as [| a p IH]; simpl; [reflexivity | exact IH]. Qed.

Lemma ends_with_cons (suffix : string) (c : ascii) (r : string) :
  ends_with suffix (String c r)
  = if String.eqb (String c r) suffix then true else ends_with suffix r.
Proof. reflexivity. Qed.

Lemma ends_with_nil (suffix : string) :
  ends_with suffix "" = String.eqb "" suffix.
Proof. destruct suffix; reflexivity. Qed.

Lemma ends_with_app (x suffix : string) : ends_with suffix (x ++ suffix) = true.
Proof.
  induction x as [| c x IH].
  - simpl append. destruct suffix as [| a r].
    + reflexivity.
    + rewrite ends_with_cons, String.eqb_refl. reflexivity.
  - simpl append. rewrite ends_with_cons, IH.
    destruct (String.eqb _ suffix); reflexivity.
Qed.

Lemma last_char_cons (c : ascii) (r : string) :
  r <> "" -> last_char (String c r) = last_char r.
Proof. destruct r; [congruence | reflexivity]. Qed.

Lemma last_char_app (s : string) (c : ascii) :
  last_char (s ++ String c "") = Some c.
Proof.
  induction s as [| x s IH]; [reflexivity |].
  simpl append. rewrite last_char_cons; [exact IH |].
  destruct s; discriminate.
Qed.

Lemma ends_with_last (suffix s : string) :
  suffix <> "" -> ends_with suffix s = true ->
  last_char s = last_char suffix.
Proof.
  intro Hne. induction s as [| c r IH].
  - rewrite ends_with_nil. intro H. apply String.eqb_eq in H. congruence.
  - rewrite ends_with_cons.
    destruct (String.eqb (String c r) suffix) eqn:E.
    + intros _. apply String.eqb_eq in E. rewrite E. reflexivity.
    + intro H. rewrite last_char_cons; [apply IH, H |].
      intros ->. rewrite ends_with_nil in H.
      apply String.eqb_eq in H. congruence.
Qed.

Lemma substring_app (x y : string) :
  substring 0 (String.length x) (x ++ y) = x.
Proof.
  induction x as [| c x IH]; simpl.
  - destruct y; reflexivity.
  - rewrite IH. reflexivity.
Qed.

Lemma length_append (x y : string) :
  String.length (x ++ y) = (String.length x + String.length y)%nat.
Proof. induction x as [| c x IH]; simpl; [reflexivity | rewrite IH; reflexivity]. Qed.

Lemma drop_last_app (x suffix : string) :
  drop_last (String.length suffix) (x ++ suffix) = x.
Proof.
  unfold drop_last. rewrite length_append, Nat.add_sub. apply substring_app.
Qed.

Lemma json_object_last (body : string) :
  last_char (json_object body) = Some "}"%char.
Proof.
  unfold json_object. simpl append. rewrite last_char_cons.
  - apply last_char_app.
  - destruct body; discriminate.
Qed.

(** The text between the fences: after the opening fence is cut, the
    closing one is found and cut, and the object is left. *)
Lemma clean_tail (w1 w2 body : string) :
  str_all is_space w1 = true -> str_all is_space w2 = true ->
  let text := w1 ++ json_object body ++ w2 ++ fence in
  prefix "json" text = false /\ prefix fence text = false /\
  strip (if ends_with fence text then drop_last 3 text else text)
  = json_object body.
Proof.
  intros H1 H2 text. split; [| split].
  - apply prefix_after_space; [reflexivity | discriminate | exact H1].
  - apply prefix_after_space; [reflexivity | discriminate | exact H1].
  - replace text with ((w1 ++ json_object body ++ w2) ++ fence)
      by (unfold text; rewrite !append_assoc; reflexivity).
    rewrite ends_with_app.
    change 3%nat with (String.length fence). rewrite drop_last_app.
    unfold json_object. rewrite !append_assoc.
    apply (strip_core w1 w2 body "{" "}"); auto.
Qed.

(** X13: [clean_llm_response] unwraps a JSON object: with any
    whitespace around and between, an object inside a [```json] fence,
    inside a plain [```] fence, or without a fence comes back as the object
    alone. *)
Theorem clean_llm_response_unwraps (w0 w1 w2 w3 body : string) :
  str_all is_space w0 = true -> str_all is_space w1 = true ->
  str_all is_space w2 = true -> str_all is_space w3 = true ->
  clean_llm_response
    (w0 ++ json_fence ++ w1 ++ json_object body ++ w2 ++ fence ++ w3)
    = json_object body /\
  clean_llm_response
    (w0 ++ fence ++ w1 ++ json_object body ++ w2 ++ fence ++ w3)
    = json_object body /\
  clean_llm_response (w0 ++ json_object body ++ w3) = json_object body.
Proof.
  intros H0 H1 H2 H3.
  destruct (clean_tail w1 w2 body H1 H2) as (Hj & Hf & Hs).
  set (text := w1 ++ json_object body ++ w2 ++ fence) in *.
  assert (Hstrip : forall opening,
            strip (w0 ++ String "`" opening ++ w1 ++ json_object body
                      ++ w2 ++ fence ++ w3)
            = String "`" opening ++ text).
  { intro opening.
    replace (w0 ++ String "`" opening ++ w1 ++ json_object body
                ++ w2 ++ fence ++ w3)
      with (w0 ++ String "`"
              ((opening ++ w1 ++ json_object body ++ w2 ++ "``")
               ++ String "`" w3)).
    - rewrite (strip_core w0 w3 _ "`" "`") by auto.
      unfold text, fence. rewrite !append_assoc. reflexivity.
    - unfold fence. rewrite !append_assoc. reflexivity. }
  split; [| split]; unfold clean_llm_response.
  - pose proof (Hstrip "``json") as E.
    change (String "`" "``json") with json_fence in E. rewrite E.
    rewrite prefix_app.
    change 7%nat with (String.length json_fence). rewrite drop_app.
    rewrite Hf. exact Hs.
  - pose proof (Hstrip "``") as E.
    change (String "`" "``") with fence in E. rewrite E.
    change json_fence with (fence ++ "json").
    rewrite prefix_app_cancel, Hj, prefix_app.
    change 3%nat with (String.length fence) at 1. rewrite drop_app.
    exact Hs.
  - assert (E : strip (w0 ++ json_object body ++ w3) = json_object body).
    { unfold json_object. rewrite !append_assoc.
      apply (strip_core w0 w3 body "{" "}"); auto. }
    assert (E0 : strip (json_object body) = json_object body).
    { apply (strip_core "" "" body "{" "}"); auto. }
    assert (Hp1 : prefix json_fence (json_object body) = false) by reflexivity.
    assert (Hp2 : prefix fence (json_object body) = false) by reflexivity.
    rewrite E, Hp1, Hp2.
    destruct (ends_with fence (json_object body)) eqn:Ee; [| exact E0].
    apply ends_with_last in Ee; [| discriminate].
    rewrite json_object_last in Ee. discriminate.
Qed.

End CleanResponse.

Lemma clean_llm_response_unwraps_witness :
  clean_llm_response
    (" " ++ json_fence ++ newline ++ json_object demo_body ++ newline
     ++ fence ++ newline)%string
    = json_object demo_body /\
  clean_llm_response
    (" " ++ fence ++ newline ++ json_object demo_body ++ newline
     ++ fence ++ newline)%string
    = json_object demo_body /\
  clean_llm_response (" " ++ json_object demo_body ++ newline)%string
    = json_object demo_body.
Proof.
  apply (clean_llm_response_unwraps " " newline newline newline demo_body);
    reflexivity.
Defined.

(** ** Order of the report *)

Lemma filter_none {A : Type} (p : A -> bool) (l : list A) :
  Forall (fun x => p x = false) l -> filter p l = [].
Proof.
  induction 1 as [| x r Hx _ IH]; simpl; [reflexivity |].
  rewrite Hx. exact IH.
Qed.

Lemma priority_cases (x : Analysis) :
  (priority x = 0%nat /\ has_proposal "NEW" x = true /\
   has_proposal "SPLIT" x = false /\ has_proposal "EXISTING" x = false /\
   other_proposal x = false) \/
  (priority x = 1%nat /\ has_proposal "NEW" x = false /\
   has_proposal "SPLIT" x = true /\ has_proposal "EXISTING" x = false /\
   other_proposal x = false) \/
  (priority x = 2%nat /\ has_proposal "NEW" x = false /\
   has_proposal "SPLIT" x = false /\ has_proposal "EXISTING" x = true /\
   other_proposal x = false) \/
  (priority x = 3%nat /\ has_proposal "NEW" x = false /\
   has_proposal "SPLIT" x = false /\ has_proposal "EXISTING" x = false /\
   other_proposal x = true).
Proof.
  unfold priority, priority_order_get, other_proposal, has_proposal.
  destruct (String.eqb (res_proposal x) "NEW") eqn:E0.
  { apply String.eqb_eq in E0. rewrite E0. left. repeat split. }
  destruct (String.eqb (res_proposal x) "SPLIT") eqn:E1.
  { apply String.eqb_eq in E1. rewrite E1. right; left. repeat split. }
  destruct (String.eqb (res_proposal x) "EXISTING") eqn:E2.
  { right; right; left. repeat split. }
  right; right; right. repeat split.
Qed.

(** A list in priority order is its four classes one after the other. *)
Lemma sorted_by_priority (l : list Analysis) :
  StronglySorted (fun a b => priority_leb a b = true) l ->
  l = filter (has_proposal "NEW") l ++ filter (has_proposal "SPLIT") l
      ++ filter (has_proposal "EXISTING") l ++ filter other_proposal l.
Proof.
  induction 1 as [| x r Hs IH Hx]; [reflexivity |].
  assert (Hlow : forall p (k : nat), priority x = k ->
            (forall y, p y = true -> (priority y < k)%nat) ->
            filter p r = []).
  { intros p k Hk Hp. apply filter_none.
    rewrite Forall_forall in Hx |- *. intros y Hy.
    specialize (Hx y Hy). unfold priority_leb in Hx.
    apply Nat.leb_le in Hx.
    destruct (p y) eqn:E; [| reflexivity].
    specialize (Hp y E). lia. }
  assert (Hlt : forall q y, has_proposal q y = true ->
            priority y = priority_order_get q).
  { intros q y H. unfold has_proposal in H. apply String.eqb_eq in H.
    unfold priority. rewrite H. reflexivity. }
  simpl.
  destruct (priority_cases x) as
    [(Hk & -> & -> & -> & ->) | [(Hk & -> & -> & -> & ->)
     | [(Hk & -> & -> & -> & ->) | (Hk & -> & -> & -> & ->)]]].
  - simpl. f_equal. exact IH.
  - rewrite (Hlow (has_proposal "NEW") 1%nat Hk).
    + simpl. f_equal. rewrite IH at 1.
      rewrite (Hlow (has_proposal "NEW") 1%nat Hk); [reflexivity |].
      intros y Hy. rewrite (Hlt _ _ Hy). cbv. lia.
    + intros y Hy. rewrite (Hlt _ _ Hy). cbv. lia.
  - assert (H0 : filter (has_proposal "NEW") r = []).
    { apply (Hlow _ 2%nat Hk). intros y Hy. rewrite (Hlt _ _ Hy). cbv. lia. }
    assert (H1 : filter (has_proposal "SPLIT") r = []).
    { apply (Hlow _ 2%nat Hk). intros y Hy. rewrite (Hlt _ _ Hy). cbv. lia. }
    rewrite H0, H1. simpl. f_equal. rewrite IH at 1. rewrite H0, H1.
    reflexivity.
  - assert (H0 : filter (has_proposal "NEW") r = []).
    { apply (Hlow _ 3%nat Hk). intros y Hy. rewrite (Hlt _ _ Hy). cbv. lia. }
    assert (H1 : filter (has_proposal "SPLIT") r = []).
    { apply (Hlow _ 3%nat Hk). intros y Hy. rewrite (Hlt _ _ Hy). cbv. lia. }
    assert (H2 : filter (has_proposal "EXISTING") r = []).
    { apply (Hlow _ 3%nat Hk). intros y Hy. rewrite (Hlt _ _ Hy). cbv. lia. }
    rewrite H0, H1, H2. simpl. f_equal. rewrite IH at 1.
    rewrite H0, H1, H2. reflexivity.
Qed.

Lemma same_class_leb (p : Analysis -> bool) :
  (forall a b, p a = true -> p b = true -> priority a = priority b) ->
  forall a b, p a = true -> p b = true -> priority_leb a b = true.
Proof.
  intros H a b Ha Hb. unfold priority_leb. rewrite (H a b Ha Hb).
  apply Nat.leb_refl.
Qed.

(** X14: the report lists the analyses with proposal NEW first, then
    SPLIT, then EXISTING, then all others, each group in the order in which
    the analysis loop produced them. *)
Theorem report_order (results : list Analysis) :
  sort_results results
  = filter (has_proposal "NEW") results
    ++ filter (has_proposal "SPLIT") results
    ++ filter (has_proposal "EXISTING") results
    ++ filter other_proposal results.
Proof.
  assert (Hs : StronglySorted (fun a b => priority_leb a b = true)
                 (sort_results results)).
  { apply stable_sort_sorted.
    - intros a b. unfold priority_leb.
      destruct (Nat.leb_spec (priority a) (priority b)); [left; reflexivity |].
      right. apply Nat.leb_le. lia.
    - intros a b c. unfold priority_leb. rewrite !Nat.leb_le. lia. }
  rewrite (sorted_by_priority _ Hs) at 1.
  assert (Hq : forall q a b, has_proposal q a = true ->
            has_proposal q b = true -> priority a = priority b).
  { intros q a b Ha Hb. unfold has_proposal in *.
    apply String.eqb_eq in Ha, Hb. unfold priority. congruence. }
  unfold sort_results.
  rewrite !(stable_sort_stable priority_leb (has_proposal _))
    by (apply same_class_leb, Hq).
  rewrite (stable_sort_stable priority_leb other_proposal); [reflexivity |].
  apply same_class_leb. intros a b Ha Hb.
  destruct (priority_cases a) as
    [(_ & _ & _ & _ & E) | [(_ & _ & _ & _ & E)
     | [(_ & _ & _ & _ & E) | (Ea & _)]]]; try congruence.
  destruct (priority_cases b) as
    [(_ & _ & _ & _ & E) | [(_ & _ & _ & _ & E)
     | [(_ & _ & _ & _ & E) | (Eb & _)]]]; congruence.
Qed.

(** ** Where the entries of the updated map come from *)

Lemma add_secondary_source (sname ptype reasoning : string)
    (p p' : PrimaryIntent) (s : SecondaryIntent) :
  add_secondary sname ptype reasoning p = Some p' ->
  In s (get_default (secondary_intents p') []) ->
  In s (get_default (secondary_intents p) [])
  \/ s = new_entry sname ptype reasoning.
Proof.
  unfold add_secondary.
  destruct (secondary_intents p) as [ss |] eqn:Ess; [| discriminate].
  destruct (secondary_exists ss sname) as [[|] |]; try discriminate;
    intro H; injection H as <-.
  - rewrite Ess. auto.
  - simpl. intro Hs. apply in_app_or in Hs.
    destruct Hs as [Hs | [<- | []]]; auto.
Qed.

Lemma update_first_source (m m' : list PrimaryIntent) (name : string)
    (f : PrimaryIntent -> option PrimaryIntent) (s0 s : SecondaryIntent) :
  (forall p p', f p = Some p' ->
     In s (get_default (secondary_intents p') []) ->
     In s (get_default (secondary_intents p) []) \/ s = s0) ->
  update_first m name f = Some (Some m') ->
  In s (all_secondaries m') -> In s (all_secondaries m) \/ s = s0.
Proof.
  intro Hf. revert m'. induction m as [| p rest IH]; intro m'; simpl;
    [discriminate |].
  destruct (primary_intent_name p) as [n |]; [| discriminate].
  destruct (String.eqb (lower n) (lower name)).
  - destruct (f p) as [p' |] eqn:E; [| discriminate].
    intro H. injection H as <-. simpl. intro Hs.
    apply in_app_or in Hs. destruct Hs as [Hs | Hs].
    + destruct (Hf _ _ E Hs) as [H | H]; [left; apply in_or_app | ]; auto.
    + left. apply in_or_app. auto.
  - destruct (update_first rest name f) as [[rest' |] |]; try discriminate.
    intro H. injection H as <-. simpl. intro Hs.
    apply in_app_or in Hs. destruct Hs as [Hs | Hs].
    + left. apply in_or_app. auto.
    + destruct (IH rest' eq_refl Hs) as [H | H]; [left; apply in_or_app |];
        auto.
Qed.

Lemma all_secondaries_app (m m' : list PrimaryIntent) :
  all_secondaries (m ++ m') = all_secondaries m ++ all_secondaries m'.
Proof. apply flat_map_app. Qed.

Lemma apply_change_source (m m' : list PrimaryIntent) (change : Change)
    (s : SecondaryIntent) :
  apply_change m change = Some m' ->
  In s (all_secondaries m') ->
  In s (all_secondaries m) \/ entry_of change s.
Proof.
  unfold apply_change, entry_of.
  destruct (parse_intent_name (Intent_Name change)) as [[pname sname] |];
    [| intro H; injection H as <-; auto].
  destruct (update_first m pname
              (add_secondary sname (Proposal change) (Reasoning change)))
    as [[m1 |] |] eqn:E; [| | discriminate].
  - intro H. injection H as <-. intro Hs.
    destruct (update_first_source m m1 pname _
                (new_entry sname (Proposal change) (Reasoning change)) s
                (fun p p' Hp => add_secondary_source _ _ _ p p' s Hp) E Hs)
      as [H | H]; [left; exact H |].
    right. exists pname, sname. auto.
  - destruct (add_secondary sname (Proposal change) (Reasoning change) _)
      as [t |] eqn:Et; [| discriminate].
    intro H. injection H as <-. rewrite all_secondaries_app. intro Hs.
    apply in_app_or in Hs. destruct Hs as [Hs | Hs]; [left; exact Hs |].
    simpl in Hs. rewrite app_nil_r in Hs.
    destruct (add_secondary_source _ _ _ _ _ s Et Hs) as [[] | H].
    right. exists pname, sname. auto.
Qed.

Lemma apply_changes_source (changes : list Change)
    (m m' : list PrimaryIntent) (s : SecondaryIntent) :
  apply_changes m changes = Some m' ->
  In s (all_secondaries m') ->
  In s (all_secondaries m) \/ exists change, In change changes /\ entry_of change s.
Proof.
  revert m. induction changes as [| c cs IH]; intro m; simpl.
  - intro H. injection H as <-. auto.
  - destruct (apply_change m c) as [m1 |] eqn:E; [| discriminate].
    intros H Hs. destruct (IH m1 H Hs) as [H1 | (c' & Hc' & He)].
    + destruct (apply_change_source _ _ _ _ E H1) as [H2 | H2];
        [left; exact H2 |].
      right. exists c. auto.
    + right. exists c'. auto.
Qed.

(** X15: every secondary intent of the updated map that the original map
    did not hold was built by the loop from a row of the audit log whose
    proposal is NEW or SPLIT; rows with any other proposal add nothing. *)
Theorem added_entries_from_new_or_split_rows (data data' : IntentData)
    (rows : list Change) (s : SecondaryIntent) :
  update_map data (load_changes rows) = Some data' ->
  In s (all_secondaries (get_default (intent_mapper data') [])) ->
  In s (all_secondaries (get_default (intent_mapper data) []))
  \/ exists row,
       In row rows /\
       (Proposal row = "NEW"%string \/ Proposal row = "SPLIT"%string) /\
       entry_of row s.
Proof.
  unfold update_map.
  destruct (intent_mapper data) as [m |]; [| discriminate].
  destruct (apply_changes m (load_changes rows)) as [m' |] eqn:E;
    [| discriminate].
  intro H. injection H as <-. simpl. intro Hs.
  destruct (apply_changes_source _ _ _ _ E Hs) as [H | (c & Hc & He)];
    [left; exact H |].
  right. exists c. unfold load_changes in Hc. apply filter_In in Hc.
  destruct Hc as (Hin & Hp). split; [exact Hin |]. split; [| exact He].
  unfold new_or_split in Hp. apply orb_true_iff in Hp.
  destruct Hp as [Hp | Hp]; apply String.eqb_eq in Hp; auto.
Qed.

Lemma added_entries_from_new_or_split_rows_witness :
  update_map demo_intent_data (load_changes demo_rows) = Some demo_updated /\
  (In delays_entry (all_secondaries demo_intent_map)
   \/ exists row,
        In row demo_rows /\
        (Proposal row = "NEW"%string \/ Proposal row = "SPLIT"%string) /\
        entry_of row delays_entry).
Proof.
  split.
  - vm_compute. reflexivity.
  - apply (added_entries_from_new_or_split_rows demo_intent_data demo_updated
             demo_rows delays_entry).
    + vm_compute. reflexivity.
    + vm_compute. right. right. left. reflexivity.
Defined.

